(** * jcemUI build tooling: numeral base converter and file-injection engine

    A shallow embedding of
      - [src/scripts/base.ts]        ([convertBase]),
      - the injection engine with import rewriting (module [Canonical]),
      - its older, simpler sibling (module [Simple]),
      - the preset alphabets and converters of [src/scripts/base.ts]
        (module [Presets]),
      - [_EscapeRegExp] and the matchers of the two hook files (module
        [HookFiles]),
      - the short ids of theme variables and [generateConfigContent]
        (module [ThemeIds]),
    together with the parts of the JavaScript runtime they rely on:
    strings, [Map], ordinary objects and their enumeration order, regular
    expressions, [String.prototype.replace], and Node's POSIX [path] module.

    Conventions.  A JavaScript string is a list of characters.  The
    characters are Rocq's [ascii] (code units 0..255); in that range a code
    unit and a code point coincide, so iterating a string with [for..of] or
    with an index visits the same items.

    What the program takes from its environment is passed explicitly:
      - [cwd] is the value of [process.cwd()];
      - [fs] maps a path to the text that [fs.readFileSync] returns for it,
        [None] when the read throws;
      - a hook's [getContent] and a matcher function are pure functions, and
        a RegExp supplied by a caller is represented by its [test] (it is
        taken to have neither the [g] nor the [y] flag, so that [test]
        keeps no state).
    [path] is Node's POSIX implementation (the separator is [/], and a
    backslash is an ordinary character of a name).  BigInt is [Z].  The
    [while] loop of [convertBase] is given a bound on its iterations, and a
    run that has not left the loop within the bound ends in [OutOfFuel]. *)

From Stdlib Require Import String Ascii List ZArith NArith Lia Bool Arith.
Import ListNotations.

Local Open Scope list_scope.

(* ===================================================================== *)
(** * JavaScript strings *)
(* ===================================================================== *)

Definition jsstring := list ascii.

Definition str (s : string) : jsstring := list_ascii_of_string s.

Definition jsstring_dec : forall a b : jsstring, {a = b} + {a <> b} :=
  list_eq_dec ascii_dec.

Definition jseqb (a b : jsstring) : bool :=
  if jsstring_dec a b then true else false.

(** [s.startsWith(p)] *)
Fixpoint startsWith (p s : jsstring) : bool :=
  match p, s with
  | [], _ => true
  | _ :: _, [] => false
  | a :: p', b :: s' => Ascii.eqb a b && startsWith p' s'
  end.

(* ===================================================================== *)
(** * [Map] with string keys, as the converter uses it *)
(* ===================================================================== *)

Module JsMap.

(** Entries in insertion order; [set] on an existing key keeps its place. *)
Definition t (V : Type) := list (jsstring * V).

Fixpoint set {V} (k : jsstring) (v : V) (m : t V) : t V :=
  match m with
  | [] => [(k, v)]
  | (k', v') :: m' =>
      if jsstring_dec k k' then (k', v) :: m' else (k', v') :: set k v m'
  end.

Fixpoint get {V} (k : jsstring) (m : t V) : option V :=
  match m with
  | [] => None
  | (k', v') :: m' => if jsstring_dec k k' then Some v' else get k m'
  end.

Definition has {V} (k : jsstring) (m : t V) : bool :=
  match get k m with Some _ => true | None => false end.

(** [new Map(entries)] *)
Definition of_entries {V} (es : list (jsstring * V)) : t V :=
  fold_left (fun m e => set (fst e) (snd e) m) es [].

End JsMap.

(* ===================================================================== *)
(** * src/scripts/base.ts *)
(* ===================================================================== *)

Module Base.

(** What a caller can pass as an alphabet: the declared type is
    [string | string[]]; [AOther] stands for any other run-time value. *)
Inductive alphabet_arg :=
| AString (s : jsstring)
| AArray (l : list jsstring)
| AOther.

(** How a call of [convertBase] ends. *)
Inductive result :=
| Returned (s : jsstring)
| ReturnedUndefined          (* [toSymbols[0]] of an empty alphabet *)
| ThrewTypeError
| ThrewError
| ThrewRangeError            (* BigInt division by zero *)
| OutOfFuel.                 (* the [while] loop did not exit *)

(** [normalizeBase]: [None] is the thrown [TypeError].  Spreading a string
    yields its code points, each a one-character string. *)
Definition normalizeBase (base : alphabet_arg) : option (list jsstring) :=
  match base with
  | AString s => Some (map (fun c => [c]) s)
  | AArray l => Some l
  | AOther => None
  end.

(** [new Set(arr).size !== arr.length] *)
Definition hasDuplicates (arr : list jsstring) : bool :=
  negb (length (nodup jsstring_dec arr) =? length arr).

(** [fromSymbols.map((sym, i) => [sym, i])] *)
Fixpoint entries_from (i : nat) (syms : list jsstring) : list (jsstring * nat) :=
  match syms with
  | [] => []
  | s :: syms' => (s, i) :: entries_from (S i) syms'
  end.

Definition fromMap_of (fromSymbols : list jsstring) : JsMap.t nat :=
  JsMap.of_entries (entries_from 0 fromSymbols).

(** The validation loop: [true] when no character makes it throw. *)
Definition validate (fromMap : JsMap.t nat) (value : jsstring) : bool :=
  forallb (fun ch => JsMap.has [ch] fromMap) value.

(** The accumulation loop.  [BigInt(undefined)] throws a [TypeError]; that
    is the [None] here. *)
Fixpoint accumulate (fromMap : JsMap.t nat) (fromBase : Z)
         (value : jsstring) (num : Z) : option Z :=
  match value with
  | [] => Some num
  | ch :: value' =>
      match JsMap.get [ch] fromMap with
      | Some i => accumulate fromMap fromBase value' (num * fromBase + Z.of_nat i)
      | None => None
      end
  end.

(** The [while (num > 0n)] loop; BigInt [/] and [%] truncate. *)
Fixpoint toDigits (fuel : nat) (toSymbols : list jsstring) (toBase : Z)
         (num : Z) (res : jsstring) : result :=
  if (num >? 0)%Z then
    match fuel with
    | O => OutOfFuel
    | S fuel' =>
        if (toBase =? 0)%Z then ThrewRangeError
        else
          let remainder := Z.to_nat (Z.rem num toBase) in
          let sym := match nth_error toSymbols remainder with
                     | Some s => s
                     | None => str "undefined"
                     end in
          toDigits fuel' toSymbols toBase (Z.quot num toBase) (sym ++ res)
    end
  else Returned res.

Definition convertBase (fuel : nat) (value : jsstring)
           (fromBaseSymbols toBaseSymbols : alphabet_arg) : result :=
  match normalizeBase fromBaseSymbols with
  | None => ThrewTypeError
  | Some fromSymbols =>
      match normalizeBase toBaseSymbols with
      | None => ThrewTypeError
      | Some toSymbols =>
          if hasDuplicates fromSymbols then ThrewError
          else if hasDuplicates toSymbols then ThrewError
          else
            let fromBase := Z.of_nat (length fromSymbols) in
            let toBase := Z.of_nat (length toSymbols) in
            let fromMap := fromMap_of fromSymbols in
            if negb (validate fromMap value) then ThrewError
            else
              match accumulate fromMap fromBase value 0%Z with
              | None => ThrewTypeError
              | Some num =>
                  if (num =? 0)%Z then
                    match nth_error toSymbols 0 with
                    | Some s => Returned s
                    | None => ReturnedUndefined
                    end
                  else toDigits fuel toSymbols toBase num []
              end
      end
  end.

Definition BASE10_ALPHABET := str "0123456789".
Definition BASE16 := str "0123456789ABCDEF".

End Base.

(* ===================================================================== *)
(** * Characters *)
(* ===================================================================== *)

Definition chr_eq (a b : ascii) : bool := Ascii.eqb a b.

Definition code (c : ascii) : N := N_of_ascii c.

(** [toUpperCase] / [toLowerCase] on the letters a-z / A-Z.  This is also
    the canonicalisation that the [i] flag of a non-unicode RegExp applies
    when one side of the comparison is an ASCII character. *)
Definition upper (c : ascii) : ascii :=
  if ((97 <=? code c) && (code c <=? 122))%N then ascii_of_N (code c - 32) else c.

Definition lower (c : ascii) : ascii :=
  if ((65 <=? code c) && (code c <=? 90))%N then ascii_of_N (code c + 32) else c.

Definition toLowerCase (s : jsstring) : jsstring := map lower s.

(** [\s] restricted to code units below 256: TAB LF VT FF CR SP NBSP. *)
Definition is_space (c : ascii) : bool :=
  let n := code c in
  ((9 <=? n) && (n <=? 13) || (n =? 32) || (n =? 160))%N.

Definition LF : ascii := ascii_of_N 10.
Definition CR : ascii := ascii_of_N 13.
Definition DQUOTE : ascii := ascii_of_N 34.

(** [s.replace(/\\/g, '/')] *)
Definition backslash_to_slash (s : jsstring) : jsstring :=
  map (fun c => if chr_eq c "\"%char then "/"%char else c) s.

(* ===================================================================== *)
(** * Node's [path] module, POSIX flavour

    Node's implementation scans characters; [normalizeString] is given here
    on the list of [/]-separated segments, which is the same function. *)
(* ===================================================================== *)

Module Path.

Definition isAbsolute (p : jsstring) : bool :=
  match p with
  | c :: _ => chr_eq c "/"%char
  | [] => false
  end.

Fixpoint split_slash (p : jsstring) : list jsstring :=
  match p with
  | [] => [[]]
  | c :: p' =>
      if chr_eq c "/"%char then [] :: split_slash p'
      else match split_slash p' with
           | s :: ss => (c :: s) :: ss
           | [] => [[c]]
           end
  end.

Fixpoint join_slash (segs : list jsstring) : jsstring :=
  match segs with
  | [] => []
  | [s] => s
  | s :: ss => s ++ "/"%char :: join_slash ss
  end.

(** One segment of [normalizeString]; the stack has the last segment
    first. *)
Definition norm_step (allowAboveRoot : bool) (stack : list jsstring)
           (seg : jsstring) : list jsstring :=
  if jseqb seg [] || jseqb seg (str ".") then stack
  else if jseqb seg (str "..") then
    match stack with
    | top :: below =>
        if jseqb top (str "..")
        then (if allowAboveRoot then seg :: stack else stack)
        else below
    | [] => if allowAboveRoot then [seg] else []
    end
  else seg :: stack.

Definition normalizeString (p : jsstring) (allowAboveRoot : bool) : jsstring :=
  join_slash (rev (fold_left (norm_step allowAboveRoot) (split_slash p) [])).

Definition ends_with_slash (p : jsstring) : bool :=
  match rev p with
  | c :: _ => chr_eq c "/"%char
  | [] => false
  end.

Definition normalize (p : jsstring) : jsstring :=
  match p with
  | [] => str "."
  | _ =>
      let isAbs := isAbsolute p in
      let trailingSeparator := ends_with_slash p in
      match normalizeString p (negb isAbs) with
      | [] => if isAbs then str "/" else if trailingSeparator then str "./" else str "."
      | q =>
          let q' := if trailingSeparator then q ++ str "/" else q in
          if isAbs then "/"%char :: q' else q'
      end
  end.

(** The right-to-left loop of [resolve]; [rargs] are the arguments, last
    first, and the working directory is consulted when they run out. *)
Fixpoint resolve_loop (cwd : jsstring) (rargs : list jsstring)
         (resolvedPath : jsstring) : jsstring * bool :=
  match rargs with
  | [] =>
      match cwd with
      | [] => (resolvedPath, false)
      | _ => (cwd ++ "/"%char :: resolvedPath, isAbsolute cwd)
      end
  | p :: rargs' =>
      match p with
      | [] => resolve_loop cwd rargs' resolvedPath
      | _ =>
          let rp := p ++ "/"%char :: resolvedPath in
          if isAbsolute p then (rp, true) else resolve_loop cwd rargs' rp
      end
  end.

Definition resolve (cwd : jsstring) (args : list jsstring) : jsstring :=
  let '(resolvedPath, resolvedAbsolute) := resolve_loop cwd (rev args) [] in
  let q := normalizeString resolvedPath (negb resolvedAbsolute) in
  if resolvedAbsolute then "/"%char :: q
  else match q with [] => str "." | _ => q end.

(** [dirname]: the scan runs from the last character down to index 1. *)
Fixpoint dirname_scan (rtl : jsstring) (matchedSlash : bool) : option jsstring :=
  match rtl with
  | [] => None
  | c :: r =>
      if chr_eq c "/"%char
      then (if matchedSlash then dirname_scan r true else Some r)
      else dirname_scan r false
  end.

Definition dirname (p : jsstring) : jsstring :=
  match p with
  | [] => str "."
  | c0 :: tl =>
      let hasRoot := chr_eq c0 "/"%char in
      match dirname_scan (rev tl) true with
      | None => if hasRoot then str "/" else str "."
      | Some r =>
          match r with
          | [] => if hasRoot then str "//" else [c0]
          | _ => c0 :: rev r
          end
      end
  end.

(** [extname]: Node's backwards scan, variable for variable. *)
Record ext_state := {
  startDot : option nat;
  startPart : nat;
  ext_end : option nat;
  matchedSlash : bool;
  preDotState : Z
}.

Definition ext_init : ext_state :=
  {| startDot := None; startPart := 0; ext_end := None;
     matchedSlash := true; preDotState := 0 |}.

(** [rp] holds the characters at indices [i-1, i-2, .., 0]. *)
Fixpoint extname_scan (rp : jsstring) (i : nat) (st : ext_state) : ext_state :=
  match rp, i with
  | c :: r, S j =>
      if chr_eq c "/"%char then
        if negb (matchedSlash st)
        then {| startDot := startDot st; startPart := S j; ext_end := ext_end st;
                matchedSlash := matchedSlash st; preDotState := preDotState st |}
        else extname_scan r j st
      else
        let st1 :=
          match ext_end st with
          | None => {| startDot := startDot st; startPart := startPart st;
                       ext_end := Some (S j); matchedSlash := false;
                       preDotState := preDotState st |}
          | Some _ => st
          end in
        let st2 :=
          if chr_eq c "."%char then
            match startDot st1 with
            | None => {| startDot := Some j; startPart := startPart st1;
                         ext_end := ext_end st1; matchedSlash := matchedSlash st1;
                         preDotState := preDotState st1 |}
            | Some _ =>
                {| startDot := startDot st1; startPart := startPart st1;
                   ext_end := ext_end st1; matchedSlash := matchedSlash st1;
                   preDotState := 1 |}
            end
          else
            match startDot st1 with
            | Some _ => {| startDot := startDot st1; startPart := startPart st1;
                           ext_end := ext_end st1; matchedSlash := matchedSlash st1;
                           preDotState := (-1) |}
            | None => st1
            end in
        extname_scan r j st2
  | _, _ => st
  end.

Definition slice (s : jsstring) (a b : nat) : jsstring :=
  firstn (b - a) (skipn a s).

Definition extname (p : jsstring) : jsstring :=
  let st := extname_scan (rev p) (length p) ext_init in
  match startDot st, ext_end st with
  | Some sd, Some e =>
      if (preDotState st =? 0)%Z
         || ((preDotState st =? 1)%Z && (sd =? e - 1) && (sd =? startPart st + 1))
      then []
      else slice p sd e
  | _, _ => []
  end.

(** [relative], on the segments of the two resolved paths. *)
Fixpoint strip_common (a b : list jsstring) : list jsstring * list jsstring :=
  match a, b with
  | x :: a', y :: b' => if jseqb x y then strip_common a' b' else (a, b)
  | _, _ => (a, b)
  end.

Definition segments (p : jsstring) : list jsstring :=
  filter (fun s => negb (jseqb s [])) (split_slash p).

Definition relative (cwd from to : jsstring) : jsstring :=
  if jseqb from to then []
  else
    let from' := resolve cwd [from] in
    let to' := resolve cwd [to] in
    if jseqb from' to' then []
    else
      let '(up, down) := strip_common (segments from') (segments to') in
      join_slash (map (fun _ => str "..") up ++ down).

End Path.

(* ===================================================================== *)
(** * Regular expressions

    A backtracking matcher in continuation style, which is how ECMAScript
    defines pattern matching: alternatives are tried left to right, a greedy
    quantifier tries one more iteration before it tries to stop, a lazy one
    the other way round, and an iteration that consumes nothing is
    rejected. *)
(* ===================================================================== *)

Module RegExp.

Inductive regex :=
| Empty
| Chr (p : ascii -> bool)            (* a character, a class, or [.] *)
| Seq (a b : regex)
| Alt (a b : regex)
| Star (greedy : bool) (a : regex)
| Group (n : nat) (a : regex)        (* capturing parentheses number [n] *)
| Backref (n : nat)
| Bol                                (* [^] without the [m] flag *)
| Eol.                               (* [$] without the [m] flag *)

Record mstate := {
  pos : nat;                         (* index of the next character *)
  rest : jsstring;                   (* input from [pos] on *)
  caps : list (nat * jsstring)       (* captures, most recent first *)
}.

Fixpoint cap_get (n : nat) (cs : list (nat * jsstring)) : option jsstring :=
  match cs with
  | [] => None
  | (k, v) :: cs' => if k =? n then Some v else cap_get n cs'
  end.

(** Consume the text [t], comparing up to case when [icase]. *)
Fixpoint eat (icase : bool) (t : jsstring) (s : jsstring) : option jsstring :=
  match t, s with
  | [], _ => Some s
  | _ :: _, [] => None
  | a :: t', b :: s' =>
      if (if icase then chr_eq (upper a) (upper b) else chr_eq a b)
      then eat icase t' s' else None
  end.

Definition orelse {A} (x y : option A) : option A :=
  match x with Some _ => x | None => y end.

(** The loop of a quantified sub-pattern [a], given the matcher [ma] of
    [a]: at most [n] further iterations, each of which has to consume
    input. *)
Definition star_loop (ma : (mstate -> option mstate) -> mstate -> option mstate)
           (greedy : bool) (k : mstate -> option mstate)
  : nat -> mstate -> option mstate :=
  fix loop (n : nat) (s : mstate) {struct n} : option mstate :=
    match n with
    | O => k s
    | S n' =>
        let again :=
          ma (fun s' => if length (rest s') <? length (rest s)
                        then loop n' s' else None) s in
        if greedy then orelse again (k s) else orelse (k s) again
    end.

Fixpoint m (icase : bool) (r : regex) (k : mstate -> option mstate)
         (s : mstate) {struct r} : option mstate :=
  match r with
  | Empty => k s
  | Chr p =>
      match rest s with
      | c :: tl =>
          if p c then k {| pos := S (pos s); rest := tl; caps := caps s |}
          else None
      | [] => None
      end
  | Seq a b => m icase a (m icase b k) s
  | Alt a b => orelse (m icase a k s) (m icase b k s)
  | Star greedy a => star_loop (m icase a) greedy k (S (length (rest s))) s
  | Group n a =>
      m icase a
        (fun s' =>
           k {| pos := pos s'; rest := rest s';
                caps := (n, firstn (length (rest s) - length (rest s')) (rest s))
                          :: caps s' |}) s
  | Backref n =>
      match cap_get n (caps s) with
      | None => k s
      | Some t =>
          match eat icase t (rest s) with
          | Some tl => k {| pos := pos s + length t; rest := tl; caps := caps s |}
          | None => None
          end
      end
  | Bol => if pos s =? 0 then k s else None
  | Eol => match rest s with [] => k s | _ => None end
  end.

(** A RegExp object: pattern and the [i] flag. *)
Record t := { pattern : regex; ignoreCase : bool }.

(** The result of a successful [exec]. *)
Record found := {
  f_skipped : jsstring;              (* input between the search start and the match *)
  f_index : nat;
  f_text : jsstring;                 (* the match, [$&] *)
  f_after : jsstring;                (* input after the match *)
  f_caps : list (nat * jsstring)
}.

(** Try the pattern at [pos], then at [pos + 1], ... *)
Fixpoint search (re : t) (skipped_rev : jsstring) (pos : nat) (input : jsstring)
  : option found :=
  match m (ignoreCase re) (pattern re) Some
          {| pos := pos; rest := input; caps := [] |} with
  | Some s' =>
      Some {| f_skipped := rev skipped_rev; f_index := pos;
              f_text := firstn (length input - length (rest s')) input;
              f_after := rest s'; f_caps := caps s' |}
  | None =>
      match input with
      | [] => None
      | c :: input' => search re (c :: skipped_rev) (S pos) input'
      end
  end.

Definition exec (re : t) (s : jsstring) : option found := search re [] 0 s.

Definition test (re : t) (s : jsstring) : bool :=
  match exec re s with Some _ => true | None => false end.

(** ** Pattern builders *)

Definition chr (c : ascii) : regex := Chr (chr_eq c).
Definition chr_i (c : ascii) : regex := Chr (fun x => chr_eq (upper x) (upper c)).

Fixpoint lit (s : jsstring) : regex :=
  match s with
  | [] => Empty
  | [c] => chr c
  | c :: s' => Seq (chr c) (lit s')
  end.

Fixpoint lit_i (s : jsstring) : regex :=
  match s with
  | [] => Empty
  | [c] => chr_i c
  | c :: s' => Seq (chr_i c) (lit_i s')
  end.

Definition space : regex := Chr is_space.                         (* \s *)
Definition any : regex :=                                         (* .  *)
  Chr (fun c => negb (chr_eq c LF || chr_eq c CR)).
Definition opt (a : regex) : regex := Alt a Empty.                (* a? *)
Definition plus (a : regex) : regex := Seq a (Star true a).       (* a+ *)
Definition seqs (l : list regex) : regex := fold_right Seq Empty l.

(** ** [String.prototype.replace] *)

Definition is_digit (c : ascii) : bool := ((48 <=? code c) && (code c <=? 57))%N.
Definition digit_val (c : ascii) : nat := N.to_nat (code c - 48).

Definition capture (n : nat) (f : found) : jsstring :=
  match cap_get n (f_caps f) with Some t => t | None => [] end.

(** GetSubstitution: expand [$$], [$&], [$`], [$'], [$n] and [$nn] in a
    replacement text; [ngroups] is the number of capturing groups of the
    pattern and [before] the input in front of the match. *)
Fixpoint substitute (ngroups : nat) (before : jsstring) (f : found)
         (template : jsstring) : jsstring :=
  match template with
  | [] => []
  | c :: t1 =>
      if negb (chr_eq c "$"%char) then c :: substitute ngroups before f t1
      else
        match t1 with
        | [] => [c]
        | d :: t2 =>
            if chr_eq d "$"%char then d :: substitute ngroups before f t2
            else if chr_eq d "&"%char then f_text f ++ substitute ngroups before f t2
            else if chr_eq d "`"%char then before ++ substitute ngroups before f t2
            else if chr_eq d "'"%char then f_after f ++ substitute ngroups before f t2
            else if is_digit d then
              let one := digit_val d in
              match t2 with
              | e :: t3 =>
                  if is_digit e
                     && (1 <=? 10 * one + digit_val e)
                     && (10 * one + digit_val e <=? ngroups)
                  then capture (10 * one + digit_val e) f
                         ++ substitute ngroups before f t3
                  else if (1 <=? one) && (one <=? ngroups)
                  then capture one f ++ substitute ngroups before f t2
                  else c :: d :: substitute ngroups before f t2
              | [] =>
                  if (1 <=? one) && (one <=? ngroups)
                  then capture one f ++ substitute ngroups before f t2
                  else c :: d :: substitute ngroups before f t2
              end
            else c :: substitute ngroups before f t1
        end
  end.

(** [s.replace(re, template)] for a RegExp without the [g] flag. *)
Definition replace_first (re : t) (ngroups : nat) (s template : jsstring)
  : jsstring :=
  match exec re s with
  | None => s
  | Some f =>
      f_skipped f ++ substitute ngroups (f_skipped f) f template ++ f_after f
  end.

(** [s.replace(re, callback)] for a RegExp with the [g] flag: matches are
    collected left to right, the search resuming after each match (one
    character further after an empty match). *)
Fixpoint replace_all_from (fuel : nat) (re : t) (callback : found -> jsstring)
         (pos : nat) (input : jsstring) : jsstring :=
  match fuel with
  | O => input
  | S fuel' =>
      match search re [] pos input with
      | None => input
      | Some f =>
          f_skipped f ++ callback f ++
          match f_text f, f_after f with
          | [], c :: after' =>
              c :: replace_all_from fuel' re callback (S (f_index f)) after'
          | [], [] => []
          | _ :: _, after =>
              replace_all_from fuel' re callback
                               (f_index f + length (f_text f)) after
          end
      end
  end.

Definition replace_all (re : t) (callback : found -> jsstring) (s : jsstring)
  : jsstring :=
  replace_all_from (S (length s)) re callback 0 s.

End RegExp.

(* ===================================================================== *)
(** * Ordinary objects used as records

    Only string keys are modelled.  The own property keys of an ordinary
    object are enumerated with the array indices first, in ascending
    numeric order, and then the other strings in the order of their
    creation; [for..in], [Object.values] and [Object.keys] all follow it. *)
(* ===================================================================== *)

Module JsObject.

(** Properties in creation order. *)
Definition t (V : Type) := list (jsstring * V).

Definition empty {V} : t V := [].

(** [o[k] = v] *)
Definition set {V} (k : jsstring) (v : V) (o : t V) : t V := JsMap.set k v o.

(** [o[k]] *)
Definition get {V} (k : jsstring) (o : t V) : option V := JsMap.get k o.

(** [k in o], for keys that [Object.prototype] does not define. *)
Definition has {V} (k : jsstring) (o : t V) : bool := JsMap.has k o.

Definition digits_value (s : jsstring) : N :=
  fold_left (fun a c => (a * 10 + (code c - 48))%N) s 0%N.

(** The canonical decimal strings of the integers 0 .. 2^32 - 2. *)
Definition array_index (k : jsstring) : option N :=
  match k with
  | [] => None
  | c :: r =>
      if forallb RegExp.is_digit k
         && (negb (chr_eq c "0"%char) || match r with [] => true | _ => false end)
         && (digits_value k <? 4294967295)%N
      then Some (digits_value k) else None
  end.

Fixpoint insert_sorted {V} (i : N) (e : jsstring * V)
         (l : list (N * (jsstring * V))) : list (N * (jsstring * V)) :=
  match l with
  | [] => [(i, e)]
  | (j, e') :: l' =>
      if (i <? j)%N then (i, e) :: l else (j, e') :: insert_sorted i e l'
  end.

Fixpoint index_entries {V} (o : t V) : list (N * (jsstring * V)) :=
  match o with
  | [] => []
  | (k, v) :: o' =>
      match array_index k with
      | Some i => insert_sorted i (k, v) (index_entries o')
      | None => index_entries o'
      end
  end.

Definition is_index (k : jsstring) : bool :=
  match array_index k with Some _ => true | None => false end.

(** Own enumerable properties in enumeration order. *)
Definition entries {V} (o : t V) : list (jsstring * V) :=
  map snd (index_entries o) ++ filter (fun e => negb (is_index (fst e))) o.

Definition keys {V} (o : t V) : list jsstring := map fst (entries o).
Definition values {V} (o : t V) : list V := map snd (entries o).

End JsObject.

(* ===================================================================== *)
(** * What the two engine files share

    [IInjectionHook], [isMatch], [getCommentSyntax], the id test and the
    injection-marker pattern read the same in both files. *)
(* ===================================================================== *)

Module Hooks.

(** A value found where a matcher is expected: a RegExp (by its [test]
    method), a function, a hook (whose own matcher is then consulted), or
    anything else. *)
Inductive tester :=
| TRegExp (test : jsstring -> bool)
| TFunction (f : jsstring -> bool)
| THook (h : hook)
| TOther                             (* [undefined] and the like *)
with hook :=
| Hook (path : jsstring) (matcher : option tester) (content : unit -> jsstring).

Definition filePath (h : hook) : jsstring := let 'Hook p _ _ := h in p.
Definition isMatch_of (h : hook) : option tester := let 'Hook _ t _ := h in t.
Definition getContent (h : hook) : unit -> jsstring := let 'Hook _ _ c := h in c.

Fixpoint isMatch (tester : tester) (path : jsstring) : bool :=
  match tester with
  | TRegExp test => test path
  | TFunction f => f path
  | THook (Hook _ (Some t) _) => isMatch t path
  | THook (Hook _ None _) => false
  | TOther => false
  end.

Record comment_syntax := { c_start : jsstring; c_end : jsstring }.

Definition includes (l : list jsstring) (x : jsstring) : bool :=
  existsb (jseqb x) l.

Definition getCommentSyntax (filePath : jsstring) : comment_syntax :=
  let extension := toLowerCase (Path.extname filePath) in
  if includes [str ".scss"; str ".css"; str ".ts"; str ".tsx"; str ".js"; str ".jsx"]
              extension
  then {| c_start := str "//"; c_end := [] |}
  else if includes [str ".html"; str ".htm"] extension
  then {| c_start := str "<!--"; c_end := str "-->" |}
  else if includes [str ".yaml"; str ".yml"; str ".toml"] extension
  then {| c_start := str "#"; c_end := [] |}
  else {| c_start := str "/*"; c_end := str "*/" |}.

Import RegExp.

(** [/^\s*@InjectionHooks_ts:/i] *)
Definition __INJECTIONHOOKS_REGEX : RegExp.t :=
  {| pattern := seqs [Bol; Star true space; lit_i (str "@InjectionHooks_ts:")];
     ignoreCase := true |}.

(** [/\s*[^:\s@]:(\/\/)?/i] *)
Definition URL_SCHEME_REGEX : RegExp.t :=
  {| pattern :=
       seqs [Star true space;
             Chr (fun c => negb (chr_eq c ":"%char || is_space c || chr_eq c "@"%char));
             chr ":"%char;
             opt (Group 1 (Seq (chr "/"%char) (chr "/"%char)))];
     ignoreCase := true |}.

(** [new RegExp(INJECTION_BLOCK_REGEX.replace(placeholder,
    _EscapeRegExp(cmt_start)), 'i')], that is
    [(\n|^)\s*] cmt_start [\s*\{generate\-global\-css\-vars\.ts[^\n]+(\n|$)]
    with [cmt_start] taken literally, which is what the escaping is for.
    The pattern has two capturing groups. *)
Definition INJECTION_BLOCK_REGEX (cmt_start : jsstring) : RegExp.t :=
  {| pattern :=
       seqs [Group 1 (Alt (chr LF) Bol);
             Star true space;
             lit_i cmt_start;
             Star true space;
             lit_i (str "{generate-global-css-vars.ts");
             plus (Chr (fun c => negb (chr_eq c LF)));
             Group 2 (Alt (chr LF) Eol)];
     ignoreCase := true |}.

Definition START_LABEL := str "[START INJECTION]: generate-global-css-vars.ts:".
Definition END_LABEL := str "[END INJECTION]: generate-global-css-vars.ts.".

(** [`\n${x.start}[START INJECTION]: generate-global-css-vars.ts:${x.end}\n`] *)
Definition startComment (x : comment_syntax) : jsstring :=
  LF :: c_start x ++ START_LABEL ++ c_end x ++ [LF].

Definition endComment (x : comment_syntax) : jsstring :=
  LF :: c_start x ++ END_LABEL ++ c_end x ++ [LF].

(** [`\n${startComment}\n${hook.getContent()}\n${endComment}\n`] *)
Definition injection_template (x : comment_syntax) (content : jsstring) : jsstring :=
  LF :: startComment x ++ LF :: content ++ LF :: endComment x ++ [LF].

(** [importer && ...]: [undefined] and [''] are falsy. *)
Definition truthy (s : option jsstring) : bool :=
  match s with Some (_ :: _) => true | _ => false end.

Definition or_empty (s : option jsstring) : jsstring :=
  match s with Some x => x | None => [] end.

(** The value of [resolveId]: [{ id, meta: { vite: { injectedLoader } } }]. *)
Record resolved := { id : jsstring; injectedLoader : jsstring }.

(** How [load] ends; [LoadThrew] is [readFileSync] failing. *)
Inductive load_result :=
| LoadNull
| LoadString (code : jsstring)
| LoadThrew.

(** The hooks argument of [FileInjectionHooks]. *)
Inductive hooks_arg :=
| HArray (l : list hook)
| HRecord (o : JsObject.t hook).

End Hooks.

(* ===================================================================== *)
(** * The simpler engine (src/unnamed/part_000) *)
(* ===================================================================== *)

Module Simple.
Import Hooks.

Definition __VIRTUAL_ID_PREFIX : jsstring := str "@InjectionHooks_ts:".

Definition GEN_ID (f : jsstring) : jsstring :=
  __VIRTUAL_ID_PREFIX ++ backslash_to_slash (Path.normalize f).

Definition fasterSimpleResolveAbsolutePath (cwd source : jsstring)
           (importer : option jsstring) : option jsstring :=
  let normalizedSource := backslash_to_slash (Path.normalize source) in
  if Path.isAbsolute normalizedSource then Some normalizedSource
  else if RegExp.test URL_SCHEME_REGEX normalizedSource then None
  else if startsWith (str "@") normalizedSource
          && negb (startsWith (str "./") normalizedSource)
          && negb (startsWith (str "../") normalizedSource)
  then None
  else if negb (startsWith (str ".") normalizedSource)
          && negb (Path.isAbsolute normalizedSource)
          && truthy importer
  then None
  else if truthy importer
          && (startsWith (str "./") normalizedSource
              || startsWith (str "../") normalizedSource
              || startsWith (str "file://") normalizedSource)
  then
    let importerDir := Path.dirname (or_empty importer) in
    let fullPath := Path.resolve cwd [importerDir; normalizedSource] in
    Some (backslash_to_slash (Path.normalize fullPath))
  else None.

(** The [reduce] of the array branch. *)
Definition normalize_hooks (hooks : hooks_arg) : JsObject.t hook :=
  match hooks with
  | HArray l =>
      fold_left (fun acumulador atual =>
                   JsObject.set (GEN_ID (filePath atual)) atual acumulador)
                l JsObject.empty
  | HRecord o => o
  end.

Definition resolveId (cwd : jsstring) (hooks : JsObject.t hook)
           (source : jsstring) (importer : option jsstring) : option resolved :=
  match fasterSimpleResolveAbsolutePath
          cwd (backslash_to_slash (Path.normalize source)) importer with
  | None => None
  | Some [] => None
  | Some normalizedSource =>
      match find (fun e => isMatch (THook (snd e)) normalizedSource)
                 (JsObject.entries hooks) with
      | Some (_, h) =>
          Some {| id := GEN_ID (filePath h);
                  injectedLoader := tl (Path.extname normalizedSource) |}
      | None => None
      end
  end.

Definition load (fs : jsstring -> option jsstring) (hooks : JsObject.t hook)
           (id : jsstring) : load_result :=
  if negb (RegExp.test __INJECTIONHOOKS_REGEX id) then LoadNull
  else
    match JsObject.get id hooks with
    | Some h =>
        match fs (filePath h) with
        | None => LoadThrew
        | Some originalCode =>
            let commentSyntax := getCommentSyntax (filePath h) in
            let REGEX := INJECTION_BLOCK_REGEX (c_start commentSyntax) in
            LoadString
              (RegExp.replace_first REGEX 2 originalCode
                 (injection_template commentSyntax (getContent h tt)))
        end
    | None => LoadNull
    end.

Definition FileInjectionHooks_resolveId cwd (hooks : hooks_arg) :=
  resolveId cwd (normalize_hooks hooks).

Definition FileInjectionHooks_load fs (hooks : hooks_arg) :=
  load fs (normalize_hooks hooks).

End Simple.

(* ===================================================================== *)
(** * The engine with import rewriting (src/unnamed/part_001) *)
(* ===================================================================== *)

Module Canonical.
Import Hooks.
Import RegExp.

(** ['@InjectionHooks_ts:'.toLocaleLowerCase()] *)
Definition __VIRTUAL_ID_PREFIX : jsstring := toLowerCase (str "@InjectionHooks_ts:").

(** [/(^|\n)\s*(\.{1,2}(\/|\\)|[^\s\.\/\\])/] *)
Definition REGEX_START_RELATIVE_PATH : RegExp.t :=
  {| pattern :=
       seqs [Group 1 (Alt Bol (chr LF));
             Star true space;
             Group 2
               (Alt (seqs [chr "."%char; opt (chr "."%char);
                           Group 3 (Alt (chr "/"%char) (chr "\"%char))])
                    (Chr (fun c => negb (is_space c || chr_eq c "."%char
                                         || chr_eq c "/"%char || chr_eq c "\"%char))))];
     ignoreCase := false |}.

(** [/(?:@use|@import)\s+(Q)(\.\.?\/.*?)\1/gi], where the class [Q] is
    the double quote or the single quote. *)
Definition RELATIVE_IMPORT_REGEX : RegExp.t :=
  {| pattern :=
       seqs [Alt (lit_i (str "@use")) (lit_i (str "@import"));
             plus space;
             Group 1 (Alt (chr DQUOTE) (chr "'"%char));
             Group 2 (seqs [chr "."%char; opt (chr "."%char); chr "/"%char;
                            Star false any]);
             Backref 1];
     ignoreCase := true |}.

(** The second parameter of [GEN_ID], [boolean | number]. *)
Inductive id_flag :=
| FBool (b : bool)
| FNum (n : Z).

Definition is_true (w : id_flag) : bool :=
  match w with FBool true => true | _ => false end.

Definition is_one (w : id_flag) : bool :=
  match w with FNum 1 => true | _ => false end.

(** A string plus a boolean is the string followed by ["true"] or
    ["false"]. *)
Definition string_of_bool (b : bool) : jsstring :=
  if b then str "true" else str "false".

Definition nonempty (s : jsstring) : bool :=
  match s with [] => false | _ => true end.

(** The condition of the conditional expression is the whole
    parenthesised sum, a string, which is truthy when it is not empty. *)
Definition GEN_ID (cwd f : jsstring) (withID_OrAbsolute : id_flag) : jsstring :=
  let absolutePath := Path.resolve cwd [cwd; f] in
  let relativePath := Path.relative cwd cwd absolutePath in
  if nonempty ((if is_true withID_OrAbsolute then __VIRTUAL_ID_PREFIX else [])
               ++ string_of_bool (is_one withID_OrAbsolute))
  then backslash_to_slash absolutePath
  else backslash_to_slash (Path.normalize relativePath).

(** [string | Number] *)
Inductive resolution :=
| RPath (p : jsstring)
| RCode (n : Z).

Definition fasterSimpleResolveAbsolutePath (cwd source : jsstring)
           (importer : option jsstring) : resolution :=
  let normalizedSource := backslash_to_slash (Path.normalize source) in
  if Path.isAbsolute normalizedSource then RPath normalizedSource
  else if test URL_SCHEME_REGEX normalizedSource then RCode (-1)
  else if startsWith (str "@") normalizedSource
          && negb (startsWith (str "./") normalizedSource)
          && negb (startsWith (str "../") normalizedSource)
  then RCode (-2)
  else if truthy importer
          && negb (test REGEX_START_RELATIVE_PATH source)
          && negb (test REGEX_START_RELATIVE_PATH source)
          && negb (Path.isAbsolute normalizedSource)
          && negb (Path.isAbsolute source)
  then RCode (-3)
  else if truthy importer
          && (test REGEX_START_RELATIVE_PATH source
              || test REGEX_START_RELATIVE_PATH normalizedSource)
  then
    let importerDir := Path.dirname (or_empty importer) in
    let fullPath := Path.resolve cwd [importerDir; normalizedSource] in
    RPath (backslash_to_slash (Path.normalize fullPath))
  else RCode (-4).

Definition normalize_hooks (cwd : jsstring) (hooks : hooks_arg) : JsObject.t hook :=
  match hooks with
  | HArray l =>
      fold_left (fun acumulador atual =>
                   JsObject.set (GEN_ID cwd (filePath atual) (FBool true)) atual
                                acumulador)
                l JsObject.empty
  | HRecord o => o
  end.

Definition effectiveImporter (cwd : jsstring) (normalizedHooks : JsObject.t hook)
           (importer : option jsstring) : option jsstring :=
  if truthy importer && test __INJECTIONHOOKS_REGEX (or_empty importer) then
    match find (fun h => jseqb (Path.normalize (GEN_ID cwd (filePath h) (FBool true)))
                               (Path.normalize (or_empty importer)))
               (JsObject.values normalizedHooks) with
    | Some hookMatch => Some (filePath hookMatch)
    | None => importer
    end
  else importer.

Definition resolveId (cwd : jsstring) (normalizedHooks : JsObject.t hook)
           (source : jsstring) (importer : option jsstring) : option resolved :=
  match fasterSimpleResolveAbsolutePath
          cwd (backslash_to_slash (Path.normalize source))
          (effectiveImporter cwd normalizedHooks importer) with
  | RCode _ => None
  | RPath normalizedSource =>
      match find (fun e => isMatch (THook (snd e)) normalizedSource)
                 (JsObject.entries normalizedHooks) with
      | Some (_, h) =>
          Some {| id := GEN_ID cwd (filePath h) (FBool true);
                  injectedLoader := tl (Path.extname normalizedSource) |}
      | None => None
      end
  end.

(** The callback of the second [replace]: [(match, quote, relativePath)]. *)
Definition rewrite_import (cwd : jsstring) (h : hook) (f : found) : jsstring :=
  let matched := f_text f in
  let relativePath := capture 2 f in
  match fasterSimpleResolveAbsolutePath cwd relativePath (Some (filePath h)) with
  | RPath absolutePath =>
      (if startsWith (str "@use") matched then str "@use" else str "@import")
        ++ str " '" ++ GEN_ID cwd absolutePath (FNum 1) ++ str "'"
  | RCode _ => matched
  end.

Definition rewrite_imports (cwd : jsstring) (h : hook) (code : jsstring) : jsstring :=
  replace_all RELATIVE_IMPORT_REGEX (rewrite_import cwd h) code.

(** The first [replace] of [load]. *)
Definition inject (h : hook) (originalCode : jsstring) : jsstring :=
  let x := getCommentSyntax (filePath h) in
  replace_first (INJECTION_BLOCK_REGEX (c_start x)) 2 originalCode
                (injection_template x (getContent h tt)).

Definition load (cwd : jsstring) (fs : jsstring -> option jsstring)
           (normalizedHooks : JsObject.t hook) (id : jsstring) : load_result :=
  if negb (test __INJECTIONHOOKS_REGEX id) then LoadNull
  else
    match JsObject.get id normalizedHooks with
    | Some h =>
        match fs (filePath h) with
        | None => LoadThrew
        | Some originalCode =>
            LoadString (rewrite_imports cwd h (inject h originalCode))
        end
    | None => LoadNull
    end.

Definition FileInjectionHooks_resolveId cwd (hooks : hooks_arg) :=
  resolveId cwd (normalize_hooks cwd hooks).

Definition FileInjectionHooks_load cwd fs (hooks : hooks_arg) :=
  load cwd fs (normalize_hooks cwd hooks).

End Canonical.

(* ===================================================================== *)
(** * src/scripts/base.ts: the preset alphabets and their converters *)
(* ===================================================================== *)

Module Presets.
Import Base.

Definition BASE32_ALPHABET : jsstring := str "ABCDEFGHIJKLMNOPQRSTUVWXYZ234567".

Definition BASE62_ALPHABET : jsstring :=
  str "0123456789ABCDEFGHIJKLMNOPQRSTUVWXYZabcdefghijklmnopqrstuvwxyz".

Definition BASE64_URLSAFE_ALPHABET : jsstring :=
  str "ABCDEFGHIJKLMNOPQRSTUVWXYZabcdefghijklmnopqrstuvwxyz0123456789-_".

(** The characters that the Base96-like alphabet leaves out: the double
    quote, then the rest of the template literal of the source. *)
Definition BASE96_EXCLUDED : jsstring := DQUOTE :: str "'\<>?%#&+@=`".

(** The loop [for (let i = 33; i <= 126; i++)]: the characters that the
    excluded text does not include are pushed, then joined. *)
Definition BASE96_URLSAFE_ALPHABET : jsstring :=
  filter (fun ch => negb (existsb (chr_eq ch) BASE96_EXCLUDED))
         (map ascii_of_nat (seq 33 94)).

(** A parameter with the default value [BASE10_ALPHABET]; [None] is the
    omitted argument. *)
Definition or_decimal (symbols : option alphabet_arg) : alphabet_arg :=
  match symbols with
  | Some a => a
  | None => AString BASE10_ALPHABET
  end.

Definition convertToBase32 (fuel : nat) (value : jsstring)
           (fromBaseSymbols : option alphabet_arg) : result :=
  convertBase fuel value (or_decimal fromBaseSymbols) (AString BASE32_ALPHABET).

Definition convertFromBase32 (fuel : nat) (value : jsstring)
           (toBaseSymbols : option alphabet_arg) : result :=
  convertBase fuel value (AString BASE32_ALPHABET) (or_decimal toBaseSymbols).

Definition convertToBase62 (fuel : nat) (value : jsstring)
           (fromBaseSymbols : option alphabet_arg) : result :=
  convertBase fuel value (or_decimal fromBaseSymbols) (AString BASE62_ALPHABET).

Definition convertFromBase62 (fuel : nat) (value : jsstring)
           (toBaseSymbols : option alphabet_arg) : result :=
  convertBase fuel value (AString BASE62_ALPHABET) (or_decimal toBaseSymbols).

Definition convertToBase64Url (fuel : nat) (value : jsstring)
           (fromBaseSymbols : option alphabet_arg) : result :=
  convertBase fuel value (or_decimal fromBaseSymbols)
              (AString BASE64_URLSAFE_ALPHABET).

Definition convertFromBase64Url (fuel : nat) (value : jsstring)
           (toBaseSymbols : option alphabet_arg) : result :=
  convertBase fuel value (AString BASE64_URLSAFE_ALPHABET)
              (or_decimal toBaseSymbols).

Definition convertToBase96 (fuel : nat) (value : jsstring)
           (fromBaseSymbols : option alphabet_arg) : result :=
  convertBase fuel value (or_decimal fromBaseSymbols)
              (AString BASE96_URLSAFE_ALPHABET).

Definition convertFromBase96 (fuel : nat) (value : jsstring)
           (toBaseSymbols : option alphabet_arg) : result :=
  convertBase fuel value (AString BASE96_URLSAFE_ALPHABET)
              (or_decimal toBaseSymbols).

End Presets.

(* ===================================================================== *)
(** * More of the JavaScript runtime: string methods, [matchAll],
      [path.join] and the file system *)
(* ===================================================================== *)

Module Js.
Import RegExp.

(** [s.endsWith(suffix)] *)
Definition endsWith (suffix s : jsstring) : bool :=
  startsWith (rev suffix) (rev s).

(** [s.matchAll(re)] for a RegExp with the [g] flag, as the list that
    iterating it yields: the matches from left to right, the search
    resuming after each match (one character further after an empty
    match). *)
Fixpoint matchAll_from (fuel : nat) (re : t) (pos : nat) (input : jsstring)
  : list found :=
  match fuel with
  | O => []
  | S fuel' =>
      match search re [] pos input with
      | None => []
      | Some f =>
          f :: match f_text f, f_after f with
               | [], c :: after' => matchAll_from fuel' re (S (f_index f)) after'
               | [], [] => []
               | _ :: _, after =>
                   matchAll_from fuel' re (f_index f + length (f_text f)) after
               end
      end
  end.

Definition matchAll (re : t) (s : jsstring) : list found :=
  matchAll_from (S (length s)) re 0 s.

(** [s.replace(re, template)] for a RegExp with the [g] flag and a
    replacement text: each match is replaced by the expansion of the
    text, in which the input in front of the match is that of the whole
    string. *)
Definition replace_all_template (re : t) (ngroups : nat) (s template : jsstring)
  : jsstring :=
  replace_all re (fun f => substitute ngroups (firstn (f_index f) s) f template) s.

(** The syntax characters of a pattern text. *)
Definition SYNTAX_CHARACTERS : jsstring := str "^$\.*+?()[]{}|".

Definition is_syntax (c : ascii) : bool := existsb (chr_eq c) SYNTAX_CHARACTERS.

(** The text that a pattern text denotes when it is made of ordinary
    characters and of syntax characters escaped by a backslash (an
    escaped syntax character stands for itself).  Pattern texts of
    another form are not covered; they give [None]. *)
Fixpoint literal_source (source : jsstring) : option jsstring :=
  match source with
  | [] => Some []
  | c :: r =>
      if chr_eq c "\"%char then
        match r with
        | d :: r' =>
            if is_syntax d then option_map (cons d) (literal_source r') else None
        | [] => None
        end
      else if is_syntax c then None
      else option_map (cons c) (literal_source r)
  end.

(** [new RegExp(source, 'i')] for such a pattern text. *)
Definition RegExp_i (source : jsstring) : option RegExp.t :=
  option_map (fun text => {| pattern := lit_i text; ignoreCase := true |})
             (literal_source source).

(** [path.join]: the non-empty arguments joined by [/], normalized. *)
Definition path_join (args : list jsstring) : jsstring :=
  match filter (fun a => negb (jseqb a [])) args with
  | [] => str "."
  | l => Path.normalize (Path.join_slash l)
  end.

(** The file system as the hooks read it.  [None] is a call that
    throws. *)
Record filesystem := {
  existsSync : jsstring -> bool;
  readdirSync : jsstring -> option (list jsstring);
  readFileSync : jsstring -> option jsstring
}.

(** A [Set] of strings: its elements in insertion order. *)
Definition set_add (x : jsstring) (l : list jsstring) : list jsstring :=
  if existsb (jseqb x) l then l else l ++ [x].

End Js.

(* ===================================================================== *)
(** * [_EscapeRegExp] (src/unnamed/part_001 and part_000) and the matchers
      of the two hook files *)
(* ===================================================================== *)

Module HookFiles.
Import RegExp.

(** The class [[.*+?^${}()|[\]\\]]. *)
Definition REGEXP_SPECIAL : jsstring := str ".*+?^${}()|[]\".

(** [string.replace(/[.*+?^${}()|[\]\\]/g, '\\$&')] *)
Definition _EscapeRegExp (s : jsstring) : jsstring :=
  Js.replace_all_template
    {| pattern := Chr (fun c => existsb (chr_eq c) REGEXP_SPECIAL);
       ignoreCase := false |}
    0 s (str "\$&").

(** src/unnamed/part_002 *)
Definition MAIN_VARS_FILE_PATH : jsstring := str "src/scss/global/_variables.scss".

(** [new RegExp(_EscapeRegExp(MAIN_VARS_FILE_PATH), 'i')]: the source
    text of the pattern is the path with its dots escaped, so the pattern
    is the path taken literally. *)
Definition TARGET_REGEX : RegExp.t :=
  {| pattern := lit_i MAIN_VARS_FILE_PATH; ignoreCase := true |}.

(** src/unnamed/part_003: the matcher of [config_scss],
    [/\/src\/scss\/global\/_?config\.scss$/i]. *)
Definition CONFIG_MATCH_REGEX : RegExp.t :=
  {| pattern :=
       seqs [lit_i (str "/src/scss/global/");
             opt (chr_i "_"%char);
             lit_i (str "config.scss");
             Eol];
     ignoreCase := true |}.

End HookFiles.

(* ===================================================================== *)
(** * The short ids of theme variables

    [generateUniqueThemeId] reads the same in src/unnamed/part_003 and in
    src/scripts/generate-global-css-vars.ts.  Its two module-level
    variables are the [state] here, passed in and out of every call. *)
(* ===================================================================== *)

Module ThemeIds.
Import Base Presets.

Definition digit_char (d : nat) : ascii := ascii_of_nat (48 + d).

(** [n.toString()] for a non-negative integer [n]: its decimal numeral
    (the numbers that print in another form, from 10^21 on, are out of
    the reach of a counter).  The digits are produced from the last one;
    a numeral has fewer digits than its value, which bounds the loop. *)
Fixpoint toString_loop (fuel n : nat) (acc : jsstring) : jsstring :=
  let acc' := digit_char (n mod 10) :: acc in
  match fuel with
  | O => acc'
  | S fuel' => if n <? 10 then acc' else toString_loop fuel' (n / 10) acc'
  end.

Definition toString (n : nat) : jsstring := toString_loop n n [].

(** A stored id is what [convertToBase32] returned: [Returned s] is the
    string [s], [ReturnedUndefined] is [undefined]. *)
Record state := {
  generatedIds : JsMap.t result;
  counter : nat
}.

Definition initial : state := {| generatedIds := []; counter := 0 |}.

(** The result of a call and the state after it.  A call of
    [convertToBase32] that throws leaves the state as it was.  The
    division loop of the converter is given as many iterations as the
    value of the counter, which a numeral of that value never needs
    all. *)
Definition generateUniqueThemeId (varName : jsstring) (s : state)
  : result * state :=
  match JsMap.get varName (generatedIds s) with
  | Some id => (id, s)
  | None =>
      let newId := convertToBase32 (counter s) (toString (counter s))
                                   (Some (AString BASE10_ALPHABET)) in
      match newId with
      | Returned _ | ReturnedUndefined =>
          (newId, {| generatedIds := JsMap.set varName newId (generatedIds s);
                     counter := S (counter s) |})
      | _ => (newId, s)
      end
  end.

(** ** [generateConfigContent] of src/unnamed/part_003 *)

Definition SKINS_DIR_ROOT : jsstring := str "./src/scss/global/skins/".
Definition DEFAULT_VARS_FILE_PATH : jsstring :=
  str "./src/scss/global/_variables.default.scss".
Definition CONFIG_FILE_PATH : jsstring := str "./src/scss/global/_config.scss".

Definition is_quote (c : ascii) : bool := chr_eq c "'"%char || chr_eq c DQUOTE.

(** [/(Q)(.*?)\1\s*:/g], where the class [Q] is the single quote or the
    double quote. *)
Definition VARIABLE_NAME_REGEX : RegExp.t :=
  {| RegExp.pattern :=
       RegExp.seqs [RegExp.Group 1 (RegExp.Chr is_quote);
                    RegExp.Group 2 (RegExp.Star false RegExp.any);
                    RegExp.Backref 1;
                    RegExp.Star true RegExp.space;
                    RegExp.chr ":"%char];
     RegExp.ignoreCase := false |}.

(** How a function that reads files ends. *)
Inductive outcome (A : Type) :=
| Ok (a : A)
| Threw.
Arguments Ok {A} a.
Arguments Threw {A}.

(** [extractVarsFromFile]: of every match, capture 1 is added to the
    set.  The condition [match && match] holds for every match. *)
Definition extractVarsFromFile (fs : Js.filesystem) (filePath : jsstring)
           (allUniqueVariableNames : list jsstring) : outcome (list jsstring) :=
  if Js.existsSync fs filePath then
    match Js.readFileSync fs filePath with
    | None => Threw
    | Some content =>
        Ok (fold_left (fun names m => Js.set_add (RegExp.capture 1 m) names)
                      (Js.matchAll VARIABLE_NAME_REGEX content)
                      allUniqueVariableNames)
    end
  else Ok allUniqueVariableNames.

(** [skinFiles.forEach((file) => ...)] *)
Fixpoint extract_skins (fs : Js.filesystem) (absoluteSkinsDir : jsstring)
         (skinFiles : list jsstring) (names : list jsstring)
  : outcome (list jsstring) :=
  match skinFiles with
  | [] => Ok names
  | file :: skinFiles' =>
      let fullPath := Js.path_join [absoluteSkinsDir; file] in
      match extractVarsFromFile fs fullPath names with
      | Ok names' => extract_skins fs absoluteSkinsDir skinFiles' names'
      | Threw => Threw
      end
  end.

(** A value inside a template literal. *)
Definition text_of (r : result) : jsstring :=
  match r with
  | Returned s => s
  | _ => str "undefined"
  end.

(** [allUniqueVariableNames.forEach((name) => ...)]: the text grows by
    one line for each name.  A call of [generateUniqueThemeId] that does
    not return ends the loop. *)
Fixpoint append_entries (names : list jsstring) (autoVarMapSassString : jsstring)
         (s : state) : outcome jsstring * state :=
  match names with
  | [] => (Ok autoVarMapSassString, s)
  | name :: names' =>
      match generateUniqueThemeId name s with
      | ((Returned _ | ReturnedUndefined) as id, s1) =>
          append_entries names'
            (autoVarMapSassString
               ++ DQUOTE :: name ++ DQUOTE :: str ": " ++ DQUOTE :: text_of id
               ++ DQUOTE :: str "," ++ [LF])
            s1
      | (_, s1) => (Threw, s1)
      end
  end.

Definition generateConfigContent (cwd : jsstring) (fs : Js.filesystem) (s : state)
  : outcome jsstring * state :=
  let absoluteSkinsDir := Path.resolve cwd [cwd; SKINS_DIR_ROOT] in
  let absoluteDefaultVarsPath := Path.resolve cwd [cwd; DEFAULT_VARS_FILE_PATH] in
  if negb (Js.existsSync fs absoluteSkinsDir)
  then (Ok (str "$__AUTO_VAR_MAP__: ();"), s)
  else
    match Js.readdirSync fs absoluteSkinsDir with
    | None => (Threw, s)
    | Some files =>
        let skinFiles :=
          filter (fun f => Js.endsWith (str ".scss") f && startsWith (str "_") f)
                 files in
        match extractVarsFromFile fs absoluteDefaultVarsPath [] with
        | Threw => (Threw, s)
        | Ok names0 =>
            match extract_skins fs absoluteSkinsDir skinFiles names0 with
            | Threw => (Threw, s)
            | Ok allUniqueVariableNames =>
                match append_entries allUniqueVariableNames
                                     (str "$__AUTO_VAR_MAP__: (") s with
                | (Ok autoVarMapSassString, _) =>
                    (Ok (autoVarMapSassString ++ str ");"), initial)
                | (Threw, s1) => (Threw, s1)
                end
            end
        end
    end.

End ThemeIds.

(* ===================================================================== *)
(** * Vocabulary of the statements *)
(* ===================================================================== *)

Module BaseSpec.
Import Base.

(** The symbols of an alphabet argument. *)
Definition symbols (a : alphabet_arg) : list jsstring :=
  match normalizeBase a with Some l => l | None => [] end.

(** An alphabet of unique symbols, each a single character. *)
Definition alphabet (a : alphabet_arg) : Prop :=
  normalizeBase a <> None
  /\ NoDup (symbols a)
  /\ Forall (fun s => length s = 1) (symbols a).

(** A string or a list without duplicates: what the checks of
    [convertBase] accept. *)
Definition accepted (a : alphabet_arg) : Prop :=
  normalizeBase a <> None /\ NoDup (symbols a).

Definition composed_of (a : alphabet_arg) (v : jsstring) : Prop :=
  Forall (fun c => In [c] (symbols a)) v.

Definition zero_symbol (a : alphabet_arg) : jsstring := hd [] (symbols a).

Fixpoint strip_leading (z : jsstring) (v : jsstring) : jsstring :=
  match v with
  | c :: v' => if jseqb [c] z then strip_leading z v' else v
  | [] => []
  end.

(** [v] without its leading zero symbols; the zero symbol itself when
    nothing else is left. *)
Definition normalized (a : alphabet_arg) (v : jsstring) : jsstring :=
  match strip_leading (zero_symbol a) v with
  | [] => zero_symbol a
  | w => w
  end.

(** [v] denotes zero: it consists of zero symbols only. *)
Definition denotes_zero (a : alphabet_arg) (v : jsstring) : Prop :=
  strip_leading (zero_symbol a) v = [].

(** The round-trip law for one value: both conversions return, and the
    second returns [v] normalized. *)
Definition round_trip (a b : alphabet_arg) (v : jsstring) : Prop :=
  exists fuel w,
    convertBase fuel v a b = Returned w
    /\ convertBase fuel w b a = Returned (normalized a v).

(** Position of a symbol in an alphabet. *)
Fixpoint index_of (k : jsstring) (syms : list jsstring) : option nat :=
  match syms with
  | [] => None
  | s :: r => if jsstring_dec k s then Some 0 else option_map S (index_of k r)
  end.

(** The digits of a numeral, its value, and the rendering of digits. *)
Definition digits (syms : list jsstring) (v : jsstring) : list nat :=
  map (fun c => match index_of [c] syms with Some i => i | None => 0 end) v.

Definition val (base : Z) (ds : list nat) (acc : Z) : Z :=
  fold_left (fun a d => (a * base + Z.of_nat d)%Z) ds acc.

Definition render (syms : list jsstring) (ds : list nat) : jsstring :=
  concat (map (fun d => nth d syms []) ds).

Fixpoint strip0 (ds : list nat) : list nat :=
  match ds with
  | 0 :: ds' => strip0 ds'
  | _ => ds
  end.

(** Digits below the base, the first one not zero. *)
Definition canonical (n : nat) (ds : list nat) : Prop :=
  Forall (fun d => d < n) ds /\ (forall d ds', ds = d :: ds' -> d <> 0).

End BaseSpec.

(* ===================================================================== *)
(** * Derived forms of the matcher, used to reason about its runs *)
(* ===================================================================== *)

Module MatcherSpec.
Import RegExp.

Abbreviation st p r c := {| pos := p; rest := r; caps := c |}.

(** A greedy star over a character class tries the longest run first. *)
Fixpoint greedy_run (p : ascii -> bool) (k : mstate -> option mstate)
         (ps : nat) (r : jsstring) (c : list (nat * jsstring)) : option mstate :=
  match r with
  | x :: tl => if p x then orelse (greedy_run p k (S ps) tl c) (k (st ps r c))
               else k (st ps r c)
  | [] => k (st ps r c)
  end.

(** A lazy star over a character class tries to stop first. *)
Fixpoint lazy_run (p : ascii -> bool) (k : mstate -> option mstate)
         (ps : nat) (r : jsstring) (c : list (nat * jsstring)) : option mstate :=
  orelse (k (st ps r c))
         match r with
         | x :: tl => if p x then lazy_run p k (S ps) tl c else None
         | [] => None
         end.

(** Patterns without [^]. *)
Fixpoint bol_free (r : regex) : bool :=
  match r with
  | Bol => false
  | Seq a b | Alt a b => bol_free a && bol_free b
  | Star _ a | Group _ a => bol_free a
  | _ => true
  end.

(** [s] without its leading characters in the class [p]. *)
Fixpoint skip_while (p : ascii -> bool) (s : jsstring) : jsstring :=
  match s with
  | c :: s' => if p c then skip_while p s' else s
  | [] => []
  end.

(** A matcher state and a search result without their positions. *)
Definition forget_pos (s : mstate) : mstate := st 0 (rest s) (caps s).

Definition forget_index (f : found) : found :=
  {| f_skipped := f_skipped f; f_index := 0; f_text := f_text f;
     f_after := f_after f; f_caps := f_caps f |}.

(** Two continuations that answer alike on states that differ in their
    positions only. *)
Definition same_answers (k k' : mstate -> option mstate) : Prop :=
  forall t t', forget_pos t = forget_pos t' ->
               option_map forget_pos (k t) = option_map forget_pos (k' t').

(** Equality of strings up to the case of the letters a-z. *)
Definition same_upto_case (a b : jsstring) : Prop := map upper a = map upper b.

End MatcherSpec.

(* ===================================================================== *)
(** * Vocabulary of the statements about the engines *)
(* ===================================================================== *)

Module EngineSpec.
Import Hooks.

Definition PREFIX_TEXT : jsstring := str "@InjectionHooks_ts:".

(** An id carries the prefix: optional white space, then the prefix in
    any letter case. *)
Definition carries_prefix (id : jsstring) : Prop :=
  exists ws p tail,
    id = ws ++ p ++ tail
    /\ Forall (fun c => is_space c = true) ws
    /\ MatcherSpec.same_upto_case p (str "@InjectionHooks_ts:").

(** The block that replaces the marker: blank line, start marker line,
    blank line, content, blank line, end marker line, blank line. *)
Definition injection_block (x : comment_syntax) (content : jsstring) : jsstring :=
  [LF; LF] ++ c_start x ++ START_LABEL ++ c_end x
    ++ [LF; LF] ++ content
    ++ [LF; LF] ++ c_start x ++ END_LABEL ++ c_end x ++ [LF; LF].

(** A text free of the character that introduces replacement patterns. *)
Definition dollar_free (s : jsstring) : Prop :=
  Forall (fun c => c <> "$"%char) s.

(** The refinement that the design note states: every result of the
    simpler engine is a result of the other one on the same input. *)
Definition simple_refines_canonical : Prop :=
  forall (cwd : jsstring) (fs : jsstring -> option jsstring) (hooks : hooks_arg)
         (source : jsstring) (importer : option jsstring) (id : jsstring),
    (forall r, Simple.FileInjectionHooks_resolveId cwd hooks source importer = Some r ->
               Canonical.FileInjectionHooks_resolveId cwd hooks source importer = Some r)
    /\ (forall code, Simple.FileInjectionHooks_load fs hooks id = LoadString code ->
                     Canonical.FileInjectionHooks_load cwd fs hooks id = LoadString code).

(** The first entry of a list that a test accepts. *)
Definition first_accepted {A} (accept : A -> bool) (l : list A) (x : A) : Prop :=
  exists before after,
    l = before ++ x :: after
    /\ Forall (fun y => accept y = false) before
    /\ accept x = true.

(** No match of the pattern begins inside [pre] when [pre] is followed
    by [rest]. *)
Definition no_match_begins (re : RegExp.t) (pre rest : jsstring) : Prop :=
  forall p1 c p2 pos,
    pre = p1 ++ c :: p2 ->
    RegExp.m (RegExp.ignoreCase re) (RegExp.pattern re) Some
             {| RegExp.pos := pos; RegExp.rest := c :: p2 ++ rest; RegExp.caps := [] |}
    = None.

(** A relative [@use] / [@import] statement: key word, white space,
    quote, path, the same quote. *)
Definition statement (kw ws : jsstring) (q : ascii) (path : jsstring) : jsstring :=
  kw ++ ws ++ q :: path ++ [q].

(** The part of the statement pattern after the key word and the white
    space. *)
Definition QUOTED : RegExp.regex :=
  RegExp.seqs
    [RegExp.Group 1 (RegExp.Alt (RegExp.chr DQUOTE) (RegExp.chr "'"%char));
     RegExp.Group 2
       (RegExp.seqs [RegExp.chr "."%char; RegExp.opt (RegExp.chr "."%char);
                     RegExp.chr "/"%char; RegExp.Star false RegExp.any]);
     RegExp.Backref 1].

(** The class of [.]. *)
Definition any_class : ascii -> bool :=
  fun c => negb (chr_eq c LF || chr_eq c CR).

End EngineSpec.

Module PathSpec.

Definition no_slash (s : jsstring) : Prop :=
  Forall (fun c => chr_eq c "/"%char = false) s.

(** A segment that [normalizeString] keeps: not empty, without [/]. *)
Definition proper (s : jsstring) : Prop := s <> [] /\ no_slash s.

End PathSpec.

(* ===================================================================== *)
(** * Proof steps used more than once *)
(* ===================================================================== *)

(** Case analysis on the conditions of a chain of conditionals in [H],
    dropping the cases in which [H] equates different constructors. *)
Ltac split_ifs_in H :=
  repeat match type of H with
         | (if ?c then _ else _) = _ => destruct c eqn:?; try discriminate
         end.

(** A character given bit by bit: closes or refutes a goal by evaluation. *)
Ltac by_cases_on_char x :=
  destruct x as [[] [] [] [] [] [] [] []]; vm_compute; congruence.

(* ===================================================================== *)
(** * Vocabulary of the statements about numerals *)
(* ===================================================================== *)

Module NumeralSpec.
Import Base BaseSpec.

(** The number that the numeral [v] denotes in the alphabet [a]. *)
Definition value (a : alphabet_arg) (v : jsstring) : Z :=
  val (Z.of_nat (length (symbols a))) (digits (symbols a) v) 0.

Definition decimal : alphabet_arg := AString BASE10_ALPHABET.

End NumeralSpec.

Module ThemeIdsSpec.
Import Base ThemeIds.

(** A run of calls of [generateUniqueThemeId], one for each name, in
    order: the results and the state after the last call. *)
Fixpoint calls (names : list jsstring) (s : state) : list result * state :=
  match names with
  | [] => ([], s)
  | n :: names' =>
      let '(r, s1) := generateUniqueThemeId n s in
      let '(rs, s2) := calls names' s1 in
      (r :: rs, s2)
  end.

(** The id that the counter value [k] gives. *)
Definition id_of (k : nat) : result :=
  Presets.convertToBase32 k (toString k) (Some (AString BASE10_ALPHABET)).

(** The states that calls produce: the ids of the map are those of the
    counter values 0, 1, ... in the order of insertion, and no name is
    stored twice. *)
Definition well_formed (s : state) : Prop :=
  map snd (generatedIds s) = map id_of (seq 0 (counter s))
  /\ NoDup (map fst (generatedIds s)).

(** One line of the generated map. *)
Definition entry_line (name id : jsstring) : jsstring :=
  DQUOTE :: name ++ DQUOTE :: str ": " ++ DQUOTE :: id ++ DQUOTE :: str "," ++ [LF].

End ThemeIdsSpec.

Module RegistrySpec.

(** The [reduce] of the array branch of [FileInjectionHooks], for any
    way [g] of making the key of an item. *)
Definition keyed {V : Type} (g : V -> jsstring) (l : list V) (acc : JsObject.t V)
  : JsObject.t V :=
  fold_left (fun acumulador atual => JsObject.set (g atual) atual acumulador) l acc.

(** A name without a separator that does not begin with a dot. *)
Definition plain_name (name : jsstring) : Prop :=
  match name with
  | c :: _ => c <> "."%char
              /\ Forall (fun x => x <> "/"%char /\ x <> "\"%char) name
  | [] => False
  end.

(** A plain name that does not begin with white space or [@] and has no
    colon. *)
Definition ordinary_name (name : jsstring) : Prop :=
  plain_name name
  /\ Forall (fun x => x <> ":"%char) name
  /\ match name with
     | c :: _ => c <> "@"%char /\ is_space c = false
     | [] => False
     end.

End RegistrySpec.

Module PolicySpec.

(** The class [[^:\s@]] of the pattern for foreign schemes. *)
Definition scheme_char (c : ascii) : bool :=
  negb (chr_eq c ":"%char || is_space c || chr_eq c "@"%char).

(** A colon that directly follows a character of that class. *)
Definition has_scheme (s : jsstring) : Prop :=
  exists pre c post, s = pre ++ c :: ":"%char :: post /\ scheme_char c = true.

End PolicySpec.

Module HookSpec.

(** The RegExp of one character class, without flags. *)
Definition class_regex (sp : ascii -> bool) : RegExp.t :=
  {| RegExp.pattern := RegExp.Chr sp; RegExp.ignoreCase := false |}.

(** What [_EscapeRegExp] makes of one character. *)
Definition escaped (c : ascii) : jsstring :=
  if existsb (chr_eq c) HookFiles.REGEXP_SPECIAL then ["\"%char; c] else [c].

(** [s] has a part that is [t] up to the case of letters. *)
Definition contains_upto_case (t s : jsstring) : Prop :=
  exists pre u post, s = pre ++ u ++ post /\ MatcherSpec.same_upto_case u t.

(** [s] ends with [t] up to the case of letters. *)
Definition ends_upto_case (t s : jsstring) : Prop :=
  exists pre u, s = pre ++ u /\ MatcherSpec.same_upto_case u t.

End HookSpec.

Module ConfigSpec.
Import RegExp.

(** The numbers of the capturing groups of a pattern. *)
Fixpoint group_ids (r : regex) : list nat :=
  match r with
  | Group n a => n :: group_ids a
  | Seq a b | Alt a b => group_ids a ++ group_ids b
  | Star _ a => group_ids a
  | _ => []
  end.

(** A name that is one quote character. *)
Definition quote_name (n : jsstring) : Prop := n = str "'" \/ n = [DQUOTE].

(** The generated map with the given lines. *)
Definition auto_var_map (lines : jsstring) : jsstring :=
  str "$__AUTO_VAR_MAP__: (" ++ lines ++ str ");".

End ConfigSpec.

(* ===================================================================== *)
(** * Theorems *)
(* ===================================================================== *)

(* ===================================================================== *)
(** * Facts about the runtime model *)
(* ===================================================================== *)

Lemma jseqb_true a b : jseqb a b = true <-> a = b.
Proof. unfold jseqb; destruct (jsstring_dec a b); split; congruence. Qed.

Lemma jseqb_false a b : jseqb a b = false <-> a <> b.
Proof. unfold jseqb; destruct (jsstring_dec a b); split; congruence. Qed.

Lemma jseqb_refl a : jseqb a a = true.
Proof. now apply jseqb_true. Qed.

Section MapFacts.
Context {V : Type}.
Implicit Types (m : JsMap.t V) (k : jsstring) (v : V).

Lemma get_set_same k v m : JsMap.get k (JsMap.set k v m) = Some v.
Proof.
  induction m as [|[k' v'] m IH]; simpl.
  - destruct (jsstring_dec k k); congruence.
  - destruct (jsstring_dec k k') as [->|Hne]; simpl.
    + destruct (jsstring_dec k' k'); congruence.
    + destruct (jsstring_dec k k'); congruence.
Qed.

Lemma get_set_other k k' v m :
  k <> k' -> JsMap.get k (JsMap.set k' v m) = JsMap.get k m.
Proof.
  intros Hne. induction m as [|[k2 v2] m IH]; simpl.
  - destruct (jsstring_dec k k'); congruence.
  - destruct (jsstring_dec k' k2) as [->|Hne2]; simpl.
    + destruct (jsstring_dec k k2); congruence.
    + destruct (jsstring_dec k k2); congruence.
Qed.
End MapFacts.

(* ===================================================================== *)
(** * The base converter *)
(* ===================================================================== *)

Section BaseFacts.
Import Base BaseSpec.

Lemma nodup_length_le (l : list jsstring) :
  length (nodup jsstring_dec l) <= length l.
Proof.
  induction l as [|a l IH]; simpl; [lia|].
  destruct (in_dec jsstring_dec a l); simpl; lia.
Qed.

Lemma hasDuplicates_false (l : list jsstring) :
  hasDuplicates l = false <-> NoDup l.
Proof.
  unfold hasDuplicates. rewrite negb_false_iff, Nat.eqb_eq. split.
  - induction l as [|a l IH]; simpl; intros H; [constructor|].
    destruct (in_dec jsstring_dec a l) as [Hin|Hnin].
    + pose proof (nodup_length_le l). lia.
    + constructor; [assumption|]. apply IH. simpl in H. lia.
  - intros H. now rewrite (nodup_fixed_point jsstring_dec H).
Qed.

Lemma hasDuplicates_true (l : list jsstring) :
  hasDuplicates l = true <-> ~ NoDup l.
Proof.
  rewrite <- hasDuplicates_false. destruct (hasDuplicates l); split; congruence.
Qed.

Lemma index_of_In k syms : In k syms <-> exists i, index_of k syms = Some i.
Proof.
  induction syms as [|s r IH]; simpl.
  - split; [tauto|intros [i H]; discriminate].
  - destruct (jsstring_dec k s) as [->|Hne].
    + split; eauto.
    + rewrite IH. split.
      * intros [H|[i H]]; [congruence|]. rewrite H. simpl. eauto.
      * intros [i H]. right. destruct (index_of k r); [eauto|discriminate].
Qed.

Lemma index_of_nth k syms i :
  index_of k syms = Some i -> nth_error syms i = Some k.
Proof.
  revert i. induction syms as [|s r IH]; simpl; intros i H; [discriminate|].
  destruct (jsstring_dec k s) as [->|Hne].
  - injection H as <-. reflexivity.
  - destruct (index_of k r) as [j|]; [|discriminate].
    injection H as <-. simpl. now apply IH.
Qed.

Lemma nth_index_of syms i k :
  NoDup syms -> nth_error syms i = Some k -> index_of k syms = Some i.
Proof.
  intros Hnd. revert i. induction Hnd as [|s r Hnin Hnd IH]; intros i H.
  - destruct i; discriminate.
  - simpl. destruct i as [|i]; simpl in H.
    + injection H as ->. destruct (jsstring_dec k k); congruence.
    + destruct (jsstring_dec k s) as [->|Hne].
      * exfalso. apply Hnin. eapply nth_error_In; eauto.
      * now rewrite (IH _ H).
Qed.

Lemma index_of_lt k syms i : index_of k syms = Some i -> i < length syms.
Proof.
  intros H. apply index_of_nth in H. apply nth_error_Some. congruence.
Qed.

(** The map built from the symbols sends each symbol to its position. *)
Lemma get_entries_from k syms : forall i m,
  NoDup syms ->
  JsMap.get k (fold_left (fun m e => JsMap.set (fst e) (snd e) m)
                         (entries_from i syms) m)
  = match index_of k syms with
    | Some j => Some (i + j)
    | None => JsMap.get k m
    end.
Proof.
  induction syms as [|s r IH]; intros i m Hnd; simpl; [reflexivity|].
  inversion Hnd as [|? ? Hnin Hnd']; subst.
  rewrite IH by assumption.
  destruct (jsstring_dec k s) as [->|Hne].
  - destruct (index_of s r) as [j|] eqn:E.
    + exfalso. apply Hnin. apply index_of_In. eauto.
    + rewrite get_set_same. f_equal. lia.
  - destruct (index_of k r) as [j|]; simpl.
    + f_equal. lia.
    + now apply get_set_other.
Qed.

Lemma get_fromMap k syms :
  NoDup syms -> JsMap.get k (fromMap_of syms) = index_of k syms.
Proof.
  intros Hnd. unfold fromMap_of, JsMap.of_entries.
  rewrite get_entries_from by assumption.
  destruct (index_of k syms); reflexivity.
Qed.

Lemma validate_true syms v :
  NoDup syms ->
  (validate (fromMap_of syms) v = true <-> Forall (fun c => In [c] syms) v).
Proof.
  intros Hnd. unfold validate. rewrite forallb_forall, Forall_forall.
  split; intros H c Hc; specialize (H c Hc).
  - unfold JsMap.has in H. rewrite get_fromMap in H by assumption.
    apply index_of_In. destruct (index_of [c] syms); [eauto|discriminate].
  - unfold JsMap.has. rewrite get_fromMap by assumption.
    apply index_of_In in H. destruct H as [i ->]. reflexivity.
Qed.

Lemma accumulate_val syms base v : forall acc,
  NoDup syms -> Forall (fun c => In [c] syms) v ->
  accumulate (fromMap_of syms) base v acc = Some (val base (digits syms v) acc).
Proof.
  induction v as [|c v IH]; intros acc Hnd Hv; simpl; [reflexivity|].
  inversion Hv as [|? ? Hc Hv']; subst.
  rewrite get_fromMap by assumption.
  apply index_of_In in Hc. destruct Hc as [i Hi]. rewrite Hi.
  now apply IH.
Qed.

Lemma accumulate_validated m base v : forall acc,
  validate m v = true -> accumulate m base v acc <> None.
Proof.
  induction v as [|c v IH]; intros acc H; simpl; [discriminate|].
  simpl in H. apply andb_true_iff in H. destruct H as [Hc Hv].
  unfold JsMap.has in Hc. destruct (JsMap.get [c] m); [|discriminate].
  now apply IH.
Qed.

Lemma toDigits_not_TypeError fuel syms base : forall num res,
  toDigits fuel syms base num res <> ThrewTypeError.
Proof.
  induction fuel as [|fuel IH]; intros num res; simpl.
  - destruct (num >? 0)%Z; discriminate.
  - destruct (num >? 0)%Z; [|discriminate].
    destruct (base =? 0)%Z; [discriminate|]. apply IH.
Qed.

Lemma toDigits_not_Error fuel syms base : forall num res,
  toDigits fuel syms base num res <> ThrewError.
Proof.
  induction fuel as [|fuel IH]; intros num res; simpl.
  - destruct (num >? 0)%Z; discriminate.
  - destruct (num >? 0)%Z; [|discriminate].
    destruct (base =? 0)%Z; [discriminate|]. apply IH.
Qed.

(** ** Values of digit lists *)

Lemma val_app base l1 l2 acc :
  val base (l1 ++ l2) acc = val base l2 (val base l1 acc).
Proof. unfold val. apply fold_left_app. Qed.

Lemma val_ge base l : forall acc,
  (1 <= base)%Z -> (1 <= acc)%Z -> (1 <= val base l acc)%Z.
Proof.
  induction l as [|d l IH]; intros acc Hb Ha; simpl; [assumption|].
  apply IH; [assumption|]. nia.
Qed.

Lemma val_nonneg base l : forall acc,
  (0 <= base)%Z -> (0 <= acc)%Z -> (0 <= val base l acc)%Z.
Proof.
  induction l as [|d l IH]; intros acc Hb Ha; simpl; [assumption|].
  apply IH; [assumption|]. nia.
Qed.

Lemma val_strip0 base ds : val base (strip0 ds) 0 = val base ds 0.
Proof.
  induction ds as [|d ds IH]; simpl; [reflexivity|].
  destruct d; [|reflexivity]. simpl. exact IH.
Qed.

Lemma canonical_pos n ds :
  canonical n ds -> ds <> [] -> (1 <= val (Z.of_nat n) ds 0)%Z.
Proof.
  intros [Hlt Hhd] Hne. destruct ds as [|d ds]; [congruence|].
  specialize (Hhd d ds eq_refl). inversion Hlt; subst.
  simpl. apply val_ge; lia.
Qed.

Lemma canonical_app_inv n l d :
  canonical n (l ++ [d]) -> canonical n l /\ d < n /\ (l = [] -> d <> 0).
Proof.
  intros [Hlt Hhd]. apply Forall_app in Hlt. destruct Hlt as [Hl Hd].
  inversion Hd; subst. repeat split; try assumption.
  - intros e l' ->. apply (Hhd e (l' ++ [d])). reflexivity.
  - intros ->. apply (Hhd d []). reflexivity.
Qed.

Lemma strip0_canonical n ds :
  Forall (fun d => d < n) ds -> canonical n (strip0 ds).
Proof.
  induction ds as [|d ds IH]; intros H.
  - split; [constructor|]. intros; discriminate.
  - inversion H; subst. destruct d; simpl.
    + now apply IH.
    + split; [assumption|]. intros e l' E. injection E as <- <-. lia.
Qed.

(** Every number has canonical digits in a base of at least two. *)
Lemma canonical_exists n : 2 <= n -> forall num, (0 <= num)%Z ->
  exists ds, canonical n ds /\ val (Z.of_nat n) ds 0 = num.
Proof.
  intros Hn num Hnum. pattern num.
  apply (Zlt_0_ind (fun num => exists ds,
           canonical n ds /\ val (Z.of_nat n) ds 0 = num)); [|assumption].
  clear num Hnum. intros num IH Hnum.
  destruct (Z.eq_dec num 0) as [->|Hne].
  - exists []. split; [split; [constructor|intros; discriminate]|reflexivity].
  - assert (Hq : (0 <= num / Z.of_nat n < num)%Z).
    { split; [apply Z.div_pos; lia|apply Z.div_lt; lia]. }
    destruct (IH _ Hq) as [dq [[Hlt Hhd] Hval]].
    pose proof (Z.mod_pos_bound num (Z.of_nat n) ltac:(lia)) as Hm.
    exists (dq ++ [Z.to_nat (num mod Z.of_nat n)]). split.
    + split.
      * apply Forall_app. split; [assumption|]. constructor; [lia|constructor].
      * intros d ds' E. destruct dq as [|e dq'].
        -- simpl in E. injection E as <- <-. simpl in Hval.
           symmetry in Hval. apply Z.div_small_iff in Hval; [|lia].
           rewrite Z.mod_small by lia. lia.
        -- simpl in E. injection E as <- <-. now apply (Hhd e dq').
    + rewrite val_app, Hval. simpl. rewrite Z2Nat.id by lia.
      pose proof (Z.div_mod num (Z.of_nat n) ltac:(lia)). lia.
Qed.

(** The division loop prints canonical digits. *)
Lemma toDigits_canonical syms ds :
  canonical (length syms) ds ->
  forall fuel res, length ds <= fuel ->
    toDigits fuel syms (Z.of_nat (length syms))
             (val (Z.of_nat (length syms)) ds 0) res
    = Returned (render syms ds ++ res).
Proof.
  induction ds as [|d l IH] using rev_ind; intros Hc fuel res Hfuel.
  - destruct fuel; reflexivity.
  - pose proof (canonical_pos _ _ Hc ltac:(now destruct l)) as Hpos.
    apply canonical_app_inv in Hc. destruct Hc as [Hl [Hd Hz]].
    rewrite length_app in Hfuel. simpl in Hfuel.
    destruct fuel as [|fuel]; [lia|].
    rewrite val_app in *. simpl in *.
    set (b := Z.of_nat (length syms)) in *.
    set (q := val b l 0) in *.
    assert (Hq : (0 <= q)%Z) by (apply val_nonneg; lia).
    replace (q * b + Z.of_nat d >? 0)%Z with true by (symmetry; apply Z.gtb_lt; lia).
    replace (b =? 0)%Z with false by (symmetry; apply Z.eqb_neq; lia).
    rewrite Z.rem_mod_nonneg, Z.quot_div_nonneg by lia.
    replace ((q * b + Z.of_nat d) mod b)%Z with (Z.of_nat d).
    2:{ rewrite Z.add_comm, Z.mod_add by lia. rewrite Z.mod_small; lia. }
    replace ((q * b + Z.of_nat d) / b)%Z with q.
    2:{ rewrite Z.add_comm, Z.div_add by lia. rewrite Z.div_small; lia. }
    rewrite Nat2Z.id.
    destruct (nth_error syms d) as [sym|] eqn:E.
    2:{ apply nth_error_None in E. lia. }
    rewrite (IH Hl) by lia.
    unfold render. rewrite map_app, concat_app. simpl.
    rewrite (nth_error_nth _ _ _ E). now rewrite app_nil_r, <- app_assoc.
Qed.
End BaseFacts.

Section BaseRoundTrip.
Import Base BaseSpec.

Lemma convertBase_checked fuel v a b sa sb :
  normalizeBase a = Some sa -> normalizeBase b = Some sb ->
  NoDup sa -> NoDup sb -> Forall (fun c => In [c] sa) v ->
  convertBase fuel v a b =
    let num := val (Z.of_nat (length sa)) (digits sa v) 0 in
    if (num =? 0)%Z
    then match nth_error sb 0 with
         | Some s => Returned s
         | None => ReturnedUndefined
         end
    else toDigits fuel sb (Z.of_nat (length sb)) num [].
Proof.
  intros Ha Hb Hna Hnb Hv. unfold convertBase. rewrite Ha, Hb.
  rewrite (proj2 (hasDuplicates_false sa) Hna).
  rewrite (proj2 (hasDuplicates_false sb) Hnb).
  rewrite (proj2 (validate_true sa v Hna) Hv). simpl negb. cbv iota.
  rewrite accumulate_val by assumption. reflexivity.
Qed.

Lemma index_of_hd s r : index_of s (s :: r) = Some 0.
Proof. simpl. destruct (jsstring_dec s s); congruence. Qed.

Lemma digits_lt syms v :
  Forall (fun c => In [c] syms) v ->
  Forall (fun d => d < length syms) (digits syms v).
Proof.
  induction 1 as [|c v Hc Hv IH]; simpl; constructor; [|assumption].
  apply index_of_In in Hc. destruct Hc as [i Hi]. rewrite Hi.
  eapply index_of_lt; eauto.
Qed.

Lemma render_strip0 syms v :
  Forall (fun c => In [c] syms) v ->
  render syms (strip0 (digits syms v)) = strip_leading (hd [] syms) v.
Proof.
  induction 1 as [|c v Hc Hv IH]; simpl; [reflexivity|].
  apply index_of_In in Hc. destruct Hc as [i Hi]. rewrite Hi.
  pose proof (index_of_nth _ _ _ Hi) as Hnth.
  destruct i as [|i].
  - destruct syms as [|s r]; [discriminate|]. simpl in Hnth.
    injection Hnth as ->. simpl. rewrite jseqb_refl. exact IH.
  - replace (jseqb [c] (hd [] syms)) with false.
    + change (render syms (S i :: digits syms v))
        with (nth (S i) syms [] ++ render syms (digits syms v)).
      rewrite (nth_error_nth _ _ _ Hnth). simpl. f_equal.
      clear IH Hi Hnth. induction Hv as [|c' v' Hc' Hv' IH']; [reflexivity|].
      simpl. apply index_of_In in Hc'. destruct Hc' as [j Hj]. rewrite Hj.
      change (render syms (j :: digits syms v'))
        with (nth j syms [] ++ render syms (digits syms v')).
      rewrite (nth_error_nth _ _ _ (index_of_nth _ _ _ Hj)). simpl. now f_equal.
    + symmetry. apply jseqb_false. intros E.
      destruct syms as [|s r]; [discriminate|]. simpl in E. subst s.
      rewrite index_of_hd in Hi. discriminate.
Qed.

Lemma render_single syms ds :
  Forall (fun s => length s = 1) syms -> Forall (fun d => d < length syms) ds ->
  Forall (fun c => In [c] syms) (render syms ds).
Proof.
  intros Hs. induction 1 as [|d ds Hd Hds IH]; [constructor|].
  change (render syms (d :: ds)) with (nth d syms [] ++ render syms ds).
  apply Forall_app. split; [|assumption].
  destruct (nth_error syms d) as [s|] eqn:E.
  2:{ apply nth_error_None in E. lia. }
  rewrite (nth_error_nth _ _ _ E).
  pose proof (nth_error_In _ _ E) as Hin.
  rewrite Forall_forall in Hs. specialize (Hs _ Hin).
  destruct s as [|c [|? ?]]; try discriminate.
  constructor; [assumption|constructor].
Qed.

Lemma digits_render syms ds :
  NoDup syms -> Forall (fun s => length s = 1) syms ->
  Forall (fun d => d < length syms) ds ->
  digits syms (render syms ds) = ds.
Proof.
  intros Hnd Hs. induction 1 as [|d ds Hd Hds IH]; [reflexivity|].
  change (render syms (d :: ds)) with (nth d syms [] ++ render syms ds).
  destruct (nth_error syms d) as [s|] eqn:E.
  2:{ apply nth_error_None in E. lia. }
  rewrite (nth_error_nth _ _ _ E).
  pose proof (nth_error_In _ _ E) as Hin.
  rewrite Forall_forall in Hs. pose proof (Hs _ Hin) as Hlen.
  destruct s as [|c [|? ?]]; try discriminate.
  simpl. rewrite (nth_index_of _ _ _ Hnd E). now f_equal.
Qed.

Lemma render_nil_inv syms ds :
  Forall (fun s => length s = 1) syms -> Forall (fun d => d < length syms) ds ->
  render syms ds = [] -> ds = [].
Proof.
  intros Hs Hds H. destruct ds as [|d ds]; [reflexivity|exfalso].
  inversion Hds; subst.
  change (render syms (d :: ds)) with (nth d syms [] ++ render syms ds) in H.
  destruct (nth_error syms d) as [s|] eqn:E.
  2:{ apply nth_error_None in E. lia. }
  rewrite (nth_error_nth _ _ _ E) in H.
  rewrite Forall_forall in Hs. pose proof (Hs _ (nth_error_In _ _ E)).
  destruct s; simpl in *; discriminate.
Qed.

Lemma alphabet_inv a :
  alphabet a -> exists sa, normalizeBase a = Some sa /\ symbols a = sa
                           /\ NoDup sa /\ Forall (fun s => length s = 1) sa.
Proof.
  intros (Hn & Hd & Hs). unfold symbols in *.
  destruct (normalizeBase a) as [sa|]; [|congruence]. eauto.
Qed.

(** C1, amended: with at least one symbol in the source alphabet and at
    least two in the destination alphabet, converting a value and
    converting the result back gives the value without its leading zero
    symbols (the zero symbol itself when the value denotes zero), and a
    value that denotes zero converts to the first symbol of the
    destination alphabet.  Both calls return as soon as the loop is given
    enough iterations. *)
Theorem C1_round_trip (a b : alphabet_arg) (v : jsstring) :
  alphabet a -> alphabet b ->
  1 <= length (symbols a) -> 2 <= length (symbols b) ->
  composed_of a v ->
  exists n, forall fuel, n <= fuel ->
    exists w,
      convertBase fuel v a b = Returned w
      /\ convertBase fuel w b a = Returned (normalized a v)
      /\ (denotes_zero a v -> w = zero_symbol b).
Proof.
  intros Ha Hb Hla Hlb Hv.
  destruct (alphabet_inv a Ha) as (sa & Hna & Hsa & Hda & H1a).
  destruct (alphabet_inv b Hb) as (sb & Hnb & Hsb & Hdb & H1b).
  unfold composed_of, normalized, denotes_zero, zero_symbol in *.
  rewrite Hsa in *. rewrite Hsb in *. clear Hsa Hsb.
  set (na := Z.of_nat (length sa)). set (nb := Z.of_nat (length sb)).
  set (num := val na (digits sa v) 0).
  pose proof (digits_lt sa v Hv) as Hdl.
  pose proof (strip0_canonical _ _ Hdl) as Hcs.
  assert (Hnum : (0 <= num)%Z) by (apply val_nonneg; subst na; lia).
  destruct (canonical_exists (length sb) Hlb num Hnum) as (es & Hes & Hval).
  fold nb in Hval.
  exists (Nat.max (length es) (length (strip0 (digits sa v)))).
  intros fuel Hfuel.
  rewrite (convertBase_checked fuel v a b sa sb) by assumption.
  fold na. fold num. cbv zeta.
  destruct sb as [|b0 sb']; [simpl in Hlb; lia|].
  destruct sa as [|a0 sa']; [simpl in Hla; lia|].
  destruct (Z.eqb_spec num 0) as [Hz|Hnz].
  - (* the value denotes zero *)
    simpl nth_error. exists b0. split; [reflexivity|].
    assert (Hb0 : In b0 (b0 :: sb')) by now left.
    rewrite Forall_forall in H1b. pose proof (H1b _ Hb0) as Hlen.
    destruct b0 as [|c0 [|? ?]]; try discriminate.
    rewrite (convertBase_checked fuel [c0] b a (([c0]) :: sb') (a0 :: sa'));
      try assumption.
    2:{ constructor; [now left|constructor]. }
    unfold digits, map. rewrite index_of_hd.
    simpl. split; [|reflexivity].
    assert (Hs0 : strip0 (digits (a0 :: sa') v) = []).
    { destruct (list_eq_dec Nat.eq_dec (strip0 (digits (a0 :: sa') v)) [])
        as [|Hne]; [assumption|exfalso].
      pose proof (canonical_pos _ _ Hcs Hne) as Hp.
      rewrite val_strip0 in Hp. change (1 <= num)%Z in Hp. lia. }
    pose proof (render_strip0 _ _ Hv) as Hr. rewrite Hs0 in Hr.
    simpl in Hr. rewrite <- Hr. reflexivity.
  - (* a positive value *)
    assert (Hesne : es <> []).
    { intros ->. simpl in Hval. congruence. }
    rewrite <- Hval.
    rewrite (toDigits_canonical _ es Hes) by lia.
    rewrite app_nil_r. eexists. split; [reflexivity|].
    destruct Hes as [Hel Heh].
    pose proof (render_single _ _ H1b Hel) as Hw.
    rewrite (convertBase_checked fuel _ b a (b0 :: sb') (a0 :: sa'));
      try assumption.
    rewrite digits_render by assumption.
    fold nb. rewrite Hval. cbv zeta.
    destruct (Z.eqb_spec num 0) as [|_]; [congruence|].
    split.
    + unfold num. rewrite <- val_strip0.
      rewrite (toDigits_canonical _ _ Hcs) by lia.
      rewrite app_nil_r, render_strip0 by assumption.
      destruct (strip_leading (hd [] (a0 :: sa')) v) eqn:E; [|reflexivity].
      exfalso. rewrite <- render_strip0 in E by assumption.
      apply render_nil_inv in E; try assumption.
      * unfold num in Hnz. rewrite <- val_strip0, E in Hnz. now apply Hnz.
      * apply Hcs.
    + intros Hz. exfalso.
      rewrite <- render_strip0 in Hz by assumption.
      apply render_nil_inv in Hz; try assumption; [|apply Hcs].
      unfold num in Hnz. rewrite <- val_strip0, Hz in Hnz. now apply Hnz.
Qed.

Lemma toDigits_unary fuel : forall res,
  toDigits fuel [str "a"] 1 1 res = OutOfFuel.
Proof.
  induction fuel as [|fuel IH]; intros res; [reflexivity|].
  simpl. apply IH.
Qed.
End BaseRoundTrip.

Section BaseClaims.
Import Base BaseSpec.

(** The worked examples of the specification. *)
Example convertBase_FF_binary :
  convertBase 8 (str "FF") (AString BASE16) (AString (str "01"))
  = Returned (str "11111111").
Proof. reflexivity. Qed.

Example convertBase_255_hex :
  convertBase 2 (str "255") (AString BASE10_ALPHABET) (AString BASE16)
  = Returned (str "FF").
Proof. reflexivity. Qed.

Example convertBase_zero_binary :
  convertBase 0 (str "0") (AString BASE10_ALPHABET) (AString (str "01"))
  = Returned (str "0").
Proof. reflexivity. Qed.

Example convertBase_1010_decimal :
  convertBase 2 (str "1010") (AString (str "01")) (AString BASE10_ALPHABET)
  = Returned (str "10").
Proof. reflexivity. Qed.

Example convertBase_duplicate_symbol :
  convertBase 0 (str "1") (AString (str "aab")) (AString BASE10_ALPHABET) = ThrewError.
Proof. reflexivity. Qed.

Example convertBase_foreign_character :
  convertBase 0 (str "9") (AString (str "01")) (AString BASE10_ALPHABET) = ThrewError.
Proof. reflexivity. Qed.

Lemma alphabet_of_string (s : jsstring) :
  hasDuplicates (map (fun c => [c]) s) = false -> alphabet (AString s).
Proof.
  intros H. split; [discriminate|]. split.
  - now apply hasDuplicates_false.
  - unfold symbols. simpl. apply Forall_forall. intros x Hx.
    apply in_map_iff in Hx. destruct Hx as [c [<- _]]. reflexivity.
Qed.

Lemma accepted_of_string (s : jsstring) :
  hasDuplicates (map (fun c => [c]) s) = false -> accepted (AString s).
Proof.
  intros H. split; [discriminate|]. now apply hasDuplicates_false.
Qed.

Lemma toDigits_zero fuel syms base res :
  toDigits fuel syms base 0 res = Returned res.
Proof. destruct fuel; reflexivity. Qed.

Lemma accepted_of_array (l : list jsstring) :
  hasDuplicates l = false -> accepted (AArray l).
Proof.
  intros H. split; [discriminate|]. now apply hasDuplicates_false.
Qed.

(** C1, counterexample: four pairs of alphabets with unique symbols for
    which the round trip does not return the value.  With the one-symbol
    destination alphabet "a" the division loop does not exit on the value
    "1", whatever number of iterations it is given; with the empty
    destination alphabet the division is by zero; with the empty source
    alphabet the way back returns [undefined]; and a symbol of two
    characters, possible in a list, is not found again in the converted
    value. *)
Lemma C1_small_alphabets :
  (accepted (AString (str "01")) /\ accepted (AString (str "a"))
   /\ composed_of (AString (str "01")) (str "1")
   /\ ~ round_trip (AString (str "01")) (AString (str "a")) (str "1"))
  /\ (accepted (AString (str "01")) /\ accepted (AString [])
      /\ composed_of (AString (str "01")) (str "1")
      /\ ~ round_trip (AString (str "01")) (AString []) (str "1"))
  /\ (accepted (AString []) /\ accepted (AString (str "01"))
      /\ composed_of (AString []) []
      /\ ~ round_trip (AString []) (AString (str "01")) [])
  /\ (accepted (AArray [str "0"; str "1"]) /\ accepted (AArray [str "x"; str "yy"])
      /\ composed_of (AArray [str "0"; str "1"]) (str "1")
      /\ ~ round_trip (AArray [str "0"; str "1"]) (AArray [str "x"; str "yy"])
                       (str "1")).
Proof.
  repeat split;
    try (apply accepted_of_string; reflexivity);
    try (apply accepted_of_array; reflexivity);
    try (constructor; [right; now left|constructor]);
    try (now constructor).
  - intros (fuel & w & H & _).
    change (toDigits fuel [str "a"] 1 1 [] = Returned w) in H.
    rewrite toDigits_unary in H. discriminate.
  - intros (fuel & w & H & _). destruct fuel; discriminate H.
  - intros (fuel & w & H1 & H2).
    change (Returned (str "0") = Returned w) in H1. injection H1 as <-.
    discriminate H2.
  - intros (fuel & w & H1 & H2). destruct fuel as [|fuel]; [discriminate H1|].
    change (toDigits fuel [str "x"; str "yy"] 2 0 (str "yy") = Returned w) in H1.
    rewrite toDigits_zero in H1. injection H1 as <-.
    discriminate H2.
Qed.

Lemma C1_round_trip_witness :
  exists n, forall fuel, n <= fuel ->
    exists w,
      convertBase fuel (str "00255") (AString BASE10_ALPHABET) (AString BASE16)
        = Returned w
      /\ convertBase fuel w (AString BASE16) (AString BASE10_ALPHABET)
        = Returned (normalized (AString BASE10_ALPHABET) (str "00255"))
      /\ (denotes_zero (AString BASE10_ALPHABET) (str "00255")
          -> w = zero_symbol (AString BASE16)).
Proof.
  apply (C1_round_trip (AString BASE10_ALPHABET) (AString BASE16) (str "00255")).
  - apply alphabet_of_string. reflexivity.
  - apply alphabet_of_string. reflexivity.
  - simpl. lia.
  - simpl. lia.
  - unfold composed_of. simpl. repeat constructor; simpl; tauto.
Defined.

(** C7: [convertBase] throws a [TypeError] exactly when an alphabet
    argument is neither a string nor a list; with both of the right shape
    it throws an [Error] when the source or the destination alphabet has a
    duplicate symbol or when the value has a character that is not a
    symbol of the source alphabet; a call that throws returns nothing. *)
Theorem C7_errors (fuel : nat) (v : jsstring) (a b : alphabet_arg) :
  (convertBase fuel v a b = ThrewTypeError <-> a = AOther \/ b = AOther)
  /\ (a <> AOther -> b <> AOther ->
      ~ NoDup (symbols a) \/ ~ NoDup (symbols b)
      \/ Exists (fun c => ~ In [c] (symbols a)) v ->
      convertBase fuel v a b = ThrewError)
  /\ (convertBase fuel v a b = ThrewTypeError
      \/ convertBase fuel v a b = ThrewError ->
      convertBase fuel v a b <> ReturnedUndefined
      /\ forall s, convertBase fuel v a b <> Returned s).
Proof.
  split; [|split].
  - split.
    + intros H. destruct a as [sa|la|]; [| |now left];
        (destruct b as [sb|lb|]; [| |now right]); exfalso;
        unfold convertBase in H; simpl normalizeBase in H; cbv iota in H;
        split_ifs_in H;
        match type of H with
        | match accumulate ?m ?fb ?v ?z with _ => _ end = _ =>
            pose proof (accumulate_validated m fb v z) as Hacc;
            destruct (accumulate m fb v z)
        end;
        try (apply Hacc; [|reflexivity];
             match goal with
             | E : negb _ = false |- _ => now apply negb_false_iff in E
             end);
        repeat match type of H with
               | (if ?c then _ else _) = _ => destruct c eqn:?; try discriminate
               | match ?c with _ => _ end = _ => destruct c eqn:?; try discriminate
               end;
        try (now apply toDigits_not_TypeError in H).
    + intros [-> | ->]; unfold convertBase; simpl; [reflexivity|].
      destruct (normalizeBase a); reflexivity.
  - intros Ha Hb H. unfold convertBase, symbols in *.
    destruct (normalizeBase a) as [sa|] eqn:Ea; [|destruct a; simpl in Ea; congruence].
    destruct (normalizeBase b) as [sb|] eqn:Eb; [|destruct b; simpl in Eb; congruence].
    destruct (hasDuplicates sa) eqn:Da; [reflexivity|].
    destruct (hasDuplicates sb) eqn:Db; [reflexivity|].
    apply hasDuplicates_false in Da. apply hasDuplicates_false in Db.
    destruct H as [H|[H|H]]; [tauto|tauto|].
    destruct (validate (fromMap_of sa) v) eqn:Ev; [|reflexivity].
    apply validate_true in Ev; [|assumption].
    exfalso. apply Exists_exists in H. destruct H as [c [Hc Hn]].
    rewrite Forall_forall in Ev. now apply Hn, Ev.
  - intros [H|H]; rewrite H; split; try discriminate; intros; discriminate.
Qed.

Lemma C7_errors_witness :
  convertBase 0 (str "9") (AString (str "01")) (AString BASE10_ALPHABET)
  = ThrewError.
Proof.
  apply (C7_errors 0 (str "9") (AString (str "01")) (AString BASE10_ALPHABET)).
  - discriminate.
  - discriminate.
  - right. right. constructor. simpl.
    intros [H|[H|H]]; [discriminate H|discriminate H|exact H].
Defined.

(** C10, counterexample: the empty string as a destination alphabet passes
    both checks, and the call returns [undefined], not a symbol. *)
Lemma C10_empty_destination :
  accepted (AString (str "01")) /\ accepted (AString [])
  /\ convertBase 0 [] (AString (str "01")) (AString []) = ReturnedUndefined
  /\ ~ (exists fuel s, convertBase fuel [] (AString (str "01")) (AString [])
                       = Returned s).
Proof.
  split; [now apply accepted_of_string|].
  split; [now apply accepted_of_string|].
  split; [reflexivity|].
  intros (fuel & s & H). discriminate H.
Qed.

(** C10, amended: with the empty string as value, a source alphabet and a
    non-empty destination alphabet that pass the checks, [convertBase]
    throws nothing and returns the first symbol of the destination
    alphabet, without entering the division loop (no iteration is
    needed). *)
Theorem C10_empty_value (fuel : nat) (a b : alphabet_arg) (s : jsstring) :
  accepted a -> accepted b -> nth_error (symbols b) 0 = Some s ->
  convertBase fuel [] a b = Returned s
  /\ convertBase 0 [] a b = Returned s.
Proof.
  intros [Ha Hda] [Hb Hdb] Hs. unfold symbols in *.
  destruct (normalizeBase a) as [sa|] eqn:Ea; [|congruence].
  destruct (normalizeBase b) as [sb|] eqn:Eb; [|congruence].
  destruct sb as [|s0 sb']; [discriminate|]. injection Hs as ->.
  split; rewrite (convertBase_checked _ [] a b sa (s :: sb') Ea Eb Hda Hdb (Forall_nil _));
    reflexivity.
Qed.

Lemma C10_empty_value_witness :
  convertBase 5 [] (AString BASE10_ALPHABET) (AString BASE16) = Returned (str "0")
  /\ convertBase 0 [] (AString BASE10_ALPHABET) (AString BASE16) = Returned (str "0").
Proof.
  apply (C10_empty_value 5 (AString BASE10_ALPHABET) (AString BASE16) (str "0")).
  - apply accepted_of_string. reflexivity.
  - apply accepted_of_string. reflexivity.
  - reflexivity.
Defined.
End BaseClaims.

(* ===================================================================== *)
(** * The matcher *)
(* ===================================================================== *)

Section MatcherFacts.
Import RegExp MatcherSpec.

Lemma m_star ic g a k s :
  m ic (Star g a) k s = star_loop (m ic a) g k (S (length (rest s))) s.
Proof. reflexivity. Qed.

Lemma orelse_Some {A} (x y : option A) r :
  orelse x y = Some r -> x = Some r \/ (x = None /\ y = Some r).
Proof. destruct x; simpl; intros H; [left|right]; auto. Qed.

Lemma eat_suffix ic t : forall rs tl,
  eat ic t rs = Some tl -> exists u, rs = u ++ tl /\ length u = length t.
Proof.
  induction t as [|a t IH]; intros rs tl H; simpl in H.
  - injection H as <-. now exists [].
  - destruct rs as [|b rs]; [discriminate|].
    destruct (if ic then chr_eq (upper a) (upper b) else chr_eq a b); [|discriminate].
    destruct (IH _ _ H) as [u [-> Hl]]. exists (b :: u). simpl. auto.
Qed.

(** A match only ever moves forward in the input. *)
Lemma m_suffix ic r : forall k s res,
  m ic r k s = Some res ->
  exists s' t, k s' = Some res /\ rest s = t ++ rest s'.
Proof.
  induction r as [|p|a IHa b IHb|a IHa b IHb|g a IHa|n a IHa|n| |];
    intros k s res H.
  - exists s, []. auto.
  - simpl in H. destruct (rest s) as [|c tl] eqn:E; [discriminate|].
    destruct (p c); [|discriminate].
    eexists; exists [c]. split; [exact H|reflexivity].
  - simpl in H. destruct (IHa _ _ _ H) as (s1 & t1 & H1 & E1).
    destruct (IHb _ _ _ H1) as (s2 & t2 & H2 & E2).
    exists s2, (t1 ++ t2). split; [assumption|].
    now rewrite E1, E2, app_assoc.
  - simpl in H. apply orelse_Some in H. destruct H as [H|[_ H]]; eauto.
  - rewrite m_star in H.
    remember (S (length (rest s))) as n eqn:En. clear En. revert s res H.
    induction n as [|n IHn]; intros s res H.
    + exists s, []. auto.
    + simpl in H.
      assert (Hk : k s = Some res -> exists s' t, k s' = Some res /\ rest s = t ++ rest s')
        by (intros; exists s, []; auto).
      assert (Hagain :
        m ic a (fun s' => if length (rest s') <? length (rest s)
                          then star_loop (m ic a) g k n s' else None) s = Some res ->
        exists s' t, k s' = Some res /\ rest s = t ++ rest s').
      { intros Ha. destruct (IHa _ _ _ Ha) as (s1 & t1 & H1 & E1).
        destruct (length (rest s1) <? length (rest s)); [|discriminate].
        destruct (IHn _ _ H1) as (s2 & t2 & H2 & E2).
        exists s2, (t1 ++ t2). split; [assumption|].
        now rewrite E1, E2, app_assoc. }
      destruct g; apply orelse_Some in H; destruct H as [H|[_ H]]; auto.
  - simpl in H. destruct (IHa _ _ _ H) as (s1 & t1 & H1 & E1).
    eexists; exists t1. split; [exact H1|exact E1].
  - simpl in H. destruct (cap_get n (caps s)) as [t|].
    + destruct (eat ic t (rest s)) as [tl|] eqn:E; [|discriminate].
      apply eat_suffix in E. destruct E as [u [E _]].
      eexists; exists u. split; [exact H|exact E].
    + exists s, []. auto.
  - simpl in H. destruct (pos s =? 0); [|discriminate]. exists s, []. auto.
  - simpl in H. destruct (rest s) eqn:E; [|discriminate].
    exists s, []. rewrite E. auto.
Qed.

Lemma firstn_length_app {A} (t r : list A) :
  firstn (length (t ++ r) - length r) (t ++ r) = t.
Proof.
  rewrite length_app. replace (length t + length r - length r) with (length t) by lia.
  rewrite firstn_app, Nat.sub_diag, firstn_all. simpl. apply app_nil_r.
Qed.

Lemma match_factor ic r p input cs s' :
  m ic r Some {| pos := p; rest := input; caps := cs |} = Some s' ->
  input = firstn (length input - length (rest s')) input ++ rest s'.
Proof.
  intros E. apply m_suffix in E. destruct E as (s1 & t & E1 & E2).
  injection E1 as <-. simpl in E2. subst input.
  now rewrite firstn_length_app.
Qed.

(** What [search] finds is a factor of the input. *)
Lemma search_sound re : forall input sk p f,
  search re sk p input = Some f ->
  exists skipped,
    f_skipped f = rev sk ++ skipped
    /\ input = skipped ++ f_text f ++ f_after f
    /\ f_index f = p + length skipped.
Proof.
  induction input as [|c input IH]; intros sk p f H;
    unfold search in H; fold search in H;
    destruct (m (ignoreCase re) (pattern re) Some _) as [s'|] eqn:E;
    try discriminate.
  - injection H as <-. exists []. cbn [f_skipped f_text f_after f_index].
    rewrite app_nil_r, Nat.add_0_r. repeat split. exact (match_factor _ _ _ _ _ _ E).
  - injection H as <-. exists []. cbn [f_skipped f_text f_after f_index].
    rewrite app_nil_r, Nat.add_0_r. repeat split. exact (match_factor _ _ _ _ _ _ E).
  - apply IH in H. destruct H as (skipped & H1 & H2 & H3).
    exists (c :: skipped). simpl in H1. rewrite <- app_assoc in H1. simpl in H1.
    repeat split; [assumption|simpl; now rewrite <- H2|simpl; lia].
Qed.

(** ** Character classes under a star *)

Lemma star_loop_greedy ic p k : forall r n ps c,
  length r < n ->
  star_loop (m ic (Chr p)) true k n (st ps r c) = greedy_run p k ps r c.
Proof.
  induction r as [|x tl IH]; intros n ps c Hn; (destruct n as [|n]; [simpl in Hn; lia|]).
  - reflexivity.
  - simpl. destruct (p x); [|reflexivity].
    replace (length tl <? S (length tl)) with true by (symmetry; apply Nat.ltb_lt; lia).
    fold (star_loop (m ic (Chr p)) true k).
    change {| pos := S ps; rest := tl; caps := c |} with (st (S ps) tl c).
    rewrite IH by (simpl in Hn; lia). reflexivity.
Qed.

Lemma m_star_greedy ic p k ps r c :
  m ic (Star true (Chr p)) k (st ps r c) = greedy_run p k ps r c.
Proof. rewrite m_star. apply star_loop_greedy. simpl. lia. Qed.

Lemma star_loop_lazy ic p k : forall r n ps c,
  length r < n ->
  star_loop (m ic (Chr p)) false k n (st ps r c) = lazy_run p k ps r c.
Proof.
  induction r as [|x tl IH]; intros n ps c Hn; (destruct n as [|n]; [simpl in Hn; lia|]).
  - reflexivity.
  - simpl. destruct (p x); [|reflexivity].
    replace (length tl <? S (length tl)) with true by (symmetry; apply Nat.ltb_lt; lia).
    fold (star_loop (m ic (Chr p)) false k).
    change {| pos := S ps; rest := tl; caps := c |} with (st (S ps) tl c).
    rewrite IH by (simpl in Hn; lia). reflexivity.
Qed.

Lemma m_star_lazy ic p k ps r c :
  m ic (Star false (Chr p)) k (st ps r c) = lazy_run p k ps r c.
Proof. rewrite m_star. apply star_loop_lazy. simpl. lia. Qed.

(** A greedy run whose continuation cannot start with a character of the
    class stops exactly where the class stops. *)
Lemma greedy_run_commit p k c :
  (forall ps x tl, p x = true -> k (st ps (x :: tl) c) = None) ->
  forall r ps,
    greedy_run p k ps r c
    = k (st (ps + (length r - length (skip_while p r))) (skip_while p r) c).
Proof.
  intros Hk. induction r as [|x tl IH]; intros ps; simpl.
  - now rewrite Nat.add_0_r.
  - destruct (p x) eqn:E.
    + rewrite IH. rewrite (Hk ps x tl E).
      assert (length (skip_while p tl) <= length tl).
      { clear. induction tl as [|y tl IH]; simpl; [lia|]. destruct (p y); simpl; lia. }
      replace (S ps + (length tl - length (skip_while p tl)))
        with (ps + (S (length tl) - length (skip_while p tl))) by lia.
      destruct (k _); reflexivity.
    + simpl. rewrite Nat.sub_diag, Nat.add_0_r. reflexivity.
Qed.

(** A greedy run succeeds with the longest run when the continuation
    does. *)
Lemma greedy_run_longest p k c ws : forall r ps res,
  Forall (fun x => p x = true) ws ->
  match r with x :: _ => p x = false | [] => True end ->
  k (st (ps + length ws) r c) = Some res ->
  greedy_run p k ps (ws ++ r) c = Some res.
Proof.
  induction ws as [|w ws IH]; intros r ps res Hws Hr Hk; simpl.
  - rewrite Nat.add_0_r in Hk. destruct r as [|x tl]; simpl; [assumption|].
    now rewrite Hr.
  - inversion Hws as [|? ? Hw Hws']; subst. rewrite Hw.
    rewrite (IH r (S ps) res Hws' Hr); [reflexivity|].
    simpl in Hk. now replace (S ps + length ws) with (ps + S (length ws)) by lia.
Qed.

(** A lazy run walks over the characters at which the continuation
    fails. *)
Lemma lazy_run_until p k c body : forall r ps,
  Forall (fun x => p x = true) body ->
  (forall ps' x tl, In x body -> k (st ps' (x :: tl) c) = None) ->
  lazy_run p k ps (body ++ r) c = lazy_run p k (ps + length body) r c.
Proof.
  induction body as [|x body IH]; intros r ps Hb Hk.
  - simpl. now rewrite Nat.add_0_r.
  - inversion Hb as [|? ? Hx Hb']; subst.
    simpl app. unfold lazy_run at 1. fold lazy_run.
    rewrite (Hk ps x (body ++ r)) by now left. simpl orelse. rewrite Hx.
    rewrite IH; [|assumption|intros; apply Hk; now right].
    simpl. f_equal. lia.
Qed.

(** ** Literals *)

Lemma upper_upper c : upper (upper c) = upper c.
Proof.
  destruct c as [[] [] [] [] [] [] [] []]; reflexivity.
Qed.

Lemma m_lit_i ic t : forall k ps r c,
  t <> [] ->
  m ic (lit_i t) k (st ps r c)
  = match eat true t r with
    | Some tl => k (st (ps + length t) tl c)
    | None => None
    end.
Proof.
  induction t as [|a t IH]; intros k ps r c Hne; [congruence|].
  destruct t as [|b t].
  - simpl. destruct r as [|x r]; [reflexivity|].
    unfold chr_eq. rewrite (Ascii.eqb_sym (upper x)).
    destruct (Ascii.eqb (upper a) (upper x)); [|reflexivity].
    now rewrite Nat.add_1_r.
  - change (lit_i (a :: b :: t)) with (Seq (chr_i a) (lit_i (b :: t))).
    destruct r as [|x r]; [reflexivity|].
    change (m ic (Seq (chr_i a) (lit_i (b :: t))) k (st ps (x :: r) c))
      with (if chr_eq (upper x) (upper a)
            then m ic (lit_i (b :: t)) k (st (S ps) r c) else None).
    change (eat true (a :: b :: t) (x :: r))
      with (if chr_eq (upper a) (upper x) then eat true (b :: t) r else None).
    unfold chr_eq. rewrite (Ascii.eqb_sym (upper x)).
    destruct (Ascii.eqb (upper a) (upper x)); [|reflexivity].
    rewrite IH by discriminate.
    destruct (eat true (b :: t) r); [|reflexivity].
    f_equal. f_equal. simpl. lia.
Qed.

Lemma eat_spec t : forall r tl,
  eat true t r = Some tl <->
  exists u, r = u ++ tl /\ same_upto_case u t.
Proof.
  unfold same_upto_case.
  induction t as [|a t IH]; intros r tl; simpl.
  - split.
    + intros H. injection H as <-. now exists [].
    + intros (u & -> & Hu). destruct u; [reflexivity|discriminate].
  - destruct r as [|b r].
    + split; [discriminate|]. intros (u & Hu & Hm).
      destruct u; [discriminate|]. discriminate.
    + unfold chr_eq. destruct (Ascii.eqb_spec (upper a) (upper b)) as [E|E].
      * rewrite IH. split.
        -- intros (u & -> & Hu). exists (b :: u). simpl. split; [reflexivity|congruence].
        -- intros (u & Hu & Hm). destruct u as [|x u]; [discriminate|].
           simpl in *. injection Hu as <- ->. injection Hm as _ Hm. eauto.
      * split; [discriminate|]. intros (u & Hu & Hm).
        destruct u as [|x u]; [discriminate|].
        simpl in *. injection Hu as <- ->. injection Hm as Hx _. congruence.
Qed.
End MatcherFacts.

(* ===================================================================== *)
(** * Patterns without anchors do not look at positions *)
(* ===================================================================== *)

Section PositionFacts.
Import RegExp MatcherSpec.

Lemma forget_pos_inv s s' :
  forget_pos s = forget_pos s' -> rest s = rest s' /\ caps s = caps s'.
Proof. unfold forget_pos. intros H. injection H as -> ->. auto. Qed.

Lemma forget_pos_st p p' r c : forget_pos (st p r c) = forget_pos (st p' r c).
Proof. reflexivity. Qed.

Lemma option_map_orelse {A B} (f : A -> B) x y :
  option_map f (orelse x y) = orelse (option_map f x) (option_map f y).
Proof. destruct x; reflexivity. Qed.

Lemma m_pos_indep ic r :
  bol_free r = true ->
  forall k k' s s',
    forget_pos s = forget_pos s' -> same_answers k k' ->
    option_map forget_pos (m ic r k s) = option_map forget_pos (m ic r k' s').
Proof.
  induction r as [|p|a IHa b IHb|a IHa b IHb|g a IHa|n a IHa|n| |];
    intros Hbf k k' s s' Hs Hk; simpl in Hbf;
    try (apply andb_true_iff in Hbf; destruct Hbf as [Hbfa Hbfb]);
    try discriminate.
  - now apply Hk.
  - destruct (forget_pos_inv _ _ Hs) as [Er Ec]. simpl. rewrite <- Er.
    destruct (rest s) as [|c tl]; [reflexivity|].
    destruct (p c); [|reflexivity]. apply Hk. rewrite Ec. reflexivity.
  - simpl. apply IHa; [assumption|assumption|].
    intros t t' Ht. now apply IHb.
  - simpl. rewrite !option_map_orelse.
    rewrite (IHa Hbfa k k' s s'), (IHb Hbfb k k' s s') by assumption. reflexivity.
  - rewrite !m_star. destruct (forget_pos_inv _ _ Hs) as [Er _]. rewrite <- Er.
    generalize (S (length (rest s))). intros fuel. clear Er.
    revert s s' Hs. induction fuel as [|fuel IHf]; intros s s' Hs; simpl.
    + now apply Hk.
    + destruct (forget_pos_inv _ _ Hs) as [Er _].
      assert (Hagain :
        option_map forget_pos
          (m ic a (fun s1 => if length (rest s1) <? length (rest s)
                             then star_loop (m ic a) g k fuel s1 else None) s)
        = option_map forget_pos
            (m ic a (fun s1 => if length (rest s1) <? length (rest s')
                               then star_loop (m ic a) g k' fuel s1 else None) s')).
      { apply IHa; [assumption|assumption|].
        intros t t' Ht. destruct (forget_pos_inv _ _ Ht) as [Et _].
        rewrite <- Et, <- Er.
        destruct (length (rest t) <? length (rest s)); [|reflexivity].
        now apply IHf. }
      destruct g; rewrite !option_map_orelse, Hagain, (Hk s s' Hs); reflexivity.
  - simpl. apply IHa; [assumption|assumption|].
    intros t t' Ht. destruct (forget_pos_inv _ _ Ht) as [Et Ect].
    destruct (forget_pos_inv _ _ Hs) as [Er _].
    apply Hk. unfold forget_pos. simpl. now rewrite Et, Ect, Er.
  - simpl. destruct (forget_pos_inv _ _ Hs) as [Er Ec]. rewrite <- Ec, <- Er.
    destruct (cap_get n (caps s)) as [t|]; [|now apply Hk].
    destruct (eat ic t (rest s)); [|reflexivity].
    apply Hk. unfold forget_pos. simpl. now rewrite Ec.
  - simpl. destruct (forget_pos_inv _ _ Hs) as [Er _]. rewrite <- Er.
    destruct (rest s); [now apply Hk|reflexivity].
Qed.

Lemma m_top_pos_indep ic r p p' input :
  bol_free r = true ->
  option_map forget_pos (m ic r Some (st p input []))
  = option_map forget_pos (m ic r Some (st p' input [])).
Proof.
  intros Hbf. apply m_pos_indep; [assumption|reflexivity|].
  intros t t' Ht. simpl. now f_equal.
Qed.

Lemma search_pos_indep re : bol_free (pattern re) = true ->
  forall input sk p p',
    option_map forget_index (search re sk p input)
    = option_map forget_index (search re sk p' input).
Proof.
  intros Hbf. induction input as [|c input IH]; intros sk p p';
    unfold search; fold search;
    [pose proof (m_top_pos_indep (ignoreCase re) (pattern re) p p' [] Hbf) as Hm
    |pose proof (m_top_pos_indep (ignoreCase re) (pattern re) p p' (c :: input) Hbf)
      as Hm];
    destruct (m _ _ Some {| pos := p |}) as [s1|];
    destruct (m _ _ Some {| pos := p' |}) as [s2|]; try discriminate;
    try reflexivity;
    try (simpl in Hm; injection Hm as Hr Hc; simpl; unfold forget_index; simpl;
         now rewrite Hr, Hc).
  apply IH.
Qed.

Lemma forget_index_fields f f' :
  forget_index f = forget_index f' ->
  f_skipped f = f_skipped f' /\ f_text f = f_text f'
  /\ f_after f = f_after f' /\ f_caps f = f_caps f'.
Proof. unfold forget_index. intros H. injection H. auto. Qed.

Lemma search_shorter re input sk p f :
  search re sk p input = Some f ->
  length (f_after f) <= length input
  /\ (f_text f <> [] -> length (f_after f) < length input).
Proof.
  intros H. apply search_sound in H. destruct H as (skipped & _ & -> & _).
  rewrite !length_app. split; [lia|].
  destruct (f_text f); [congruence|]. simpl. lia.
Qed.

(** The global replacement does not depend on the start position nor,
    beyond the length of the input, on the bound of its loop. *)
Lemma replace_all_from_indep re callback :
  bol_free (pattern re) = true ->
  (forall f f', forget_index f = forget_index f' -> callback f = callback f') ->
  forall fuel fuel' input p p',
    length input < fuel -> length input < fuel' ->
    replace_all_from fuel re callback p input
    = replace_all_from fuel' re callback p' input.
Proof.
  intros Hbf Hcb. induction fuel as [|fuel IH]; intros fuel' input p p' Hf Hf';
    [lia|]. destruct fuel' as [|fuel']; [lia|]. simpl.
  pose proof (search_pos_indep re Hbf input [] p p') as Hs.
  destruct (search re [] p input) as [f|] eqn:E1;
    destruct (search re [] p' input) as [f'|] eqn:E2; try discriminate;
    [|reflexivity].
  assert (Hs' : forget_index f = forget_index f')
    by (cbn [option_map] in Hs; congruence).
  pose proof (Hcb _ _ Hs') as Hc.
  destruct (forget_index_fields _ _ Hs') as (Hsk & Ht & Ha & Hca).
  rewrite Hsk, Hc, Ht, Ha. f_equal. f_equal.
  destruct (search_shorter _ _ _ _ _ E2) as [Hle Hlt].
  destruct (f_text f') as [|x t]; destruct (f_after f') as [|y after].
  - reflexivity.
  - f_equal. simpl in Hle. apply IH; lia.
  - specialize (Hlt ltac:(discriminate)). apply IH; simpl in *; lia.
  - specialize (Hlt ltac:(discriminate)). apply IH; simpl in *; lia.
Qed.
End PositionFacts.

(* ===================================================================== *)
(** * The id test *)
(* ===================================================================== *)

Section PrefixFacts.
Import RegExp MatcherSpec Hooks EngineSpec.

Lemma search_bol_none ic r : forall input sk p,
  0 < p -> search {| pattern := Seq Bol r; ignoreCase := ic |} sk p input = None.
Proof.
  induction input as [|c input IH]; intros sk p Hp;
    unfold search; fold search; simpl;
    destruct p; try lia; simpl; [reflexivity|].
  apply IH. lia.
Qed.

Lemma test_bol ic r input :
  test {| pattern := Seq Bol r; ignoreCase := ic |} input
  = match m ic r Some (st 0 input []) with Some _ => true | None => false end.
Proof.
  unfold test, exec. destruct input as [|c input];
    unfold search; fold search; cbn [pattern ignoreCase];
    change (m ic (Seq Bol r) Some {| pos := 0; rest := ?i; caps := [] |})
      with (m ic r Some (st 0 i [])).
  - destruct (m ic r Some (st 0 [] [])); reflexivity.
  - destruct (m ic r Some (st 0 (c :: input) [])); [reflexivity|].
    now rewrite search_bol_none by lia.
Qed.

Lemma skip_while_split p s :
  exists ws, s = ws ++ skip_while p s /\ Forall (fun c => p c = true) ws.
Proof.
  induction s as [|c s (ws & E & F)]; simpl.
  - exists []. auto.
  - destruct (p c) eqn:Ec.
    + exists (c :: ws). split; [simpl; congruence|constructor; assumption].
    + exists []. auto.
Qed.

Lemma skip_while_app p ws r :
  Forall (fun c => p c = true) ws ->
  match r with x :: _ => p x = false | [] => True end ->
  skip_while p (ws ++ r) = r.
Proof.
  induction 1 as [|w ws Hw Hws IH]; intros Hr; simpl.
  - destruct r as [|x r]; [reflexivity|]. simpl. now rewrite Hr.
  - rewrite Hw. auto.
Qed.

Lemma space_not_at x : is_space x = true -> chr_eq (upper "@"%char) (upper x) = false.
Proof. by_cases_on_char x. Qed.

Lemma eat_prefix_space x tl :
  is_space x = true -> eat true (str "@InjectionHooks_ts:") (x :: tl) = None.
Proof.
  intros Hx. apply space_not_at in Hx.
  change (eat true (str "@InjectionHooks_ts:") (x :: tl))
    with (if chr_eq (upper "@"%char) (upper x)
          then eat true (str "InjectionHooks_ts:") tl else None).
  now rewrite Hx.
Qed.

Lemma upper_at x : upper x = "@"%char -> x = "@"%char.
Proof. by_cases_on_char x. Qed.

Lemma test_prefix_eat id :
  test __INJECTIONHOOKS_REGEX id
  = match eat true PREFIX_TEXT (skip_while is_space id) with
    | Some _ => true
    | None => false
    end.
Proof.
  unfold __INJECTIONHOOKS_REGEX.
  change (seqs [Bol; Star true space; lit_i (str "@InjectionHooks_ts:")])
    with (Seq Bol (Seq (Star true space) (Seq (lit_i PREFIX_TEXT) Empty))).
  rewrite test_bol.
  change (m true (Seq (Star true space) (Seq (lit_i PREFIX_TEXT) Empty)) Some
            (st 0 id []))
    with (m true (Star true (Chr is_space))
            (m true (lit_i PREFIX_TEXT) Some) (st 0 id [])).
  rewrite m_star_greedy, greedy_run_commit.
  - rewrite m_lit_i by discriminate.
    destruct (eat true PREFIX_TEXT (skip_while is_space id)); reflexivity.
  - intros ps x tl Hx. rewrite m_lit_i by discriminate.
    unfold PREFIX_TEXT. now rewrite eat_prefix_space.
Qed.

(** The id test accepts exactly the ids that carry the prefix. *)
Lemma test_prefix_iff id :
  test __INJECTIONHOOKS_REGEX id = true <-> carries_prefix id.
Proof.
  rewrite test_prefix_eat. unfold carries_prefix. split.
  - destruct (eat true PREFIX_TEXT (skip_while is_space id)) as [tl|] eqn:E;
      [intros _|discriminate].
    apply eat_spec in E. destruct E as (u & E & Hu).
    destruct (skip_while_split is_space id) as (ws & Hid & Hws).
    exists ws, u, tl. rewrite <- E. auto.
  - intros (ws & p & tail & -> & Hws & Hp).
    assert (Hhead : match p ++ tail with
                    | x :: _ => is_space x = false
                    | [] => True
                    end).
    { destruct p as [|x p]; [discriminate Hp|].
      unfold same_upto_case in Hp. simpl in Hp. injection Hp as Hx _.
      apply upper_at in Hx. subst x. reflexivity. }
    rewrite skip_while_app by assumption.
    assert (E : eat true PREFIX_TEXT (p ++ tail) = Some tail)
      by (apply eat_spec; eauto).
    now rewrite E.
Qed.

Lemma test_prefix_false id :
  test __INJECTIONHOOKS_REGEX id = false <-> ~ carries_prefix id.
Proof.
  rewrite <- test_prefix_iff. destruct (test __INJECTIONHOOKS_REGEX id); split;
    congruence.
Qed.

(** An id that carries the prefix starts with white space or [@]. *)
Lemma carries_prefix_head id :
  carries_prefix id ->
  exists x tl, id = x :: tl /\ (is_space x = true \/ x = "@"%char).
Proof.
  intros (ws & p & tail & -> & Hws & Hp).
  destruct ws as [|w ws].
  - destruct p as [|x p]; [discriminate Hp|].
    unfold same_upto_case in Hp. simpl in Hp. injection Hp as Hx _.
    apply upper_at in Hx. subst x. simpl. eauto.
  - inversion Hws; subst. simpl. eauto.
Qed.
End PrefixFacts.

(* ===================================================================== *)
(** * [GEN_ID] and the path policy *)
(* ===================================================================== *)

Section IdFacts.
Import Hooks Canonical.

(** Whatever the flag, the condition of [GEN_ID] is a non-empty string. *)
Lemma GEN_ID_absolute cwd f w :
  GEN_ID cwd f w = backslash_to_slash (Path.resolve cwd [cwd; f]).
Proof.
  unfold GEN_ID.
  replace (nonempty _) with true; [reflexivity|].
  destruct w as [[]|n]; simpl; try reflexivity.
  unfold is_one. destruct n as [|[]|]; reflexivity.
Qed.

Lemma resolve_loop_absolute cwd : forall rargs acc,
  Path.isAbsolute cwd = true -> snd (Path.resolve_loop cwd rargs acc) = true.
Proof.
  intros rargs acc Hc. revert acc.
  induction rargs as [|p rargs IH]; intros acc; simpl.
  - destruct cwd; [discriminate|]. simpl. exact Hc.
  - destruct p as [|c p]; [apply IH|].
    destruct (Path.isAbsolute (c :: p)); [reflexivity|apply IH].
Qed.

(** With an absolute working directory, [resolve] returns an absolute
    path. *)
Lemma resolve_isAbsolute cwd args :
  Path.isAbsolute cwd = true -> Path.isAbsolute (Path.resolve cwd args) = true.
Proof.
  intros Hc. unfold Path.resolve.
  pose proof (resolve_loop_absolute cwd (rev args) [] Hc) as H.
  destruct (Path.resolve_loop cwd (rev args) []) as [rp ra]. simpl in H. subst ra.
  reflexivity.
Qed.

Lemma backslash_to_slash_isAbsolute p :
  Path.isAbsolute p = true -> Path.isAbsolute (backslash_to_slash p) = true.
Proof.
  destruct p as [|c p]; [discriminate|]. simpl. unfold chr_eq.
  destruct (Ascii.eqb_spec c "/"%char) as [->|]; [reflexivity|discriminate].
Qed.

Lemma GEN_ID_isAbsolute cwd f w :
  Path.isAbsolute cwd = true -> Path.isAbsolute (GEN_ID cwd f w) = true.
Proof.
  intros Hc. rewrite GEN_ID_absolute.
  apply backslash_to_slash_isAbsolute. now apply resolve_isAbsolute.
Qed.

(** C2, the code at the failing input: in the default mode [GEN_ID]
    returns the resolved absolute path and nothing in front of it; the
    result does not start with the prefix, and the same holds for every
    path and every mode.  The [GEN_ID] of the simpler engine does put its
    prefix in front of the normalized path. *)
Theorem C2_GEN_ID_without_prefix :
  GEN_ID (str "/proj") (str "src/a.scss") (FBool true) = str "/proj/src/a.scss"
  /\ startsWith __VIRTUAL_ID_PREFIX
                (GEN_ID (str "/proj") (str "src/a.scss") (FBool true)) = false
  /\ (forall cwd f w, GEN_ID cwd f w = backslash_to_slash (Path.resolve cwd [cwd; f]))
  /\ (forall cwd f w, Path.isAbsolute cwd = true ->
                      startsWith __VIRTUAL_ID_PREFIX (GEN_ID cwd f w) = false)
  /\ (forall f, Simple.GEN_ID f
                = Simple.__VIRTUAL_ID_PREFIX ++ backslash_to_slash (Path.normalize f)).
Proof.
  split; [reflexivity|]. split; [reflexivity|].
  split; [apply GEN_ID_absolute|]. split; [|reflexivity].
  intros cwd f w Hc. pose proof (GEN_ID_isAbsolute cwd f w Hc) as H.
  destruct (GEN_ID cwd f w) as [|c r]; [discriminate H|].
  simpl in H. unfold chr_eq in H.
  destruct (Ascii.eqb_spec c "/"%char) as [->|]; [reflexivity|discriminate].
Qed.

(** C4, the code at the three inputs: the sibling file resolves next to
    the importer and the URL is a foreign scheme whatever the importer,
    but the bare package name is resolved against the importer's
    directory, for every non-empty importer; it is never the
    external-package outcome. *)
Theorem C4_policy_examples (cwd : jsstring) :
  fasterSimpleResolveAbsolutePath cwd (str "./sibling.scss")
                                  (Some (str "/proj/src/a.scss"))
    = RPath (str "/proj/src/sibling.scss")
  /\ (forall importer,
        fasterSimpleResolveAbsolutePath cwd (str "https://x/y") importer
        = RCode (-1))
  /\ fasterSimpleResolveAbsolutePath cwd (str "lodash")
                                     (Some (str "/proj/src/a.scss"))
     = RPath (str "/proj/src/lodash")
  /\ (forall importer,
        truthy (Some importer) = true ->
        fasterSimpleResolveAbsolutePath cwd (str "lodash") (Some importer)
        = RPath (backslash_to_slash
                   (Path.normalize
                      (Path.resolve cwd [Path.dirname importer; str "lodash"])))).
Proof.
  split; [reflexivity|]. split; [intros; reflexivity|]. split; [reflexivity|].
  intros importer H. unfold fasterSimpleResolveAbsolutePath.
  rewrite H. reflexivity.
Qed.
End IdFacts.

(* ===================================================================== *)
(** * [load]: the two early returns *)
(* ===================================================================== *)

Section LoadFacts.
Import RegExp Hooks Canonical EngineSpec.

(** C6: [load] returns null for an id that does not carry the prefix and
    for an id that is not a key of the registry; it produces a string
    only for an id that carries the prefix and is a key, and for such an
    id it does produce one as soon as the hook's file can be read. *)
Theorem C6_load_null (cwd : jsstring) (fs : jsstring -> option jsstring)
        (registry : JsObject.t hook) (id : jsstring) :
  (~ carries_prefix id -> load cwd fs registry id = LoadNull)
  /\ (JsObject.has id registry = false -> load cwd fs registry id = LoadNull)
  /\ (forall code, load cwd fs registry id = LoadString code ->
                   carries_prefix id /\ JsObject.has id registry = true)
  /\ (forall h original,
        carries_prefix id -> JsObject.get id registry = Some h ->
        fs (filePath h) = Some original ->
        exists code, load cwd fs registry id = LoadString code).
Proof.
  unfold load, JsObject.has, JsObject.get, JsMap.has.
  split; [|split; [|split]].
  - intros H. apply test_prefix_false in H. now rewrite H.
  - intros H. destruct (negb _); [reflexivity|].
    destruct (JsMap.get id registry); [discriminate|reflexivity].
  - intros code H.
    destruct (test __INJECTIONHOOKS_REGEX id) eqn:E; [|discriminate].
    apply test_prefix_iff in E. split; [assumption|].
    simpl in H. destruct (JsMap.get id registry); [reflexivity|discriminate].
  - intros h original Hp Hh Hfs. apply test_prefix_iff in Hp.
    rewrite Hp, Hh, Hfs. simpl. eauto.
Qed.

Lemma C6_load_null_witness :
  let h := Hook (str "/proj/a.scss") None (fun _ => []) in
  let fs := fun _ : jsstring => Some (str "body {}") in
  let registry := JsObject.set (str " @injectionHooks_TS:/x") h JsObject.empty in
  exists code,
    load (str "/proj") fs registry (str " @injectionHooks_TS:/x") = LoadString code.
Proof.
  intros h fs registry.
  apply (proj2 (proj2 (proj2 (C6_load_null (str "/proj") fs registry
                                           (str " @injectionHooks_TS:/x"))))
           h (str "body {}")).
  - exists (str " "), (str "@injectionHooks_TS:"), (str "/x").
    split; [reflexivity|]. split; [repeat constructor|reflexivity].
  - reflexivity.
  - reflexivity.
Defined.
End LoadFacts.

(* ===================================================================== *)
(** * [load]: the marker splice *)
(* ===================================================================== *)

Section SpliceFacts.
Import RegExp Hooks Canonical EngineSpec.

Lemma substitute_dollar_free n before f t :
  dollar_free t -> substitute n before f t = t.
Proof.
  induction 1 as [|c t Hc Ht IH]; [reflexivity|].
  unfold substitute; fold substitute.
  destruct (Ascii.eqb_spec c "$"%char) as [E|E]; [contradiction|].
  unfold chr_eq. destruct (Ascii.eqb_spec c "$"%char); [contradiction|].
  simpl. now rewrite IH.
Qed.

Lemma getCommentSyntax_cases path :
  let x := getCommentSyntax path in
  (c_start x = str "//" /\ c_end x = [])
  \/ (c_start x = str "<!--" /\ c_end x = str "-->")
  \/ (c_start x = str "#" /\ c_end x = [])
  \/ (c_start x = str "/*" /\ c_end x = str "*/").
Proof.
  unfold getCommentSyntax.
  repeat match goal with
         | |- context [if ?c then _ else _] => destruct c
         end; simpl; tauto.
Qed.

Lemma template_is_block x content :
  injection_template x content = injection_block x content.
Proof.
  unfold injection_template, injection_block, startComment, endComment.
  simpl. repeat rewrite <- app_assoc. simpl.
  repeat (f_equal; repeat rewrite <- app_assoc; simpl).
Qed.

Lemma dollar_free_app a b : dollar_free a -> dollar_free b -> dollar_free (a ++ b).
Proof. intros. apply Forall_app. now split. Qed.

Lemma dollar_free_block path content :
  dollar_free content ->
  dollar_free (injection_block (getCommentSyntax path) content).
Proof.
  intros Hc. unfold injection_block.
  assert (Hfix : forall s, forallb (fun c => negb (chr_eq c "$"%char)) s = true ->
                           dollar_free s).
  { intros s H. apply Forall_forall. intros c Hin E. subst c.
    rewrite forallb_forall in H. specialize (H _ Hin). discriminate. }
  destruct (getCommentSyntax_cases path) as [[-> ->]|[[-> ->]|[[-> ->]|[-> ->]]]];
    repeat apply dollar_free_app; try assumption; now apply Hfix.
Qed.

(** With a content free of [$], the first match of the marker pattern is
    replaced by the block around the content and the rest of the file is
    kept; without a match the file is unchanged. *)
Lemma inject_dollar_free h original :
  dollar_free (getContent h tt) ->
  let x := getCommentSyntax (filePath h) in
  match exec (INJECTION_BLOCK_REGEX (c_start x)) original with
  | Some f =>
      original = f_skipped f ++ f_text f ++ f_after f
      /\ inject h original
         = f_skipped f ++ injection_block x (getContent h tt) ++ f_after f
  | None => inject h original = original
  end.
Proof.
  intros Hc x. unfold inject, replace_first. fold x.
  destruct (exec (INJECTION_BLOCK_REGEX (c_start x)) original) as [f|] eqn:E;
    [|reflexivity].
  split.
  - unfold exec in E. apply search_sound in E.
    destruct E as (sk & E1 & E2 & _). simpl in E1. now rewrite E1.
  - rewrite template_is_block, substitute_dollar_free; [reflexivity|].
    now apply dollar_free_block.
Qed.

(** C5, the code at the failing input: a content made of the replacement
    pattern for the whole match is not inserted as it is; the marker line
    that was matched takes its place between the two marker comments. *)
Theorem C5_content_is_a_replacement_pattern :
  let h := Hook (str "/proj/a.scss") None (fun _ => str "$&") in
  let marker := LF :: str "// {generate-global-css-vars.ts: v}" ++ [LF] in
  let fs := fun p => if jseqb p (str "/proj/a.scss")
                     then Some (str "a" ++ marker ++ str "b") else None in
  let registry := JsObject.set (str "@InjectionHooks_ts:/x") h JsObject.empty in
  let x := getCommentSyntax (filePath h) in
  load (str "/proj") fs registry (str "@InjectionHooks_ts:/x")
    = LoadString (str "a" ++ injection_block x marker ++ str "b")
  /\ load (str "/proj") fs registry (str "@InjectionHooks_ts:/x")
    <> LoadString (str "a" ++ injection_block x (getContent h tt) ++ str "b").
Proof.
  split; [vm_compute; reflexivity|vm_compute; discriminate].
Qed.
End SpliceFacts.

(* ===================================================================== *)
(** * Paths: where a leading slash comes from *)
(* ===================================================================== *)

Section PathFacts.

Import PathSpec.

Lemma split_no_slash p : Forall no_slash (Path.split_slash p).
Proof.
  induction p as [|c p IH]; simpl.
  - repeat constructor.
  - destruct (chr_eq c "/"%char) eqn:E.
    + constructor; [constructor|assumption].
    + destruct (Path.split_slash p) as [|s ss].
      * repeat constructor. assumption.
      * inversion IH; subst. constructor; [|assumption].
        constructor; assumption.
Qed.

Lemma norm_step_proper allow stack seg :
  Forall proper stack -> no_slash seg ->
  Forall proper (Path.norm_step allow stack seg).
Proof.
  intros Hs Hseg. unfold Path.norm_step.
  destruct (jseqb seg []) eqn:E0; cbn [orb]; [assumption|].
  apply jseqb_false in E0.
  destruct (jseqb seg (str ".")); [assumption|].
  assert (Hp : proper seg) by (split; assumption).
  destruct (jseqb seg (str "..")).
  - destruct stack as [|top below].
    + destruct allow; repeat constructor; assumption.
    + inversion Hs; subst.
      destruct (jseqb top (str "..")); [destruct allow|]; try assumption.
      constructor; assumption.
  - constructor; assumption.
Qed.

Lemma fold_norm_proper allow segs : forall stack,
  Forall proper stack -> Forall no_slash segs ->
  Forall proper (fold_left (Path.norm_step allow) segs stack).
Proof.
  induction segs as [|s segs IH]; intros stack Hs Hsegs; simpl; [assumption|].
  inversion Hsegs; subst. apply IH; [|assumption].
  now apply norm_step_proper.
Qed.

Lemma join_proper_head segs :
  Forall proper segs ->
  match Path.join_slash segs with
  | c :: _ => chr_eq c "/"%char = false
  | [] => True
  end.
Proof.
  intros H. destruct segs as [|s ss]; [exact I|].
  inversion H as [|? ? [Hne Hns] _]; subst.
  destruct s as [|c s]; [congruence|]. inversion Hns; subst.
  destruct ss; simpl; assumption.
Qed.

Lemma normalizeString_head p allow :
  match Path.normalizeString p allow with
  | c :: _ => chr_eq c "/"%char = false
  | [] => True
  end.
Proof.
  unfold Path.normalizeString. apply join_proper_head.
  apply Forall_rev. apply fold_norm_proper; [constructor|apply split_no_slash].
Qed.

(** [normalize] keeps a path absolute or relative. *)
Lemma normalize_isAbsolute p :
  Path.isAbsolute (Path.normalize p) = Path.isAbsolute p.
Proof.
  unfold Path.normalize. destruct p as [|c p]; [reflexivity|].
  set (q := c :: p).
  pose proof (normalizeString_head q (negb (Path.isAbsolute q))) as Hq.
  destruct (Path.isAbsolute q) eqn:Ea.
  - destruct (Path.normalizeString q (negb true)); reflexivity.
  - simpl negb in *.
    destruct (Path.normalizeString q true) as [|d r];
      [destruct (Path.ends_with_slash q); reflexivity|].
    destruct (Path.ends_with_slash q); simpl; exact Hq.
Qed.
End PathFacts.

(* ===================================================================== *)
(** * Registries *)
(* ===================================================================== *)

Section RegistryFacts.
Context {V : Type}.
Implicit Types (o : JsObject.t V) (e : jsstring * V).

Lemma find_first {A} (f : A -> bool) (l : list A) (x : A) :
  find f l = Some x -> EngineSpec.first_accepted f l x.
Proof.
  induction l as [|y l IH]; simpl; [discriminate|].
  destruct (f y) eqn:E.
  - intros H. injection H as <-. exists [], l. auto.
  - intros H. destruct (IH H) as (before & after & -> & Hb & Hx).
    exists (y :: before), after. repeat split; [constructor|]; assumption.
Qed.

Lemma find_none_all {A} (f : A -> bool) (l : list A) :
  (forall x, In x l -> f x = false) -> find f l = None.
Proof.
  induction l as [|y l IH]; intros H; simpl; [reflexivity|].
  rewrite (H y) by now left. apply IH. intros x Hx. apply H. now right.
Qed.

Lemma In_insert_sorted i e (l : list (N * (jsstring * V))) x :
  In x (JsObject.insert_sorted i e l) <-> x = (i, e) \/ In x l.
Proof.
  induction l as [|[j e'] l IH]; simpl.
  - intuition.
  - destruct (i <? j)%N; simpl; [intuition|]. rewrite IH. intuition.
Qed.

Lemma In_index_entries o i e :
  In (i, e) (JsObject.index_entries o) -> In e o.
Proof.
  induction o as [|[k v] o IH]; simpl; [tauto|].
  destruct (JsObject.array_index k) as [j|].
  - rewrite In_insert_sorted. intros [H|H]; [injection H as _ <-; now left|].
    right. auto.
  - right. auto.
Qed.

(** Enumeration visits own properties only. *)
Lemma In_entries o e : In e (JsObject.entries o) -> In e o.
Proof.
  unfold JsObject.entries. rewrite in_app_iff. intros [H|H].
  - apply in_map_iff in H. destruct H as [[i e'] [<- H]].
    eapply In_index_entries; eauto.
  - apply filter_In in H. tauto.
Qed.

(** Without array-index keys, enumeration order is creation order. *)
Lemma entries_no_index o :
  Forall (fun e => JsObject.is_index (fst e) = false) o -> JsObject.entries o = o.
Proof.
  intros H. unfold JsObject.entries.
  assert (Hi : JsObject.index_entries o = []).
  { induction H as [|[k v] o Hk Ho IH]; [reflexivity|]. simpl.
    unfold JsObject.is_index in Hk. simpl in Hk.
    destruct (JsObject.array_index k); [discriminate|assumption]. }
  rewrite Hi. simpl.
  induction H as [|e o He Ho IH]; [reflexivity|]. simpl. rewrite He. simpl.
  f_equal. apply IH.
  clear -Hi He. destruct e as [k v]. simpl in *. unfold JsObject.is_index in He.
  destruct (JsObject.array_index k); [discriminate|assumption].
Qed.

Lemma In_get k v o : In (k, v) o -> exists v', JsMap.get k o = Some v'.
Proof.
  induction o as [|[k' v'] o IH]; simpl; [tauto|].
  intros [H|H].
  - injection H as -> ->. destruct (jsstring_dec k k); [eauto|congruence].
  - destruct (jsstring_dec k k'); eauto.
Qed.

Lemma In_set k v o e :
  In e (JsMap.set k v o) -> e = (k, v) \/ In e o.
Proof.
  induction o as [|[k' v'] o IH]; simpl.
  - intuition.
  - destruct (jsstring_dec k k') as [->|Hne]; simpl.
    + intros [H|H]; auto.
    + intros [H|H]; auto. destruct (IH H); auto.
Qed.

Lemma absolute_not_index k :
  Path.isAbsolute k = true -> JsObject.is_index k = false.
Proof.
  destruct k as [|c k]; [discriminate|]. simpl. unfold chr_eq.
  destruct (Ascii.eqb_spec c "/"%char) as [->|]; [|discriminate].
  reflexivity.
Qed.
End RegistryFacts.

Section ArrayRegistry.
Import Hooks Canonical.

(** The array branch keys every hook by the id of its file. *)
Lemma normalize_hooks_keys cwd hooks e :
  In e (normalize_hooks cwd (HArray hooks)) ->
  fst e = GEN_ID cwd (filePath (snd e)) (FBool true).
Proof.
  simpl. unfold JsObject.empty.
  assert (G : forall (acc : JsObject.t hook),
             (forall e, In e acc -> fst e = GEN_ID cwd (filePath (snd e)) (FBool true)) ->
             forall e,
               In e (fold_left
                       (fun acumulador atual =>
                          JsObject.set (GEN_ID cwd (filePath atual) (FBool true))
                                       atual acumulador) hooks acc) ->
               fst e = GEN_ID cwd (filePath (snd e)) (FBool true)).
  { induction hooks as [|h hooks IH]; intros acc Hacc e' He'; simpl in He';
      [now apply Hacc|].
    eapply IH; [|exact He'].
    intros e2 He2. apply In_set in He2. destruct He2 as [->|He2]; [reflexivity|].
    now apply Hacc. }
  apply G. intros ? [].
Qed.
End ArrayRegistry.

(* ===================================================================== *)
(** * [resolveId] *)
(* ===================================================================== *)

Section ResolveFacts.
Import Hooks Canonical EngineSpec.

(** C9, counterexample: in a record whose second key is an array index,
    enumeration starts with that key; [resolveId] answers with the hook
    stored there although the hook inserted first accepts the path too. *)
Lemma C9_array_index_key_first :
  let always := Some (TRegExp (fun _ => true)) in
  let h1 := Hook (str "/p/one.scss") always (fun _ => []) in
  let h2 := Hook (str "/p/two.scss") always (fun _ => []) in
  let registry := JsObject.set (str "1") h2 (JsObject.set (str "b") h1 JsObject.empty) in
  let accept := fun e : jsstring * hook => isMatch (THook (snd e)) (str "/x.scss") in
  first_accepted accept registry (str "b", h1)
  /\ exists r,
       resolveId (str "/p") registry (str "/x.scss") None = Some r
       /\ id r = GEN_ID (str "/p") (filePath h2) (FBool true)
       /\ id r <> GEN_ID (str "/p") (filePath h1) (FBool true).
Proof.
  intros always h1 h2 registry accept. split.
  - exists [], [(str "1", h2)]. repeat split. constructor.
  - eexists. split; [reflexivity|]. split; [reflexivity|].
    vm_compute. discriminate.
Qed.

(** C9, amended: a result of [resolveId] names the first hook, in the
    enumeration order of the registry (array-index keys in ascending
    order, then the other keys in insertion order), whose matcher accepts
    the resolved path, and its id is [GEN_ID] of that hook's file.  For a
    registry built from an array of hooks that id is a key of the
    registry, and with an absolute working directory the enumeration
    order is the insertion order. *)
Theorem C9_resolved_id (cwd source : jsstring) (importer : option jsstring)
        (registry : JsObject.t hook) (r : resolved) :
  resolveId cwd registry source importer = Some r ->
  (exists p k h,
      fasterSimpleResolveAbsolutePath
        cwd (backslash_to_slash (Path.normalize source))
        (effectiveImporter cwd registry importer) = RPath p
      /\ first_accepted (fun e => isMatch (THook (snd e)) p)
                        (JsObject.entries registry) (k, h)
      /\ id r = GEN_ID cwd (filePath h) (FBool true)
      /\ (forall hooks, registry = normalize_hooks cwd (HArray hooks) -> k = id r))
  /\ (forall hooks,
        registry = normalize_hooks cwd (HArray hooks) ->
        JsObject.has (id r) registry = true
        /\ (Path.isAbsolute cwd = true -> JsObject.entries registry = registry)).
Proof.
  intros H. unfold resolveId in H.
  destruct (fasterSimpleResolveAbsolutePath _ _ _) as [p|] eqn:Ep; [|discriminate].
  destruct (find _ (JsObject.entries registry)) as [[k h]|] eqn:Ef; [|discriminate].
  injection H as <-. simpl id.
  pose proof (find_first _ _ _ Ef) as Hfirst.
  assert (Hin : In (k, h) registry).
  { apply In_entries. apply find_some in Ef. tauto. }
  split.
  - exists p, k, h. repeat split; try assumption.
    intros hooks ->. exact (normalize_hooks_keys cwd hooks _ Hin).
  - intros hooks ->. split.
    + pose proof (normalize_hooks_keys cwd hooks _ Hin) as Hk. simpl in Hk.
      rewrite <- Hk. unfold JsObject.has, JsMap.has.
      destruct (In_get _ _ _ Hin) as [v' ->]. reflexivity.
    + intros Hc. apply entries_no_index. apply Forall_forall. intros e He.
      rewrite (normalize_hooks_keys cwd hooks e He).
      apply absolute_not_index. now apply GEN_ID_isAbsolute.
Qed.

Lemma C9_resolved_id_witness :
  let h := Hook (str "src/a.scss") (Some (TRegExp (fun _ => true))) (fun _ => []) in
  let registry := normalize_hooks (str "/proj") (HArray [h]) in
  JsObject.has (str "/proj/src/a.scss") registry = true
  /\ (Path.isAbsolute (str "/proj") = true -> JsObject.entries registry = registry).
Proof.
  intros h registry.
  exact (proj2 (C9_resolved_id (str "/proj") (str "/x.scss") None registry
                  {| id := str "/proj/src/a.scss"; injectedLoader := str "scss" |}
                  eq_refl) [h] eq_refl).
Defined.

(** ** The importer is never mapped back *)

Lemma isAbsolute_differ a b :
  Path.isAbsolute a = true -> Path.isAbsolute b = false -> jseqb a b = false.
Proof.
  intros Ha Hb. apply jseqb_false. intros ->. congruence.
Qed.

Lemma carries_prefix_relative id : carries_prefix id -> Path.isAbsolute id = false.
Proof.
  intros H. destruct (carries_prefix_head id H) as (x & tl & -> & Hx).
  simpl. destruct Hx as [Hx| ->]; [|reflexivity].
  unfold chr_eq. destruct (Ascii.eqb_spec x "/"%char) as [->|]; [discriminate|reflexivity].
Qed.

(** With an absolute working directory no id of a hook's file equals a
    virtual importer, so the importer is used as given. *)
Lemma effectiveImporter_same cwd registry importer :
  Path.isAbsolute cwd = true -> effectiveImporter cwd registry importer = importer.
Proof.
  intros Hc. unfold effectiveImporter.
  destruct (truthy importer && RegExp.test __INJECTIONHOOKS_REGEX (or_empty importer))
    eqn:E; [|reflexivity].
  apply andb_true_iff in E. destruct E as [_ E]. apply test_prefix_iff in E.
  rewrite find_none_all; [reflexivity|].
  intros h _. apply isAbsolute_differ.
  - rewrite normalize_isAbsolute. now apply GEN_ID_isAbsolute.
  - rewrite normalize_isAbsolute. now apply carries_prefix_relative.
Qed.
End ResolveFacts.

(* ===================================================================== *)
(** * The two engines side by side *)
(* ===================================================================== *)

Section TwoEngines.
Import Hooks EngineSpec.

(** C8, counterexample: for one hook given in an array and an absolute
    specifier that it accepts, the simpler engine answers with the
    prefixed normalized file path and the other engine with the bare
    absolute file path; and on one registry record, for a specifier that
    climbs out of a directory named by three dots (written with
    backslashes), the simpler engine answers and the other one does
    not. *)
Lemma C8_ids_differ :
  let h := Hook (str "/proj/a.scss") (Some (TRegExp (fun _ => true))) (fun _ => []) in
  let registry := JsObject.set (str "k") h JsObject.empty in
  let climbing := str "...\..\..\x" in
  Simple.FileInjectionHooks_resolveId (str "/proj") (HArray [h]) (str "/proj/q.scss") None
    = Some {| id := str "@InjectionHooks_ts:/proj/a.scss";
              injectedLoader := str "scss" |}
  /\ Canonical.FileInjectionHooks_resolveId (str "/proj") (HArray [h])
                                            (str "/proj/q.scss") None
     = Some {| id := str "/proj/a.scss"; injectedLoader := str "scss" |}
  /\ Simple.resolveId (str "/proj") registry climbing (Some (str "/proj/s/b.scss"))
     = Some {| id := str "@InjectionHooks_ts:/proj/a.scss"; injectedLoader := [] |}
  /\ Canonical.resolveId (str "/proj") registry climbing (Some (str "/proj/s/b.scss"))
     = None
  /\ ~ simple_refines_canonical.
Proof.
  repeat (split; [reflexivity|]).
  intros H.
  destruct (H (str "/proj") (fun _ => None)
              (HArray [Hook (str "/proj/a.scss") (Some (TRegExp (fun _ => true)))
                            (fun _ => [])])
              (str "/proj/q.scss") None []) as [H1 _].
  specialize (H1 {| id := str "@InjectionHooks_ts:/proj/a.scss";
                    injectedLoader := str "scss" |} eq_refl).
  vm_compute in H1. discriminate H1.
Qed.

(** When both path policies give a path, it is the same path. *)
Lemma policies_agree cwd source importer ps pc :
  Simple.fasterSimpleResolveAbsolutePath cwd source importer = Some ps ->
  Canonical.fasterSimpleResolveAbsolutePath cwd source importer = Canonical.RPath pc ->
  ps = pc.
Proof.
  unfold Simple.fasterSimpleResolveAbsolutePath,
    Canonical.fasterSimpleResolveAbsolutePath.
  intros Hs Hc. split_ifs_in Hs; split_ifs_in Hc; congruence.
Qed.

Lemma simple_id_head f : exists tl, Simple.GEN_ID f = "@"%char :: tl.
Proof. unfold Simple.GEN_ID. simpl. eauto. Qed.

(** C8, amended: on one registry record and with an absolute working
    directory, two results of [resolveId] for the same request name the
    same hook of the registry and the same loader, each engine giving
    the id that its own [GEN_ID] returns for the hook's file, and these
    two ids differ; [load] of the engine with import rewriting returns
    what the simpler [load] returns, passed through the rewriting of
    relative imports when it is a string. *)
Theorem C8_engines_related (cwd source id : jsstring) (importer : option jsstring)
        (fs : jsstring -> option jsstring) (registry : JsObject.t hook) :
  Path.isAbsolute cwd = true ->
  (forall rs rc,
      Simple.resolveId cwd registry source importer = Some rs ->
      Canonical.resolveId cwd registry source importer = Some rc ->
      exists h,
        In h (JsObject.values registry)
        /\ Hooks.id rs = Simple.GEN_ID (filePath h)
        /\ Hooks.id rc = Canonical.GEN_ID cwd (filePath h) (Canonical.FBool true)
        /\ injectedLoader rs = injectedLoader rc
        /\ Hooks.id rs <> Hooks.id rc)
  /\ match Simple.load fs registry id with
     | LoadString code =>
         exists h, JsObject.get id registry = Some h
                   /\ Canonical.load cwd fs registry id
                      = LoadString (Canonical.rewrite_imports cwd h code)
     | other => Canonical.load cwd fs registry id = other
     end.
Proof.
  intros Hcwd. split.
  - intros rs rc Hs Hc.
    unfold Simple.resolveId in Hs. unfold Canonical.resolveId in Hc.
    rewrite effectiveImporter_same in Hc by assumption.
    destruct (Simple.fasterSimpleResolveAbsolutePath _ _ _) as [ps|] eqn:Es;
      [|discriminate].
    destruct (Canonical.fasterSimpleResolveAbsolutePath _ _ _) as [pc|] eqn:Ec;
      [|discriminate].
    pose proof (policies_agree _ _ _ _ _ Es Ec) as <-.
    destruct ps as [|c ps]; [discriminate|].
    destruct (find _ (JsObject.entries registry)) as [[k h]|] eqn:Ef; [|discriminate].
    injection Hs as <-. injection Hc as <-. exists h. simpl.
    repeat split.
    + apply find_some in Ef. unfold JsObject.values.
      apply in_map_iff. exists (k, h). tauto.
    + destruct (simple_id_head (filePath h)) as [tl ->].
      pose proof (GEN_ID_isAbsolute cwd (filePath h) (Canonical.FBool true) Hcwd) as Ha.
      intros E. rewrite <- E in Ha. discriminate Ha.
  - unfold Simple.load, Canonical.load.
    destruct (negb (RegExp.test __INJECTIONHOOKS_REGEX id)); [reflexivity|].
    destruct (JsObject.get id registry) as [h|]; [|reflexivity].
    destruct (fs (filePath h)) as [original|]; [|reflexivity].
    exists h. split; reflexivity.
Qed.

Lemma C8_engines_related_witness :
  let h := Hook (str "/proj/a.scss") (Some (TRegExp (fun _ => true)))
                (fun _ => str "x") in
  let registry := JsObject.set (str "@InjectionHooks_ts:/proj/a.scss") h JsObject.empty in
  let fs := fun _ : jsstring => Some (str "@use './b';") in
  match Simple.load fs registry (str "@InjectionHooks_ts:/proj/a.scss") with
  | LoadString code =>
      exists h', JsObject.get (str "@InjectionHooks_ts:/proj/a.scss") registry = Some h'
                 /\ Canonical.load (str "/proj") fs registry
                                   (str "@InjectionHooks_ts:/proj/a.scss")
                    = LoadString (Canonical.rewrite_imports (str "/proj") h' code)
  | other => Canonical.load (str "/proj") fs registry
                            (str "@InjectionHooks_ts:/proj/a.scss") = other
  end.
Proof.
  intros h registry fs.
  exact (proj2 (C8_engines_related (str "/proj") (str "/proj/q.scss")
                  (str "@InjectionHooks_ts:/proj/a.scss") None fs registry eq_refl)).
Defined.
End TwoEngines.

(* ===================================================================== *)
(** * [load]: rewriting relative imports *)
(* ===================================================================== *)

Section ImportFacts.
Import RegExp MatcherSpec Hooks Canonical EngineSpec.

Lemma m_chr_hit ic (p : ascii -> bool) k ps c tl cs :
  p c = true -> m ic (Chr p) k (st ps (c :: tl) cs) = k (st (S ps) tl cs).
Proof. intros H. simpl. now rewrite H. Qed.

Lemma m_chr_miss ic (p : ascii -> bool) k ps c tl cs :
  p c = false -> m ic (Chr p) k (st ps (c :: tl) cs) = None.
Proof. intros H. simpl. now rewrite H. Qed.

Lemma quote_upper q x :
  q = DQUOTE \/ q = "'"%char -> chr_eq (upper q) (upper x) = chr_eq q x.
Proof.
  intros [-> | ->]; destruct x as [[] [] [] [] [] [] [] []]; reflexivity.
Qed.

Lemma quote_not_space q : q = DQUOTE \/ q = "'"%char -> is_space q = false.
Proof. intros [-> | ->]; reflexivity. Qed.

(** The closing step: with both captures set, the back-reference eats
    the closing quote. *)
Lemma closing_quote q ps post path :
  q = DQUOTE \/ q = "'"%char ->
  m true (Backref 1) (m true Empty Some)
    (st ps (q :: post) [(2, path); (1, [q])])
  = Some (st (ps + 1) post [(2, path); (1, [q])]).
Proof.
  intros Hq. simpl. rewrite quote_upper by assumption.
  unfold chr_eq. now rewrite Ascii.eqb_refl.
Qed.

Lemma closing_quote_miss q ps x tl cs path :
  q = DQUOTE \/ q = "'"%char -> x <> q ->
  m true (Backref 1) (m true Empty Some)
    (st ps (x :: tl) ((2, path) :: (1, [q]) :: cs))
  = None.
Proof.
  intros Hq Hx. simpl. rewrite quote_upper by assumption.
  unfold chr_eq. destruct (Ascii.eqb_spec q x); [congruence|reflexivity].
Qed.

Lemma any_class_ok x : x <> LF -> x <> CR -> any_class x = true.
Proof.
  intros H1 H2. unfold any_class, chr_eq.
  destruct (Ascii.eqb_spec x LF); [congruence|].
  destruct (Ascii.eqb_spec x CR); [congruence|reflexivity].
Qed.

(** The lazy star walks to the closing quote. *)
Lemma lazy_to_quote q body post whole captured ps :
  q = DQUOTE \/ q = "'"%char ->
  Forall (fun c => c <> q /\ c <> LF /\ c <> CR) body ->
  firstn (length whole - length (q :: post)) whole = captured ->
  let kG := fun s' : mstate =>
              m true (Backref 1) (m true Empty Some)
                {| pos := pos s'; rest := rest s';
                   caps := (2, firstn (length whole - length (rest s')) whole)
                             :: caps s' |} in
  lazy_run any_class (m true Empty kG) ps (body ++ q :: post) [(1, [q])]
  = Some (st (ps + length body + 1) post [(2, captured); (1, [q])]).
Proof.
  intros Hq Hb Hcap kG. rewrite lazy_run_until.
  - unfold lazy_run. fold lazy_run.
    change (m true Empty kG (st (ps + length body) (q :: post) [(1, [q])]))
      with (m true (Backref 1) (m true Empty Some)
              (st (ps + length body) (q :: post)
                  [(2, firstn (length whole - length (q :: post)) whole); (1, [q])])).
    rewrite Hcap, closing_quote by assumption. reflexivity.
  - eapply Forall_impl; [|exact Hb]. intros x (_ & H1 & H2).
    now apply any_class_ok.
  - intros ps' x tl Hx. rewrite Forall_forall in Hb. destruct (Hb x Hx) as (Hxq & _).
    change (m true Empty kG (st ps' (x :: tl) [(1, [q])]))
      with (m true (Backref 1) (m true Empty Some)
              (st ps' (x :: tl)
                  ((2, firstn (length whole - length (x :: tl)) whole) :: [(1, [q])]))).
    now apply closing_quote_miss.
Qed.

Lemma m_seq ic a b k s : m ic (Seq a b) k s = m ic a (m ic b k) s.
Proof. reflexivity. Qed.

Lemma m_alt ic a b k s : m ic (Alt a b) k s = orelse (m ic a k s) (m ic b k s).
Proof. reflexivity. Qed.

Lemma m_empty ic k s : m ic Empty k s = k s.
Proof. reflexivity. Qed.

Lemma m_group ic n a k ps r cs :
  m ic (Group n a) k (st ps r cs)
  = m ic a (fun s' => k (st (pos s') (rest s')
                            ((n, firstn (length r - length (rest s')) r) :: caps s')))
      (st ps r cs).
Proof. reflexivity. Qed.

Lemma firstn_one {A} (x : A) (r : list A) :
  firstn (length (x :: r) - length r) (x :: r) = [x].
Proof. simpl length. now replace (S (length r) - length r) with 1 by lia. Qed.

(** The quoted path: opening quote, [./] or [../], the rest of the path
    up to the same quote. *)
Lemma quoted_match q path post ps :
  q = DQUOTE \/ q = "'"%char ->
  (exists body, path = str "./" ++ body \/ path = str "../" ++ body) ->
  Forall (fun c => c <> q /\ c <> LF /\ c <> CR) path ->
  m true QUOTED Some (st ps (q :: path ++ q :: post) [])
  = Some (st (ps + 1 + length path + 1) post [(2, path); (1, [q])]).
Proof.
  intros Hq [body Hpath] Hb.
  assert (Hcap : firstn (length (path ++ q :: post) - length (q :: post))
                        (path ++ q :: post) = path)
    by apply firstn_length_app.
  assert (Hbody : Forall (fun c => c <> q /\ c <> LF /\ c <> CR) body).
  { destruct Hpath as [-> | ->]; simpl in Hb;
      repeat match goal with H : Forall _ (_ :: _) |- _ => inversion H; clear H; subst end;
      assumption. }
  pose proof (fun n => lazy_to_quote q body post (path ++ q :: post) path n Hq Hbody Hcap)
    as Hlazy.
  cbv zeta in Hlazy.
  unfold QUOTED, seqs, fold_right.
  rewrite m_seq, m_group.
  assert (Hopen :
    forall k, m true (Alt (chr DQUOTE) (chr "'"%char)) k
                (st ps (q :: path ++ q :: post) [])
              = k (st (S ps) (path ++ q :: post) [])).
  { intros k. rewrite m_alt. unfold chr.
    destruct Hq as [-> | ->].
    - rewrite m_chr_hit by reflexivity. now destruct (k _).
    - rewrite m_chr_miss by reflexivity. now rewrite m_chr_hit by reflexivity. }
  rewrite Hopen. cbn [pos rest caps]. rewrite firstn_one.
  rewrite m_seq, m_group. unfold opt, chr.
  destruct Hpath as [-> | ->]; cbn [app str list_ascii_of_string] in *.
  - rewrite m_seq, m_chr_hit by reflexivity.
    rewrite m_seq, m_alt, m_chr_miss by reflexivity. cbn [orelse].
    rewrite m_empty, m_seq, m_chr_hit by reflexivity.
    rewrite m_seq. unfold any. rewrite m_star_lazy.
    etransitivity; [exact (Hlazy _)|]. f_equal. f_equal. simpl. lia.
  - rewrite m_seq, m_chr_hit by reflexivity.
    rewrite m_seq, m_alt, m_chr_hit by reflexivity.
    rewrite m_seq, m_chr_hit by reflexivity.
    rewrite m_seq. unfold any. rewrite m_star_lazy.
    replace (lazy_run _ _ _ _ _)
      with (Some (st (S (S (S (S ps))) + length body + 1) post
                     [(2, "."%char :: "."%char :: "/"%char :: body); (1, [q])]))
      by (symmetry; exact (Hlazy _)).
    cbn [orelse]. f_equal. f_equal. simpl. lia.
Qed.

Lemma eat_use r : eat true (str "@use") (str "@use" ++ r) = Some r.
Proof. reflexivity. Qed.

Lemma eat_import r : eat true (str "@import") (str "@import" ++ r) = Some r.
Proof. reflexivity. Qed.

Lemma eat_import_on_use r : eat true (str "@import") (str "@use" ++ r) = None.
Proof. reflexivity. Qed.

Lemma eat_use_on_import r : eat true (str "@use") (str "@import" ++ r) = None.
Proof. reflexivity. Qed.

Lemma pattern_unfold :
  pattern RELATIVE_IMPORT_REGEX
  = Seq (Alt (lit_i (str "@use")) (lit_i (str "@import")))
        (Seq (Seq space (Star true space)) QUOTED).
Proof. reflexivity. Qed.

(** A statement is matched as a whole, the path being the second
    capture. *)
Lemma statement_match kw ws q path post ps :
  kw = str "@use" \/ kw = str "@import" ->
  ws <> [] -> Forall (fun c => is_space c = true) ws ->
  q = DQUOTE \/ q = "'"%char ->
  (exists body, path = str "./" ++ body \/ path = str "../" ++ body) ->
  Forall (fun c => c <> q /\ c <> LF /\ c <> CR) path ->
  exists pe,
    m true (pattern RELATIVE_IMPORT_REGEX) Some
      (st ps (statement kw ws q path ++ post) [])
    = Some (st pe post [(2, path); (1, [q])]).
Proof.
  intros Hkw Hne Hws Hq Hpath Hb.
  destruct ws as [|w ws]; [congruence|]. inversion Hws as [|? ? Hw Hws']; subst.
  assert (Hmid : forall p,
    m true (Seq space (Star true space)) (m true QUOTED Some)
      (st p ((w :: ws) ++ q :: path ++ q :: post) [])
    = Some (st (S p + length ws + 1 + length path + 1) post [(2, path); (1, [q])])).
  { intros p. rewrite m_seq. unfold space. cbn [app].
    rewrite m_chr_hit by assumption. rewrite m_star_greedy.
    apply greedy_run_longest; [assumption|now apply quote_not_space|].
    now apply quoted_match. }
  assert (Htext : forall k, statement k (w :: ws) q path ++ post
                            = k ++ (w :: ws) ++ q :: path ++ q :: post).
  { intros k. unfold statement. repeat rewrite <- app_assoc. simpl.
    repeat (f_equal; repeat rewrite <- app_assoc; simpl). }
  rewrite Htext, pattern_unfold, m_seq, m_alt.
  rewrite !m_lit_i by discriminate.
  destruct Hkw as [-> | ->].
  - rewrite eat_use, eat_import_on_use. cbv beta iota.
    rewrite m_seq, Hmid. eexists. reflexivity.
  - rewrite eat_use_on_import, eat_import. cbv beta iota.
    rewrite m_seq, Hmid. eexists. reflexivity.
Qed.

Lemma not_at c : c <> "@"%char -> chr_eq (upper "@"%char) (upper c) = false.
Proof.
  intros H. unfold chr_eq. destruct (Ascii.eqb_spec (upper "@"%char) (upper c)) as [E|];
    [|reflexivity].
  exfalso. apply H. apply upper_at. now rewrite <- E.
Qed.

(** No statement begins where there is no [@]. *)
Lemma at_free_no_match pre rest :
  Forall (fun c => c <> "@"%char) pre ->
  no_match_begins RELATIVE_IMPORT_REGEX pre rest.
Proof.
  intros Hpre p1 c p2 ps E.
  assert (Hc : c <> "@"%char).
  { rewrite Forall_forall in Hpre. apply Hpre. rewrite E.
    apply in_or_app. right. now left. }
  cbn [ignoreCase RELATIVE_IMPORT_REGEX].
  rewrite pattern_unfold, m_seq, m_alt, !m_lit_i by discriminate.
  change (eat true (str "@use") (c :: p2 ++ rest))
    with (if chr_eq (upper "@"%char) (upper c)
          then eat true (str "use") (p2 ++ rest) else None).
  change (eat true (str "@import") (c :: p2 ++ rest))
    with (if chr_eq (upper "@"%char) (upper c)
          then eat true (str "import") (p2 ++ rest) else None).
  now rewrite not_at.
Qed.

Lemma search_skip re pre rest : forall sk p,
  no_match_begins re pre rest ->
  search re sk p (pre ++ rest) = search re (rev pre ++ sk) (p + length pre) rest.
Proof.
  induction pre as [|c pre IH]; intros sk p H.
  - simpl. now rewrite Nat.add_0_r.
  - cbn [app]. unfold search at 1. fold search.
    rewrite (H [] c pre p eq_refl).
    rewrite IH.
    + simpl. rewrite <- app_assoc. simpl. f_equal. lia.
    + intros p1 c' p2 ps E. apply (H (c :: p1) c' p2 ps). simpl. now rewrite E.
Qed.
End ImportFacts.

Section ImportRewriting.
Import RegExp MatcherSpec Hooks Canonical EngineSpec.

Lemma search_hit re sk p input s' :
  m (ignoreCase re) (pattern re) Some (st p input []) = Some s' ->
  search re sk p input
  = Some {| f_skipped := rev sk; f_index := p;
            f_text := firstn (length input - length (rest s')) input;
            f_after := rest s'; f_caps := caps s' |}.
Proof.
  intros H. destruct input; unfold search; fold search; now rewrite H.
Qed.

Lemma rewrite_import_forget cwd h f f' :
  forget_index f = forget_index f' -> rewrite_import cwd h f = rewrite_import cwd h f'.
Proof.
  intros H. destruct (forget_index_fields _ _ H) as (_ & Ht & _ & Hc).
  unfold rewrite_import, capture. now rewrite Ht, Hc.
Qed.

Lemma statement_head kw ws q path :
  kw = str "@use" \/ kw = str "@import" ->
  exists tl, statement kw ws q path = "@"%char :: tl
             /\ startsWith (str "@use") (statement kw ws q path)
                = jseqb kw (str "@use").
Proof.
  intros [-> | ->]; eexists; split; reflexivity.
Qed.

(** One step of the global replacement on a text whose first match is a
    statement. *)
Lemma rewrite_imports_step cwd h pre kw ws q path post :
  no_match_begins RELATIVE_IMPORT_REGEX pre (statement kw ws q path ++ post) ->
  kw = str "@use" \/ kw = str "@import" ->
  ws <> [] -> Forall (fun c => is_space c = true) ws ->
  q = DQUOTE \/ q = "'"%char ->
  (exists body, path = str "./" ++ body \/ path = str "../" ++ body) ->
  Forall (fun c => c <> q /\ c <> LF /\ c <> CR) path ->
  rewrite_imports cwd h (pre ++ statement kw ws q path ++ post)
  = pre
    ++ match fasterSimpleResolveAbsolutePath cwd path (Some (filePath h)) with
       | RPath p => kw ++ str " '" ++ GEN_ID cwd p (FNum 1) ++ str "'"
       | RCode _ => statement kw ws q path
       end
    ++ rewrite_imports cwd h post.
Proof.
  intros Hpre Hkw Hne Hws Hq Hpath Hb.
  destruct (statement_match kw ws q path post (0 + length pre)
              Hkw Hne Hws Hq Hpath Hb) as [pe Hm].
  unfold rewrite_imports, replace_all at 1.
  cbn [replace_all_from].
  rewrite (search_skip _ _ _ [] 0 Hpre).
  rewrite (search_hit RELATIVE_IMPORT_REGEX _ _ _ _ Hm).
  cbn [f_skipped f_text f_after f_index f_caps rest caps].
  rewrite app_nil_r, rev_involutive, firstn_length_app.
  f_equal.
  destruct (statement_head kw ws q path Hkw) as (tl & Hhead & Hstart).
  f_equal.
  - unfold rewrite_import. cbn [f_text f_caps capture cap_get Nat.eqb].
    destruct (fasterSimpleResolveAbsolutePath cwd path (Some (filePath h)));
      [|reflexivity].
    rewrite Hstart. destruct Hkw as [-> | ->]; reflexivity.
  - rewrite Hhead at 1.
    apply replace_all_from_indep.
    + reflexivity.
    + apply rewrite_import_forget.
    + rewrite !length_app. rewrite Hhead. simpl. lia.
    + lia.
Qed.

(** C3, counterexample: a statement written with double quotes comes out
    of [load] with single quotes: the quote style is not kept. *)
Lemma C3_quote_style_not_kept :
  let h := Hook (str "/proj/src/a.scss") None (fun _ => []) in
  let original := statement (str "@use") (str " ") DQUOTE (str "./b") in
  let fs := fun p => if jseqb p (str "/proj/src/a.scss") then Some original else None in
  let registry := JsObject.set (str "@InjectionHooks_ts:/x") h JsObject.empty in
  fasterSimpleResolveAbsolutePath (str "/proj") (str "./b") (Some (filePath h))
    = RPath (str "/proj/src/b")
  /\ load (str "/proj") fs registry (str "@InjectionHooks_ts:/x")
     = LoadString (statement (str "@use") (str " ") "'"%char (str "/proj/src/b"))
  /\ load (str "/proj") fs registry (str "@InjectionHooks_ts:/x")
     <> LoadString (statement (str "@use") (str " ") DQUOTE
                              (GEN_ID (str "/proj") (str "/proj/src/b") (FBool true))).
Proof.
  split; [reflexivity|]. split; [vm_compute; reflexivity|vm_compute; discriminate].
Qed.

(** C3, amended: when the text that [load] has after the marker splice
    is some text in which no statement begins, then a relative statement
    ([@use] or [@import] in lower case, white space, a quote, a path that
    starts with [./] or [../] and stays on its line, the same quote),
    then the rest, [load] returns the first text unchanged, then the
    statement rewritten when its path resolves against the hook's file
    (the key word, one space, and between single quotes [GEN_ID] in mode
    1 of the resolved path, which is that absolute path without a
    prefix) or the statement unchanged when it does not resolve, then
    the rest with its own statements rewritten. *)
Theorem C3_load_rewrites_relative_import
        (cwd id : jsstring) (fs : jsstring -> option jsstring)
        (registry : JsObject.t hook) (h : hook)
        (original pre kw ws path post : jsstring) (q : ascii) :
  carries_prefix id ->
  JsObject.get id registry = Some h ->
  fs (filePath h) = Some original ->
  inject h original = pre ++ statement kw ws q path ++ post ->
  no_match_begins RELATIVE_IMPORT_REGEX pre (statement kw ws q path ++ post) ->
  kw = str "@use" \/ kw = str "@import" ->
  ws <> [] -> Forall (fun c => is_space c = true) ws ->
  q = DQUOTE \/ q = "'"%char ->
  (exists body, path = str "./" ++ body \/ path = str "../" ++ body) ->
  Forall (fun c => c <> q /\ c <> LF /\ c <> CR) path ->
  load cwd fs registry id
  = LoadString
      (pre
       ++ match fasterSimpleResolveAbsolutePath cwd path (Some (filePath h)) with
          | RPath p => kw ++ str " '" ++ GEN_ID cwd p (FNum 1) ++ str "'"
          | RCode _ => statement kw ws q path
          end
       ++ rewrite_imports cwd h post)
  /\ forall p, GEN_ID cwd p (FNum 1)
               = backslash_to_slash (Path.resolve cwd [cwd; p]).
Proof.
  intros Hid Hh Hfs Hinj Hpre Hkw Hne Hws Hq Hpath Hb.
  split; [|intros; apply GEN_ID_absolute].
  unfold load. apply test_prefix_iff in Hid. rewrite Hid, Hh, Hfs. cbn [negb].
  rewrite Hinj. f_equal. now apply rewrite_imports_step.
Qed.

Lemma C3_load_rewrites_relative_import_witness :
  let h := Hook (str "/proj/src/a.scss") None (fun _ => []) in
  let original := str "x; " ++ statement (str "@import") (str "  ") DQUOTE (str "../b")
                      ++ str " as y;" in
  let fs := fun p => if jseqb p (str "/proj/src/a.scss") then Some original else None in
  let registry := JsObject.set (str "@InjectionHooks_ts:/x") h JsObject.empty in
  load (str "/proj") fs registry (str "@InjectionHooks_ts:/x")
  = LoadString
      (str "x; "
       ++ match fasterSimpleResolveAbsolutePath (str "/proj") (str "../b")
                                                (Some (filePath h)) with
          | RPath p => str "@import" ++ str " '" ++ GEN_ID (str "/proj") p (FNum 1)
                           ++ str "'"
          | RCode _ => statement (str "@import") (str "  ") DQUOTE (str "../b")
          end
       ++ rewrite_imports (str "/proj") h (str " as y;"))
  /\ forall p, GEN_ID (str "/proj") p (FNum 1)
               = backslash_to_slash (Path.resolve (str "/proj") [str "/proj"; p]).
Proof.
  intros h original fs registry.
  apply (C3_load_rewrites_relative_import
           (str "/proj") (str "@InjectionHooks_ts:/x") fs registry h original
           (str "x; ") (str "@import") (str "  ") (str "../b") (str " as y;") DQUOTE).
  - apply test_prefix_iff. reflexivity.
  - reflexivity.
  - reflexivity.
  - reflexivity.
  - apply at_free_no_match. repeat constructor; discriminate.
  - now right.
  - discriminate.
  - repeat constructor.
  - now left.
  - exists (str "b"). now right.
  - repeat constructor; discriminate.
Defined.

(** The two scenarios of the specification, on one file: the marker line
    in the middle of the file is replaced by the block around the hook's
    content, the relative [@use] is rewritten, and the [@use] of a path
    that is not relative is left as it is. *)
Example load_scenarios :
  let content := str "$themes: ();" in
  let h := Hook (str "/proj/src/scss/global/_variables.scss") None (fun _ => content) in
  let original :=
    str "a" ++ LF :: str "// {generate-global-css-vars.ts: variables}" ++ LF
        :: str "@use './skins/dark';" ++ LF :: str "@use 'other/non-matching';" in
  let fs := fun p => if jseqb p (filePath h) then Some original else None in
  let registry := JsObject.set (str "@InjectionHooks_ts:/v") h JsObject.empty in
  load (str "/proj") fs registry (str "@InjectionHooks_ts:/v")
  = LoadString
      (str "a" ++ injection_block (getCommentSyntax (filePath h)) content
           ++ str "@use '/proj/src/scss/global/skins/dark';" ++ LF
           :: str "@use 'other/non-matching';").
Proof. vm_compute. reflexivity. Qed.

(** Only the first marker is replaced. *)
Example inject_first_marker_only :
  let h := Hook (str "a.css") None (fun _ => str "x") in
  let marker := str "// {generate-global-css-vars.ts: v}" in
  inject h (marker ++ LF :: marker)
  = injection_block (getCommentSyntax (filePath h)) (str "x") ++ marker.
Proof. vm_compute. reflexivity. Qed.
End ImportRewriting.

(* ===================================================================== *)
(** * The base converter: values, composition, presets *)
(* ===================================================================== *)

Section NumeralFacts.
Import Base BaseSpec NumeralSpec Presets.

Lemma val_ge_length base l : forall acc,
  (2 <= base)%Z -> (1 <= acc)%Z ->
  (acc + Z.of_nat (length l) <= val base l acc)%Z.
Proof.
  induction l as [|d l IH]; intros acc Hb Ha.
  - simpl. lia.
  - change (val base (d :: l) acc) with (val base l (acc * base + Z.of_nat d)).
    specialize (IH (acc * base + Z.of_nat d)%Z Hb ltac:(nia)).
    simpl length. nia.
Qed.

(** A canonical numeral has no more digits than its value. *)
Lemma canonical_length_le n ds :
  2 <= n -> canonical n ds ->
  (Z.of_nat (length ds) <= val (Z.of_nat n) ds 0)%Z.
Proof.
  intros Hn [Hlt Hhd]. destruct ds as [|d l]; [simpl; lia|].
  specialize (Hhd d l eq_refl).
  change (val (Z.of_nat n) (d :: l) 0)
    with (val (Z.of_nat n) l (0 * Z.of_nat n + Z.of_nat d)).
  pose proof (val_ge_length (Z.of_nat n) l (0 * Z.of_nat n + Z.of_nat d)%Z
                            ltac:(lia) ltac:(lia)).
  simpl length. lia.
Qed.

Lemma strip0_fixed n ds : canonical n ds -> strip0 ds = ds.
Proof.
  intros [_ Hhd]. destruct ds as [|d l]; [reflexivity|].
  specialize (Hhd d l eq_refl). destruct d; [congruence|reflexivity].
Qed.

Lemma value_nonneg a v : (0 <= value a v)%Z.
Proof. unfold value. apply val_nonneg; lia. Qed.

(** What a successful conversion returns, with the number of iterations
    the loop is given stated in terms of the value. *)
Lemma convertBase_returns (a b : alphabet_arg) (v : jsstring) :
  alphabet a -> alphabet b -> 2 <= length (symbols b) -> composed_of a v ->
  forall fuel, Z.to_nat (value a v) <= fuel ->
    exists w,
      convertBase fuel v a b = Returned w
      /\ composed_of b w
      /\ value b w = value a v
      /\ w <> []
      /\ normalized b w = w.
Proof.
  intros Ha Hb Hlb Hv fuel Hfuel.
  pose proof (value_nonneg a v) as Hnum.
  unfold value in *.
  destruct (alphabet_inv a Ha) as (sa & Hna & Hsa & Hda & H1a).
  destruct (alphabet_inv b Hb) as (sb & Hnb & Hsb & Hdb & H1b).
  unfold composed_of, normalized, zero_symbol in *.
  rewrite Hsa in *. rewrite Hsb in *. clear Hsa Hsb.
  set (na := Z.of_nat (length sa)) in *. set (nb := Z.of_nat (length sb)) in *.
  set (num := val na (digits sa v) 0) in *.
  destruct (canonical_exists (length sb) Hlb num Hnum) as (es & Hes & Hval).
  fold nb in Hval.
  pose proof (canonical_length_le _ _ Hlb Hes) as Hlen. fold nb in Hlen.
  rewrite (convertBase_checked fuel v a b sa sb) by assumption.
  fold na. fold num. cbv zeta.
  destruct sb as [|b0 sb']; [simpl in Hlb; lia|].
  destruct (Z.eqb_spec num 0) as [Hz|Hnz].
  - simpl nth_error. exists b0.
    assert (Hb0 : In b0 (b0 :: sb')) by now left.
    rewrite Forall_forall in H1b. pose proof (H1b _ Hb0) as Hl1.
    destruct b0 as [|c0 [|? ?]]; try discriminate.
    split; [reflexivity|]. split; [constructor; [assumption|constructor]|].
    split.
    + unfold digits, map. rewrite index_of_hd. simpl. lia.
    + split; [discriminate|]. simpl. now rewrite jseqb_refl.
  - assert (Hesne : es <> []) by (intros ->; simpl in Hval; congruence).
    rewrite <- Hval.
    rewrite (toDigits_canonical _ es Hes) by lia.
    rewrite app_nil_r. exists (render (b0 :: sb') es).
    destruct Hes as [Hel Heh].
    pose proof (render_single _ _ H1b Hel) as Hw.
    split; [reflexivity|]. split; [assumption|].
    split; [now rewrite digits_render by assumption|].
    assert (Hne : render (b0 :: sb') es <> []).
    { intros E. apply render_nil_inv in E; try assumption. contradiction. }
    split; [assumption|].
    pose proof (render_strip0 _ _ Hw) as Hr.
    rewrite digits_render in Hr by assumption.
    rewrite (strip0_fixed (length (b0 :: sb')) es) in Hr by (split; assumption).
    rewrite <- Hr.
    destruct (render (b0 :: sb') es); [congruence|reflexivity].
Qed.

(** Converting into the alphabet a numeral is written in only
    normalizes it. *)
Lemma convertBase_same (a : alphabet_arg) (v : jsstring) :
  alphabet a -> 2 <= length (symbols a) -> composed_of a v ->
  forall fuel, Z.to_nat (value a v) <= fuel ->
    convertBase fuel v a a = Returned (normalized a v).
Proof.
  intros Ha Hla Hv fuel Hfuel.
  pose proof (value_nonneg a v) as Hnum.
  unfold value in *.
  destruct (alphabet_inv a Ha) as (sa & Hna & Hsa & Hda & H1a).
  unfold composed_of, normalized, zero_symbol in *.
  rewrite Hsa in *. clear Hsa.
  set (na := Z.of_nat (length sa)) in *.
  set (num := val na (digits sa v) 0) in *.
  pose proof (digits_lt sa v Hv) as Hdl.
  pose proof (strip0_canonical _ _ Hdl) as Hcs.
  pose proof (canonical_length_le _ _ Hla Hcs) as Hlen.
  rewrite val_strip0 in Hlen. fold na in Hlen. fold num in Hlen.
  rewrite (convertBase_checked fuel v a a sa sa) by assumption.
  fold na. fold num. cbv zeta.
  destruct sa as [|a0 sa']; [simpl in Hla; lia|].
  destruct (Z.eqb_spec num 0) as [Hz|Hnz].
  - simpl nth_error.
    assert (Hs0 : strip0 (digits (a0 :: sa') v) = []).
    { destruct (list_eq_dec Nat.eq_dec (strip0 (digits (a0 :: sa') v)) [])
        as [|Hne]; [assumption|exfalso].
      pose proof (canonical_pos _ _ Hcs Hne) as Hp.
      rewrite val_strip0 in Hp. change (1 <= num)%Z in Hp. lia. }
    pose proof (render_strip0 _ _ Hv) as Hr. rewrite Hs0 in Hr.
    change (render (a0 :: sa') []) with (@nil ascii) in Hr.
    rewrite <- Hr. reflexivity.
  - unfold num. rewrite <- val_strip0.
    rewrite (toDigits_canonical _ _ Hcs) by lia.
    rewrite app_nil_r, render_strip0 by assumption.
    destruct (strip_leading (hd [] (a0 :: sa')) v) eqn:E; [|reflexivity].
    exfalso. rewrite <- render_strip0 in E by assumption.
    apply render_nil_inv in E; try assumption; [|apply Hcs].
    unfold num in Hnz. rewrite <- val_strip0, E in Hnz. now apply Hnz.
Qed.

(** The outcome of a conversion depends on the value of the numeral
    only. *)
Lemma convertBase_by_value fuel a b c v w :
  alphabet a -> alphabet b -> accepted c ->
  composed_of a v -> composed_of b w -> value b w = value a v ->
  convertBase fuel w b c = convertBase fuel v a c.
Proof.
  intros Ha Hb [Hnc Hdc] Hv Hw Hval. unfold value in Hval.
  destruct (alphabet_inv a Ha) as (sa & Hna & Hsa & Hda & H1a).
  destruct (alphabet_inv b Hb) as (sb & Hnb & Hsb & Hdb & H1b).
  unfold composed_of, symbols in *.
  destruct (normalizeBase c) as [sc|] eqn:Ec; [|congruence].
  rewrite Hna in *. rewrite Hnb in *.
  rewrite (convertBase_checked fuel w b c sb sc) by assumption.
  rewrite (convertBase_checked fuel v a c sa sc) by assumption.
  now rewrite Hval.
Qed.

Lemma round_trip_via (a b : alphabet_arg) (v : jsstring) :
  alphabet a -> alphabet b ->
  2 <= length (symbols a) -> 2 <= length (symbols b) ->
  composed_of a v ->
  forall fuel, Z.to_nat (value a v) <= fuel ->
    exists w, convertBase fuel v a b = Returned w
              /\ convertBase fuel w b a = Returned (normalized a v).
Proof.
  intros Ha Hb Hla Hlb Hv fuel Hfuel.
  destruct (convertBase_returns a b v Ha Hb Hlb Hv fuel Hfuel)
    as (w & Hw & Hcw & Hvw & _).
  exists w. split; [assumption|].
  rewrite (convertBase_by_value fuel a b a v w); try assumption.
  - now apply convertBase_same.
  - destruct Ha as (H1 & H2 & _). split; assumption.
Qed.

Lemma decimal_alphabet : alphabet decimal.
Proof. apply alphabet_of_string. reflexivity. Qed.

Lemma base32_alphabet : alphabet (AString BASE32_ALPHABET).
Proof. apply alphabet_of_string. reflexivity. Qed.

Lemma base62_alphabet : alphabet (AString BASE62_ALPHABET).
Proof. apply alphabet_of_string. vm_compute. reflexivity. Qed.

Lemma base64_alphabet : alphabet (AString BASE64_URLSAFE_ALPHABET).
Proof. apply alphabet_of_string. vm_compute. reflexivity. Qed.

Lemma base96_alphabet : alphabet (AString BASE96_URLSAFE_ALPHABET).
Proof. apply alphabet_of_string. vm_compute. reflexivity. Qed.

(** X1: a conversion between two alphabets of unique single-character
    symbols, the destination with at least two of them, returns a
    numeral of the destination alphabet that denotes the same number as
    the value, is not empty and has no leading zero symbol (it is its own
    normal form).  The loop needs no more iterations than the number
    denoted. *)
Theorem convertBase_preserves_value (a b : alphabet_arg) (v : jsstring)
        (fuel : nat) :
  alphabet a -> alphabet b -> 2 <= length (symbols b) -> composed_of a v ->
  Z.to_nat (value a v) <= fuel ->
  exists w,
    convertBase fuel v a b = Returned w
    /\ composed_of b w
    /\ value b w = value a v
    /\ w <> []
    /\ normalized b w = w.
Proof. intros Ha Hb Hlb Hv Hfuel. now apply convertBase_returns. Qed.

Lemma convertBase_preserves_value_witness :
  exists w,
    convertBase 255 (str "00FF") (AString BASE16) (AString BASE32_ALPHABET)
      = Returned w
    /\ composed_of (AString BASE32_ALPHABET) w
    /\ value (AString BASE32_ALPHABET) w = value (AString BASE16) (str "00FF")
    /\ w <> []
    /\ normalized (AString BASE32_ALPHABET) w = w.
Proof.
  apply (convertBase_preserves_value (AString BASE16) (AString BASE32_ALPHABET)
                                     (str "00FF") 255).
  - apply alphabet_of_string. reflexivity.
  - apply alphabet_of_string. reflexivity.
  - simpl. lia.
  - unfold composed_of. simpl. repeat constructor; simpl; tauto.
  - vm_compute. lia.
Defined.

(** X2: converting through an intermediate alphabet gives what the
    direct conversion gives: for alphabets [a] and [b] of unique
    single-character symbols, [b] with at least two, and any destination
    [c] that passes the duplicate check,
    [convertBase(convertBase(v, a, b), b, c)] ends as
    [convertBase(v, a, c)] does. *)
Theorem convertBase_compose (a b c : alphabet_arg) (v : jsstring) (fuel : nat) :
  alphabet a -> alphabet b -> accepted c ->
  2 <= length (symbols b) -> composed_of a v ->
  Z.to_nat (value a v) <= fuel ->
  exists w,
    convertBase fuel v a b = Returned w
    /\ convertBase fuel w b c = convertBase fuel v a c.
Proof.
  intros Ha Hb Hc Hlb Hv Hfuel.
  destruct (convertBase_returns a b v Ha Hb Hlb Hv fuel Hfuel)
    as (w & Hw & Hcw & Hvw & _).
  exists w. split; [assumption|].
  now apply convertBase_by_value.
Qed.

Lemma convertBase_compose_witness :
  exists w,
    convertBase 255 (str "255") decimal (AString (str "01")) = Returned w
    /\ convertBase 255 w (AString (str "01")) (AString BASE16)
       = convertBase 255 (str "255") decimal (AString BASE16).
Proof.
  apply (convertBase_compose decimal (AString (str "01")) (AString BASE16)
                             (str "255") 255).
  - exact decimal_alphabet.
  - apply alphabet_of_string. reflexivity.
  - apply accepted_of_string. reflexivity.
  - simpl. lia.
  - unfold composed_of. simpl. repeat constructor; simpl; tauto.
  - vm_compute. lia.
Defined.



(** X4: the four preset alphabets pass the checks of the converter, and
    each pair of preset converters is a round trip on decimal numerals:
    for a value of decimal digits, [convertToBase32] (and 62, 64Url, 96)
    with the default source alphabet returns a numeral that
    [convertFromBase32] (and 62, 64Url, 96) with the default destination
    alphabet converts back to the value without its leading zeros. *)
Theorem preset_round_trips (v : jsstring) (fuel : nat) :
  composed_of decimal v -> Z.to_nat (value decimal v) <= fuel ->
  (exists w, convertToBase32 fuel v None = Returned w
             /\ convertFromBase32 fuel w None = Returned (normalized decimal v))
  /\ (exists w, convertToBase62 fuel v None = Returned w
                /\ convertFromBase62 fuel w None = Returned (normalized decimal v))
  /\ (exists w, convertToBase64Url fuel v None = Returned w
                /\ convertFromBase64Url fuel w None
                   = Returned (normalized decimal v))
  /\ (exists w, convertToBase96 fuel v None = Returned w
                /\ convertFromBase96 fuel w None = Returned (normalized decimal v)).
Proof.
  intros Hv Hfuel.
  repeat split.
  - apply (round_trip_via decimal (AString BASE32_ALPHABET) v);
      try assumption; try (simpl; lia).
    + exact decimal_alphabet.
    + exact base32_alphabet.
  - apply (round_trip_via decimal (AString BASE62_ALPHABET) v);
      try assumption; try (simpl; lia).
    + exact decimal_alphabet.
    + exact base62_alphabet.
  - apply (round_trip_via decimal (AString BASE64_URLSAFE_ALPHABET) v);
      try assumption; try (simpl; lia).
    + exact decimal_alphabet.
    + exact base64_alphabet.
  - apply (round_trip_via decimal (AString BASE96_URLSAFE_ALPHABET) v);
      try assumption; try (vm_compute; lia).
    + exact decimal_alphabet.
    + exact base96_alphabet.
Qed.

Lemma preset_round_trips_witness :
  (exists w, convertToBase32 2024 (str "02024") None = Returned w
             /\ convertFromBase32 2024 w None
                = Returned (normalized decimal (str "02024")))
  /\ (exists w, convertToBase62 2024 (str "02024") None = Returned w
                /\ convertFromBase62 2024 w None
                   = Returned (normalized decimal (str "02024")))
  /\ (exists w, convertToBase64Url 2024 (str "02024") None = Returned w
                /\ convertFromBase64Url 2024 w None
                   = Returned (normalized decimal (str "02024")))
  /\ (exists w, convertToBase96 2024 (str "02024") None = Returned w
                /\ convertFromBase96 2024 w None
                   = Returned (normalized decimal (str "02024"))).
Proof.
  apply (preset_round_trips (str "02024") 2024).
  - unfold composed_of. simpl. repeat constructor; simpl; tauto.
  - vm_compute. lia.
Defined.
(** X24: the converter separates values: for alphabets [a] and [b] of
    unique single-character symbols, [b] with at least two, two inputs
    written in [a] get the same result exactly when they denote the same
    number; inputs that differ only in leading zero symbols collide, and
    no other two do. *)
Theorem convertBase_separates_values (a b : alphabet_arg) (v v' : jsstring)
        (fuel : nat) :
  alphabet a -> alphabet b -> 2 <= length (symbols b) ->
  composed_of a v -> composed_of a v' ->
  Z.to_nat (value a v) <= fuel -> Z.to_nat (value a v') <= fuel ->
  (convertBase fuel v a b = convertBase fuel v' a b
   <-> value a v = value a v').
Proof.
  intros Ha Hb Hlb Hv Hv' Hf Hf'. split.
  - intros E.
    destruct (convertBase_returns a b v Ha Hb Hlb Hv fuel Hf)
      as (w & Hw & _ & Hvw & _).
    destruct (convertBase_returns a b v' Ha Hb Hlb Hv' fuel Hf')
      as (w' & Hw' & _ & Hvw' & _).
    rewrite Hw, Hw' in E. injection E as ->. congruence.
  - intros E. symmetry.
    apply (convertBase_by_value fuel a a b v v'); try assumption.
    + destruct Hb as (H1 & H2 & _). split; assumption.
    + now symmetry.
Qed.

Lemma convertBase_separates_values_witness :
  convertBase 255 (str "00FF") (AString BASE16) (AString BASE32_ALPHABET)
  = convertBase 255 (str "FF") (AString BASE16) (AString BASE32_ALPHABET)
  <-> value (AString BASE16) (str "00FF") = value (AString BASE16) (str "FF").
Proof.
  apply (convertBase_separates_values (AString BASE16) (AString BASE32_ALPHABET)
                                      (str "00FF") (str "FF") 255).
  - apply alphabet_of_string. reflexivity.
  - apply alphabet_of_string. reflexivity.
  - simpl. lia.
  - unfold composed_of. simpl. repeat constructor; simpl; tauto.
  - unfold composed_of. simpl. repeat constructor; simpl; tauto.
  - vm_compute. lia.
  - vm_compute. lia.
Defined.

End NumeralFacts.

(* ===================================================================== *)
(** * The short ids of theme variables *)
(* ===================================================================== *)

Section ThemeIdFacts.
Import Base BaseSpec NumeralSpec Presets ThemeIds ThemeIdsSpec.

Lemma digit_char_symbol d :
  d < 10 -> index_of [digit_char d] (symbols decimal) = Some d.
Proof.
  intros H.
  do 10 (destruct d as [|d]; [reflexivity|]). lia.
Qed.

(** The digits that [toString] prints, read as a decimal numeral, give
    the number back. *)
Lemma toString_loop_spec fuel : forall n acc,
  n <= fuel ->
  exists ds,
    toString_loop fuel n acc = ds ++ acc
    /\ composed_of decimal ds
    /\ val 10 (digits (symbols decimal) ds) 0 = Z.of_nat n.
Proof.
  induction fuel as [|fuel IH]; intros n acc Hn.
  - assert (n = 0) by lia. subst n. exists [digit_char 0].
    split; [reflexivity|]. split; [|reflexivity].
    constructor; [|constructor]. vm_compute. tauto.
  - cbn [toString_loop]. destruct (Nat.ltb_spec n 10) as [Hlt|Hge].
    + exists [digit_char (n mod 10)].
      rewrite Nat.mod_small by assumption.
      split; [reflexivity|]. split.
      * constructor; [|constructor]. apply index_of_In.
        exists n. now apply digit_char_symbol.
      * unfold digits, map. rewrite digit_char_symbol by assumption.
        simpl. lia.
    + assert (Hq : n / 10 <= fuel).
      { pose proof (Nat.div_lt n 10 ltac:(lia) ltac:(lia)). lia. }
      destruct (IH (n / 10) (digit_char (n mod 10) :: acc) Hq)
        as (ds & Hds & Hc & Hv).
      pose proof (Nat.mod_upper_bound n 10 ltac:(lia)) as Hm.
      exists (ds ++ [digit_char (n mod 10)]). split; [|split].
      * rewrite Hds, <- app_assoc. reflexivity.
      * apply Forall_app. split; [assumption|].
        constructor; [|constructor]. apply index_of_In.
        exists (n mod 10). now apply digit_char_symbol.
      * unfold digits. rewrite map_app. fold (digits (symbols decimal) ds).
        rewrite val_app, Hv. unfold map. rewrite digit_char_symbol by assumption.
        unfold val. cbn [fold_left].
        pose proof (Nat.div_mod_eq n 10). lia.
Qed.

Lemma toString_spec n :
  composed_of decimal (toString n) /\ value decimal (toString n) = Z.of_nat n.
Proof.
  destruct (toString_loop_spec n n [] (le_n n)) as (ds & Hds & Hc & Hv).
  unfold toString. rewrite Hds, app_nil_r. split; assumption.
Qed.

Lemma id_of_returns k :
  exists w,
    id_of k = Returned w
    /\ composed_of (AString BASE32_ALPHABET) w
    /\ value (AString BASE32_ALPHABET) w = Z.of_nat k
    /\ w <> []
    /\ normalized (AString BASE32_ALPHABET) w = w.
Proof.
  destruct (toString_spec k) as [Hc Hv].
  destruct (convertBase_returns decimal (AString BASE32_ALPHABET) (toString k)
              decimal_alphabet base32_alphabet ltac:(simpl; lia) Hc k
              ltac:(rewrite Hv; lia))
    as (w & Hw & Hcw & Hvw & Hne & Hn).
  exists w. rewrite Hvw, Hv. repeat split; assumption.
Qed.

Lemma id_of_inj k k' : id_of k = id_of k' -> k = k'.
Proof.
  intros E.
  destruct (id_of_returns k) as (w & Hw & _ & Hv & _).
  destruct (id_of_returns k') as (w' & Hw' & _ & Hv' & _).
  rewrite Hw, Hw' in E. injection E as ->. lia.
Qed.

(** One call, in closed form. *)
Lemma generateUniqueThemeId_step name s :
  generateUniqueThemeId name s
  = match JsMap.get name (generatedIds s) with
    | Some id => (id, s)
    | None =>
        (id_of (counter s),
         {| generatedIds := JsMap.set name (id_of (counter s)) (generatedIds s);
            counter := S (counter s) |})
    end.
Proof.
  unfold generateUniqueThemeId.
  destruct (JsMap.get name (generatedIds s)); [reflexivity|].
  change (convertToBase32 (counter s) (toString (counter s))
                          (Some (AString BASE10_ALPHABET)))
    with (id_of (counter s)).
  destruct (id_of_returns (counter s)) as (w & Hw & _).
  rewrite Hw. reflexivity.
Qed.

Lemma get_None_notin {V} k (m : JsMap.t V) :
  JsMap.get k m = None -> ~ In k (map fst m).
Proof.
  induction m as [|[k' v'] m IH]; simpl; [tauto|].
  destruct (jsstring_dec k k') as [->|Hne]; [discriminate|].
  intros H [E|Hin]; [congruence|]. now apply IH.
Qed.

Lemma set_fresh {V} k (v : V) (m : JsMap.t V) :
  JsMap.get k m = None -> JsMap.set k v m = m ++ [(k, v)].
Proof.
  induction m as [|[k' v'] m IH]; simpl; [reflexivity|].
  destruct (jsstring_dec k k') as [->|Hne]; [discriminate|].
  intros H. now rewrite IH.
Qed.

Lemma get_nth {V} k (v : V) (m : JsMap.t V) :
  JsMap.get k m = Some v -> exists i, nth_error m i = Some (k, v).
Proof.
  induction m as [|[k' v'] m IH]; simpl; [discriminate|].
  destruct (jsstring_dec k k') as [->|Hne].
  - intros E. injection E as ->. now exists 0.
  - intros H. destruct (IH H) as [i Hi]. now exists (S i).
Qed.

Lemma get_In_NoDup {V} k (v : V) (m : JsMap.t V) :
  NoDup (map fst m) -> In (k, v) m -> JsMap.get k m = Some v.
Proof.
  induction m as [|[k' v'] m IH]; simpl; [tauto|].
  intros Hnd [E|Hin].
  - injection E as -> ->. destruct (jsstring_dec k k); congruence.
  - inversion Hnd as [|? ? Hnin Hnd']; subst.
    destruct (jsstring_dec k k') as [->|Hne].
    + exfalso. apply Hnin. apply in_map_iff. now exists (k', v).
    + now apply IH.
Qed.

Lemma initial_well_formed : well_formed initial.
Proof. split; [reflexivity|constructor]. Qed.

Lemma step_well_formed name s :
  well_formed s ->
  well_formed (snd (generateUniqueThemeId name s))
  /\ JsMap.get name (generatedIds (snd (generateUniqueThemeId name s)))
     = Some (fst (generateUniqueThemeId name s))
  /\ (forall n r, JsMap.get n (generatedIds s) = Some r ->
                  JsMap.get n (generatedIds (snd (generateUniqueThemeId name s)))
                  = Some r).
Proof.
  intros [Hids Hnd]. rewrite generateUniqueThemeId_step.
  destruct (JsMap.get name (generatedIds s)) as [id|] eqn:E; simpl.
  - split; [split; assumption|]. split; [assumption|]. auto.
  - split; [split|split]; cbn [generatedIds counter].
    + rewrite (set_fresh _ _ _ E), map_app, Hids.
      rewrite seq_S, map_app. reflexivity.
    + rewrite (set_fresh _ _ _ E), map_app. simpl.
      apply NoDup_app; [assumption|repeat constructor; simpl; tauto|].
      intros x Hx [<-|[]]. now apply (get_None_notin _ _ E).
    + apply get_set_same.
    + intros n r Hn. rewrite get_set_other; [assumption|].
      intros ->. congruence.
Qed.

Lemma calls_cons n names s :
  calls (n :: names) s
  = (fst (generateUniqueThemeId n s)
       :: fst (calls names (snd (generateUniqueThemeId n s))),
     snd (calls names (snd (generateUniqueThemeId n s)))).
Proof.
  cbn [calls]. destruct (generateUniqueThemeId n s) as [r s1]. cbn [fst snd].
  destruct (calls names s1) as [rs s2]. reflexivity.
Qed.

(** Every result of a run is what the final map holds for the name. *)
Lemma calls_spec names : forall s,
  well_formed s ->
  well_formed (snd (calls names s))
  /\ (forall n r, JsMap.get n (generatedIds s) = Some r ->
                  JsMap.get n (generatedIds (snd (calls names s))) = Some r)
  /\ Forall2 (fun n r => JsMap.get n (generatedIds (snd (calls names s))) = Some r)
             names (fst (calls names s)).
Proof.
  induction names as [|n names IH]; intros s Hs.
  - simpl. repeat split; [apply Hs|apply Hs|auto|constructor].
  - rewrite calls_cons. cbn [fst snd].
    destruct (step_well_formed n s Hs) as (Hs1 & Hget & Hmono).
    destruct (IH _ Hs1) as (Hs2 & Hmono2 & Hall).
    repeat split; try apply Hs2.
    + intros n' r Hn'. now apply Hmono2, Hmono.
    + constructor; [|assumption]. now apply Hmono2.
Qed.

Lemma nth_error_map_seq {A} (f : nat -> A) n : forall a i r,
  nth_error (map f (seq a n)) i = Some r -> i < n /\ r = f (a + i).
Proof.
  induction n as [|n IH]; intros a i r H; destruct i as [|i]; simpl in H;
    try discriminate.
  - injection H as <-. split; [lia|]. f_equal. lia.
  - apply IH in H. destruct H as [Hlt ->]. split; [lia|]. f_equal. lia.
Qed.

Lemma well_formed_stored s n r :
  well_formed s -> JsMap.get n (generatedIds s) = Some r ->
  exists i, nth_error (generatedIds s) i = Some (n, r) /\ r = id_of i.
Proof.
  intros [Hids _] Hget. destruct (get_nth _ _ _ Hget) as [i Hi].
  exists i. split; [assumption|].
  pose proof (map_nth_error snd _ _ Hi) as Hsnd. rewrite Hids in Hsnd.
  now apply nth_error_map_seq in Hsnd.
Qed.

Lemma well_formed_injective s n1 n2 r :
  well_formed s ->
  JsMap.get n1 (generatedIds s) = Some r ->
  JsMap.get n2 (generatedIds s) = Some r -> n1 = n2.
Proof.
  intros Hs H1 H2.
  destruct (well_formed_stored s n1 r Hs H1) as (i1 & Hi1 & E1).
  destruct (well_formed_stored s n2 r Hs H2) as (i2 & Hi2 & E2).
  assert (i1 = i2) by (apply id_of_inj; congruence). subst i2.
  congruence.
Qed.

Lemma Forall2_nth {A B} (P : A -> B -> Prop) l l' :
  Forall2 P l l' ->
  forall i x y, nth_error l i = Some x -> nth_error l' i = Some y -> P x y.
Proof.
  induction 1 as [|a b l l' H Hall IH]; intros i x y Hx Hy.
  - destruct i; discriminate.
  - destruct i as [|i]; simpl in Hx, Hy.
    + injection Hx as <-. injection Hy as <-. assumption.
    + eapply IH; eassumption.
Qed.

(** X5: in any run of calls that starts with the empty memo and the
    counter at zero, every call returns a string (none throws, none
    fails to end), two calls with the same name return the same id, and
    two calls with different names return different ids. *)
Theorem theme_ids_stable_and_distinct (names : list jsstring) :
  let rs := fst (calls names initial) in
  length rs = length names
  /\ forall i j n1 n2 r1 r2,
       nth_error names i = Some n1 -> nth_error names j = Some n2 ->
       nth_error rs i = Some r1 -> nth_error rs j = Some r2 ->
       (exists w, r1 = Returned w) /\ (n1 = n2 <-> r1 = r2).
Proof.
  cbv zeta.
  destruct (calls_spec names initial initial_well_formed) as (Hwf & _ & Hall).
  split; [symmetry; exact (Forall2_length Hall)|].
  intros i j n1 n2 r1 r2 Hn1 Hn2 Hr1 Hr2.
  pose proof (Forall2_nth _ _ _ Hall) as Hg.
  pose proof (Hg _ _ _ Hn1 Hr1) as G1. pose proof (Hg _ _ _ Hn2 Hr2) as G2.
  split.
  - destruct (well_formed_stored _ _ _ Hwf G1) as (k & _ & ->).
    destruct (id_of_returns k) as (w & Hw & _). now exists w.
  - split.
    + intros <-. congruence.
    + intros E. subst r2. cbv beta in G1, G2.
      exact (well_formed_injective _ n1 n2 r1 Hwf G1 G2).
Qed.

Lemma calls_fresh names : forall s,
  well_formed s -> NoDup names ->
  (forall n, In n names -> JsMap.get n (generatedIds s) = None) ->
  fst (calls names s) = map id_of (seq (counter s) (length names))
  /\ counter (snd (calls names s)) = counter s + length names
  /\ map fst (generatedIds (snd (calls names s)))
     = map fst (generatedIds s) ++ names.
Proof.
  induction names as [|n names IH]; intros s Hs Hnd Hfresh.
  - simpl. rewrite app_nil_r. repeat split; lia.
  - inversion Hnd as [|? ? Hnin Hnd']; subst.
    rewrite calls_cons. cbn [fst snd].
    destruct (step_well_formed n s Hs) as (Hs1 & _ & _).
    rewrite generateUniqueThemeId_step in *.
    rewrite (Hfresh n (or_introl eq_refl)) in *. cbn [fst snd] in *.
    set (s1 := {| generatedIds := JsMap.set n (id_of (counter s)) (generatedIds s);
                  counter := S (counter s) |}) in *.
    destruct (IH s1 Hs1 Hnd') as (Hrs & Hc & Hk).
    { intros n' Hn'. subst s1. simpl.
      rewrite get_set_other by (intros ->; contradiction).
      apply Hfresh. now right. }
    rewrite Hrs, Hc, Hk. subst s1. cbn [generatedIds counter].
    rewrite (set_fresh _ _ _ (Hfresh n (or_introl eq_refl))), map_app.
    cbn [map fst length seq]. rewrite <- app_assoc.
    split; [reflexivity|]. split; [lia|reflexivity].
Qed.

(** X6: ids are handed out in first-seen order: a run over pairwise
    different names that starts with the empty memo returns for the
    name at position [k] (counting from zero) the Base32 numeral of [k],
    without a leading zero symbol; afterwards the counter is the number
    of names and the memo holds the names in their order. *)
Theorem theme_ids_in_first_seen_order (names : list jsstring) :
  NoDup names ->
  exists ws,
    fst (calls names initial) = map Returned ws
    /\ length ws = length names
    /\ counter (snd (calls names initial)) = length names
    /\ map fst (generatedIds (snd (calls names initial))) = names
    /\ forall k w, nth_error ws k = Some w ->
         composed_of (AString BASE32_ALPHABET) w
         /\ value (AString BASE32_ALPHABET) w = Z.of_nat k
         /\ normalized (AString BASE32_ALPHABET) w = w.
Proof.
  intros Hnd.
  destruct (calls_fresh names initial initial_well_formed Hnd
                        ltac:(reflexivity)) as (Hrs & Hc & Hk).
  simpl in Hrs, Hc, Hk.
  exists (map (fun k => match id_of k with Returned w => w | _ => [] end)
              (seq 0 (length names))).
  split; [|split; [|split; [|split]]].
  - rewrite Hrs, map_map. apply map_ext. intros k.
    destruct (id_of_returns k) as (w & -> & _). reflexivity.
  - now rewrite length_map, length_seq.
  - assumption.
  - assumption.
  - intros k w Hw.
    apply nth_error_map_seq in Hw. destruct Hw as [_ ->]. simpl.
    destruct (id_of_returns k) as (w' & Hw' & Hcw & Hv & _ & Hn).
    rewrite Hw'. repeat split; assumption.
Qed.

Lemma theme_ids_in_first_seen_order_witness :
  exists ws,
    fst (calls [str "bg"; str "fg"] initial) = map Returned ws
    /\ length ws = length [str "bg"; str "fg"]
    /\ counter (snd (calls [str "bg"; str "fg"] initial))
       = length [str "bg"; str "fg"]
    /\ map fst (generatedIds (snd (calls [str "bg"; str "fg"] initial)))
       = [str "bg"; str "fg"]
    /\ forall k w, nth_error ws k = Some w ->
         composed_of (AString BASE32_ALPHABET) w
         /\ value (AString BASE32_ALPHABET) w = Z.of_nat k
         /\ normalized (AString BASE32_ALPHABET) w = w.
Proof.
  apply (theme_ids_in_first_seen_order [str "bg"; str "fg"]).
  repeat constructor; simpl; intuition discriminate.
Defined.
End ThemeIdFacts.

(* ===================================================================== *)
(** * Registries built from an array of hooks *)
(* ===================================================================== *)

Section KeyedRegistry.
Context {V : Type} (g : V -> jsstring).

Import RegistrySpec.

Lemma get_In k (v : V) (m : JsMap.t V) : JsMap.get k m = Some v -> In (k, v) m.
Proof.
  induction m as [|[k' v'] m IH]; simpl; [discriminate|].
  destruct (jsstring_dec k k') as [->|Hne].
  - intros E. injection E as ->. now left.
  - intros H. right. now apply IH.
Qed.

Lemma set_keys k (v : V) (m : JsMap.t V) :
  map fst (JsMap.set k v m)
  = if JsMap.has k m then map fst m else map fst m ++ [k].
Proof.
  unfold JsMap.has.
  induction m as [|[k' v'] m IH]; simpl; [reflexivity|].
  destruct (jsstring_dec k k') as [->|Hne]; simpl; [reflexivity|].
  rewrite IH. destruct (JsMap.get k m); reflexivity.
Qed.

Lemma set_NoDup k (v : V) (m : JsMap.t V) :
  NoDup (map fst m) -> NoDup (map fst (JsMap.set k v m)).
Proof.
  intros Hnd. rewrite set_keys. unfold JsMap.has.
  destruct (JsMap.get k m) eqn:E; [assumption|].
  apply NoDup_app; [assumption|repeat constructor; simpl; tauto|].
  intros x Hx [<-|[]]. now apply (get_None_notin _ _ E).
Qed.

Lemma keyed_keys l : forall acc,
  (forall e, In e acc -> fst e = g (snd e)) ->
  forall e, In e (keyed g l acc) -> fst e = g (snd e).
Proof.
  induction l as [|h l IH]; intros acc Hacc e He; simpl in He; [now apply Hacc|].
  eapply IH; [|exact He].
  intros e2 He2. apply In_set in He2. destruct He2 as [->|He2]; [reflexivity|].
  now apply Hacc.
Qed.

Lemma keyed_values l : forall acc e,
  In e (keyed g l acc) -> In (snd e) l \/ In e acc.
Proof.
  induction l as [|h l IH]; intros acc e He; simpl in He; [now right|].
  destruct (IH _ _ He) as [H|H]; [left; now right|].
  apply In_set in H. destruct H as [->|H]; [left; now left|now right].
Qed.

Lemma keyed_NoDup l : forall acc,
  NoDup (map fst acc) -> NoDup (map fst (keyed g l acc)).
Proof.
  induction l as [|h l IH]; intros acc Hacc; simpl; [assumption|].
  apply IH. now apply set_NoDup.
Qed.

Lemma keyed_get_other l k : forall acc,
  (forall h, In h l -> g h <> k) ->
  JsMap.get k (keyed g l acc) = JsMap.get k acc.
Proof.
  induction l as [|h l IH]; intros acc Hl; simpl; [reflexivity|].
  rewrite IH by (intros h' Hh'; apply Hl; now right).
  apply get_set_other. intros E. apply (Hl h); [now left|congruence].
Qed.

(** Of the items that have the same key, the last one is stored. *)
Lemma keyed_last pre h post acc :
  (forall h', In h' post -> g h' <> g h) ->
  JsMap.get (g h) (keyed g (pre ++ h :: post) acc) = Some h.
Proof.
  intros Hpost. unfold keyed. rewrite fold_left_app. simpl.
  fold (keyed g pre acc).
  fold (keyed g post (JsObject.set (g h) h (keyed g pre acc))).
  rewrite keyed_get_other by assumption.
  apply get_set_same.
Qed.

(** Every item is found under its key, whatever the number of items
    that share it. *)
Lemma keyed_has_key l k : forall acc,
  In k (map g l) -> JsMap.has k (keyed g l acc) = true.
Proof.
  induction l as [|x l IH]; intros acc Hin; [destruct Hin|].
  cbn [keyed fold_left]. fold (keyed g l (JsObject.set (g x) x acc)).
  destruct (in_dec jsstring_dec k (map g l)) as [Hl|Hl]; [now apply IH|].
  destruct Hin as [<-|Hin]; [|contradiction].
  unfold JsMap.has. rewrite keyed_get_other.
  - unfold JsObject.set. now rewrite get_set_same.
  - intros h' Hh' E. apply Hl. rewrite <- E. now apply in_map.
Qed.

Lemma keyed_has l h acc : In h l -> JsMap.has (g h) (keyed g l acc) = true.
Proof. intros Hin. apply keyed_has_key. now apply in_map. Qed.
End KeyedRegistry.

(* ===================================================================== *)
(** * How [resolveId] and [load] fit together *)
(* ===================================================================== *)

Section ResolveThenLoad.
Import RegExp MatcherSpec Hooks EngineSpec.

(** X7: in the engine with import rewriting, with an absolute working
    directory, no id that [resolveId] returns is accepted by [load]:
    the id is an absolute path, so it fails the prefix test and [load]
    returns null for it, whatever the registry and the files are. *)
Theorem canonical_resolved_id_is_not_loaded
        (cwd source : jsstring) (importer : option jsstring)
        (fs : jsstring -> option jsstring) (registry : JsObject.t hook)
        (r : resolved) :
  Path.isAbsolute cwd = true ->
  Canonical.resolveId cwd registry source importer = Some r ->
  Canonical.load cwd fs registry (id r) = LoadNull.
Proof.
  intros Hc H. unfold Canonical.resolveId in H.
  destruct (Canonical.fasterSimpleResolveAbsolutePath _ _ _) as [p|];
    [|discriminate].
  destruct (find _ _) as [[k h]|]; [|discriminate].
  injection H as <-. cbn [id].
  unfold Canonical.load.
  rewrite (proj2 (test_prefix_false _)); [reflexivity|].
  intros Hp. apply carries_prefix_relative in Hp.
  rewrite (GEN_ID_isAbsolute cwd _ _ Hc) in Hp. discriminate.
Qed.

Lemma canonical_resolved_id_is_not_loaded_witness :
  let h := Hook (str "/proj/a.scss") (Some (TRegExp (fun _ => true)))
                (fun _ => str "x") in
  let registry := Canonical.normalize_hooks (str "/proj") (HArray [h]) in
  let fs := fun _ : jsstring => Some (str "body {}") in
  Canonical.load (str "/proj") fs registry (str "/proj/a.scss") = LoadNull.
Proof.
  intros h registry fs.
  exact (canonical_resolved_id_is_not_loaded
           (str "/proj") (str "/proj/q.scss") None fs registry
           {| id := str "/proj/a.scss"; injectedLoader := str "scss" |}
           eq_refl eq_refl).
Defined.

(** X8: a plugin of the engine with import rewriting that is built from
    an array of hooks, with an absolute working directory, loads
    nothing: the keys of its registry are absolute paths, an id that
    passes the prefix test is not one, so [load] returns null for every
    id. *)
Theorem canonical_array_registry_never_loads
        (cwd id : jsstring) (fs : jsstring -> option jsstring)
        (hooks : list hook) :
  Path.isAbsolute cwd = true ->
  Canonical.FileInjectionHooks_load cwd fs (HArray hooks) id = LoadNull.
Proof.
  intros Hc. unfold Canonical.FileInjectionHooks_load, Canonical.load.
  destruct (test __INJECTIONHOOKS_REGEX id) eqn:Et; [|reflexivity].
  cbn [negb]. apply test_prefix_iff in Et. apply carries_prefix_relative in Et.
  destruct (JsObject.get id _) as [h|] eqn:Eg; [exfalso|reflexivity].
  apply get_In in Eg.
  pose proof (normalize_hooks_keys cwd hooks _ Eg) as Hk. simpl in Hk.
  rewrite Hk, (GEN_ID_isAbsolute cwd _ _ Hc) in Et. discriminate.
Qed.

Lemma canonical_array_registry_never_loads_witness :
  let h := Hook (str "src/a.scss") None (fun _ => str "x") in
  Canonical.FileInjectionHooks_load (str "/proj") (fun _ => Some (str "body {}"))
                                    (HArray [h]) (str "@InjectionHooks_ts:src/a.scss")
  = LoadNull.
Proof.
  intros h.
  exact (canonical_array_registry_never_loads
           (str "/proj") (str "@InjectionHooks_ts:src/a.scss")
           (fun _ => Some (str "body {}")) [h] eq_refl).
Defined.

Lemma simple_id_carries_prefix f : carries_prefix (Simple.GEN_ID f).
Proof.
  exists [], (str "@InjectionHooks_ts:"), (backslash_to_slash (Path.normalize f)).
  repeat split. constructor.
Qed.

Lemma simple_id_not_index f : JsObject.is_index (Simple.GEN_ID f) = false.
Proof. reflexivity. Qed.

(** X9: in the simpler engine the two methods fit together: for a
    plugin built from an array of hooks, the id of every result of
    [resolveId] is the id of one of the hooks, [load] accepts it, reads
    that hook's file and returns it with the first marker replaced (or
    fails when the file cannot be read); it never returns null for
    it. *)
Theorem simple_resolved_id_is_loaded
        (cwd source : jsstring) (importer : option jsstring)
        (fs : jsstring -> option jsstring) (hooks : list hook) (r : resolved) :
  Simple.FileInjectionHooks_resolveId cwd (HArray hooks) source importer = Some r ->
  exists h,
    In h hooks
    /\ id r = Simple.GEN_ID (filePath h)
    /\ Simple.FileInjectionHooks_load fs (HArray hooks) (id r)
       = match fs (filePath h) with
         | None => LoadThrew
         | Some originalCode =>
             let x := getCommentSyntax (filePath h) in
             LoadString
               (replace_first (INJECTION_BLOCK_REGEX (c_start x)) 2 originalCode
                              (injection_template x (getContent h tt)))
         end.
Proof.
  intros H.
  unfold Simple.FileInjectionHooks_resolveId, Simple.resolveId in H.
  destruct (Simple.fasterSimpleResolveAbsolutePath _ _ _) as [[|c p]|];
    try discriminate.
  destruct (find _ _) as [[k h]|] eqn:Ef; [|discriminate].
  injection H as <-. cbn [id].
  set (g := fun x : hook => Simple.GEN_ID (filePath x)).
  assert (Hin : In (k, h) (Simple.normalize_hooks (HArray hooks))).
  { apply In_entries. apply find_some in Ef. tauto. }
  assert (Hk : k = g h).
  { apply (keyed_keys g hooks JsObject.empty) in Hin; [exact Hin|intros ? []]. }
  assert (Hh : In h hooks).
  { apply (keyed_values g hooks JsObject.empty) in Hin. now destruct Hin as [|[]]. }
  assert (Hget : JsObject.get (g h) (Simple.normalize_hooks (HArray hooks)) = Some h).
  { apply get_In_NoDup.
    - apply (keyed_NoDup g hooks JsObject.empty). constructor.
    - now rewrite <- Hk. }
  exists h. split; [assumption|]. split; [reflexivity|].
  unfold Simple.FileInjectionHooks_load, Simple.load.
  rewrite (proj2 (test_prefix_iff _) (simple_id_carries_prefix _)).
  cbn [negb]. fold (g h). rewrite Hget. reflexivity.
Qed.

Lemma simple_resolved_id_is_loaded_witness :
  let h := Hook (str "/proj/a.scss") (Some (TRegExp (fun _ => true)))
                (fun _ => str "x") in
  let fs := fun _ : jsstring => Some (str "body {}") in
  exists h',
    In h' [h]
    /\ str "@InjectionHooks_ts:/proj/a.scss" = Simple.GEN_ID (filePath h')
    /\ Simple.FileInjectionHooks_load fs (HArray [h])
                                      (str "@InjectionHooks_ts:/proj/a.scss")
       = match fs (filePath h') with
         | None => LoadThrew
         | Some originalCode =>
             let x := getCommentSyntax (filePath h') in
             LoadString
               (replace_first (INJECTION_BLOCK_REGEX (c_start x)) 2 originalCode
                              (injection_template x (getContent h' tt)))
         end.
Proof.
  intros h fs.
  exact (simple_resolved_id_is_loaded
           (str "/proj") (str "/proj/q.scss") None fs [h]
           {| id := str "@InjectionHooks_ts:/proj/a.scss";
              injectedLoader := str "scss" |}
           eq_refl).
Defined.

(** X10: every hook of the array is registered under the id of its
    file, and of the hooks whose files have the same id the last one of
    the array is the one stored (in both engines). *)
Theorem array_registry_last_hook_wins
        (cwd : jsstring) (pre post : list hook) (h : hook) :
  ((forall h', In h' post ->
               Simple.GEN_ID (filePath h') <> Simple.GEN_ID (filePath h)) ->
   JsObject.get (Simple.GEN_ID (filePath h))
                (Simple.normalize_hooks (HArray (pre ++ h :: post))) = Some h)
  /\ ((forall h', In h' post ->
                  Canonical.GEN_ID cwd (filePath h') (Canonical.FBool true)
                  <> Canonical.GEN_ID cwd (filePath h) (Canonical.FBool true)) ->
      JsObject.get (Canonical.GEN_ID cwd (filePath h) (Canonical.FBool true))
                   (Canonical.normalize_hooks cwd (HArray (pre ++ h :: post)))
      = Some h)
  /\ JsObject.has (Simple.GEN_ID (filePath h))
                  (Simple.normalize_hooks (HArray (pre ++ h :: post))) = true
  /\ JsObject.has (Canonical.GEN_ID cwd (filePath h) (Canonical.FBool true))
                  (Canonical.normalize_hooks cwd (HArray (pre ++ h :: post))) = true.
Proof.
  split; [|split; [|split]].
  - intros Hpost.
    exact (keyed_last (fun x => Simple.GEN_ID (filePath x)) pre h post
                      JsObject.empty Hpost).
  - intros Hpost.
    exact (keyed_last (fun x => Canonical.GEN_ID cwd (filePath x)
                                                 (Canonical.FBool true))
                      pre h post JsObject.empty Hpost).
  - apply (keyed_has (fun x => Simple.GEN_ID (filePath x))).
    apply in_or_app. right. now left.
  - apply (keyed_has (fun x => Canonical.GEN_ID cwd (filePath x)
                                                (Canonical.FBool true))).
    apply in_or_app. right. now left.
Qed.

Lemma array_registry_last_hook_wins_witness :
  let first := Hook (str "a.scss") None (fun _ => str "one") in
  let second := Hook (str "./a.scss") None (fun _ => str "two") in
  JsObject.get (Simple.GEN_ID (filePath second))
               (Simple.normalize_hooks (HArray ([first] ++ second :: [])))
  = Some second.
Proof.
  intros first second.
  exact (proj1 (array_registry_last_hook_wins (str "/proj") [first] [] second)
               (fun h' (Hin : In h' []) => match Hin with end)).
Defined.

(** X11: with an absolute working directory the back-resolution of a
    virtual importer never changes the importer: no hook's id, being an
    absolute path, equals an importer that carries the prefix.
    [resolveId] therefore answers as the path policy does on the
    importer it was given. *)
Theorem importer_back_resolution_inert
        (cwd source : jsstring) (importer : option jsstring)
        (registry : JsObject.t hook) :
  Path.isAbsolute cwd = true ->
  Canonical.effectiveImporter cwd registry importer = importer
  /\ Canonical.resolveId cwd registry source importer
     = match Canonical.fasterSimpleResolveAbsolutePath
               cwd (backslash_to_slash (Path.normalize source)) importer with
       | Canonical.RCode _ => None
       | Canonical.RPath normalizedSource =>
           match find (fun e => isMatch (THook (snd e)) normalizedSource)
                      (JsObject.entries registry) with
           | Some (_, h) =>
               Some {| id := Canonical.GEN_ID cwd (filePath h) (Canonical.FBool true);
                       injectedLoader := tl (Path.extname normalizedSource) |}
           | None => None
           end
       end.
Proof.
  intros Hc. split; [now apply effectiveImporter_same|].
  unfold Canonical.resolveId. now rewrite effectiveImporter_same.
Qed.

Lemma importer_back_resolution_inert_witness :
  let h := Hook (str "src/a.scss") None (fun _ => []) in
  let registry := JsObject.set (str "@InjectionHooks_ts:/proj/src/a.scss") h
                               JsObject.empty in
  Canonical.effectiveImporter (str "/proj") registry
                              (Some (str "@InjectionHooks_ts:/proj/src/a.scss"))
  = Some (str "@InjectionHooks_ts:/proj/src/a.scss").
Proof.
  intros h registry.
  exact (proj1 (importer_back_resolution_inert
                  (str "/proj") (str "./b") (Some (str "@InjectionHooks_ts:/proj/src/a.scss"))
                  registry eq_refl)).
Defined.
End ResolveThenLoad.

(* ===================================================================== *)
(** * The path policy *)
(* ===================================================================== *)

Section PolicyFacts.
Import RegExp Hooks EngineSpec PathSpec.

Lemma backslash_free p :
  Forall (fun c => c <> "\"%char) (backslash_to_slash p).
Proof.
  induction p as [|c p IH]; [constructor|]. simpl. constructor; [|assumption].
  unfold chr_eq. destruct (Ascii.eqb_spec c "\"%char); [discriminate|assumption].
Qed.

Lemma backslash_to_slash_id p :
  Forall (fun c => c <> "\"%char) p -> backslash_to_slash p = p.
Proof.
  induction 1 as [|c p Hc Hp IH]; [reflexivity|]. simpl. rewrite IH.
  unfold chr_eq. destruct (Ascii.eqb_spec c "\"%char); [contradiction|reflexivity].
Qed.



Lemma canonical_policy_absolute cwd s importer :
  Path.isAbsolute s = true ->
  Canonical.fasterSimpleResolveAbsolutePath cwd s importer
  = Canonical.RPath (backslash_to_slash (Path.normalize s)).
Proof.
  intros Ha. unfold Canonical.fasterSimpleResolveAbsolutePath.
  now rewrite backslash_to_slash_isAbsolute by now rewrite normalize_isAbsolute.
Qed.

Lemma simple_policy_absolute cwd s importer :
  Path.isAbsolute s = true ->
  Simple.fasterSimpleResolveAbsolutePath cwd s importer
  = Some (backslash_to_slash (Path.normalize s)).
Proof.
  intros Ha. unfold Simple.fasterSimpleResolveAbsolutePath.
  now rewrite backslash_to_slash_isAbsolute by now rewrite normalize_isAbsolute.
Qed.

(** X13: for an absolute specifier the answer of [resolveId] does not
    depend on the importer, in both engines: the policy returns the
    normalized specifier before it looks at the importer. *)
Theorem absolute_specifier_ignores_importer
        (cwd source : jsstring) (importer importer' : option jsstring)
        (registry : JsObject.t hook) :
  Path.isAbsolute source = true ->
  Canonical.resolveId cwd registry source importer
  = Canonical.resolveId cwd registry source importer'
  /\ Simple.resolveId cwd registry source importer
     = Simple.resolveId cwd registry source importer'.
Proof.
  intros Ha.
  assert (Ha' : Path.isAbsolute (backslash_to_slash (Path.normalize source)) = true)
    by (apply backslash_to_slash_isAbsolute; now rewrite normalize_isAbsolute).
  split.
  - unfold Canonical.resolveId.
    now rewrite !canonical_policy_absolute by assumption.
  - unfold Simple.resolveId.
    now rewrite !simple_policy_absolute by assumption.
Qed.

Lemma absolute_specifier_ignores_importer_witness :
  let h := Hook (str "/proj/a.scss") (Some (TRegExp (fun _ => true))) (fun _ => []) in
  let registry := JsObject.set (str "k") h JsObject.empty in
  Canonical.resolveId (str "/proj") registry (str "/proj/q.scss") None
  = Canonical.resolveId (str "/proj") registry (str "/proj/q.scss")
                        (Some (str "/else/where.scss"))
  /\ Simple.resolveId (str "/proj") registry (str "/proj/q.scss") None
     = Simple.resolveId (str "/proj") registry (str "/proj/q.scss")
                        (Some (str "/else/where.scss")).
Proof.
  intros h registry.
  exact (absolute_specifier_ignores_importer
           (str "/proj") (str "/proj/q.scss") None (Some (str "/else/where.scss"))
           registry eq_refl).
Defined.

(** ** Plain names *)

Lemma split_slash_plain name :
  Forall (fun x => x <> "/"%char) name -> Path.split_slash name = [name].
Proof.
  induction 1 as [|c p Hc Hp IH]; [reflexivity|]. simpl. rewrite IH.
  unfold chr_eq. destruct (Ascii.eqb_spec c "/"%char); [contradiction|reflexivity].
Qed.

Lemma ends_with_slash_plain name :
  Forall (fun x => x <> "/"%char) name -> Path.ends_with_slash name = false.
Proof.
  intros H. unfold Path.ends_with_slash.
  destruct (rev name) as [|c r] eqn:E; [reflexivity|].
  assert (Hin : In c name) by (apply in_rev; rewrite E; now left).
  rewrite Forall_forall in H. specialize (H c Hin).
  unfold chr_eq. destruct (Ascii.eqb_spec c "/"%char); [contradiction|reflexivity].
Qed.

Lemma plain_name_inv name :
  RegistrySpec.plain_name name ->
  exists c rest,
    name = c :: rest /\ c <> "."%char /\ c <> "/"%char
    /\ Forall (fun x => x <> "/"%char) name
    /\ Forall (fun x => x <> "\"%char) name.
Proof.
  destruct name as [|c rest]; [intros []|]. intros [Hdot Hall].
  exists c, rest. split; [reflexivity|]. split; [assumption|].
  split; [inversion Hall; tauto|].
  split; eapply Forall_impl; try exact Hall; simpl; tauto.
Qed.

Lemma norm_step_plain name :
  RegistrySpec.plain_name name -> Path.norm_step true [] name = [name].
Proof.
  intros H. destruct (plain_name_inv name H) as (c & rest & -> & Hdot & _).
  unfold Path.norm_step.
  replace (jseqb (c :: rest) []) with false by (symmetry; now apply jseqb_false).
  replace (jseqb (c :: rest) (str ".")) with false
    by (symmetry; apply jseqb_false; intros E; injection E as -> _; congruence).
  replace (jseqb (c :: rest) (str "..")) with false
    by (symmetry; apply jseqb_false; intros E; injection E as -> _; congruence).
  reflexivity.
Qed.

(** [path.normalize] leaves a plain name alone and drops a leading
    [./] in front of it. *)
Lemma normalize_plain name :
  RegistrySpec.plain_name name ->
  Path.normalize name = name /\ Path.normalize (str "./" ++ name) = name.
Proof.
  intros H. pose proof (norm_step_plain name H) as Hstep.
  destruct (plain_name_inv name H) as (c & rest & E & Hdot & Hslash & Hall & _).
  split.
  - unfold Path.normalize, Path.normalizeString.
    rewrite (split_slash_plain name Hall), (ends_with_slash_plain name Hall).
    subst name. cbn [fold_left Path.isAbsolute negb].
    replace (chr_eq c "/"%char) with false
      by (unfold chr_eq; destruct (Ascii.eqb_spec c "/"%char); congruence).
    cbn [negb]. rewrite Hstep. reflexivity.
  - assert (Hsplit : Path.split_slash (str "./" ++ name) = [str "."; name]).
    { change (str "./" ++ name) with ("."%char :: "/"%char :: name).
      cbn [Path.split_slash]. rewrite (split_slash_plain name Hall). reflexivity. }
    assert (Hend : Path.ends_with_slash (str "./" ++ name) = false).
    { unfold Path.ends_with_slash. rewrite rev_app_distr.
      pose proof (ends_with_slash_plain name Hall) as He.
      unfold Path.ends_with_slash in He. subst name.
      destruct (rev (c :: rest)) as [|x r] eqn:Er.
      - apply (f_equal (@length ascii)) in Er. rewrite length_rev in Er.
        discriminate.
      - exact He. }
    unfold Path.normalize, Path.normalizeString.
    change (str "./" ++ name) with ("."%char :: "/"%char :: name) in *.
    rewrite Hsplit, Hend. cbn [fold_left Path.isAbsolute].
    change (chr_eq "."%char "/"%char) with false. cbn [negb].
    change (Path.norm_step true [] (str ".")) with (@nil jsstring).
    rewrite Hstep. subst name. reflexivity.
Qed.

Lemma simple_policy_plain cwd source importer name :
  RegistrySpec.plain_name name ->
  backslash_to_slash (Path.normalize source) = name ->
  Simple.fasterSimpleResolveAbsolutePath cwd source importer = None.
Proof.
  intros H E. destruct (plain_name_inv name H) as (c & rest & En & Hdot & Hslash & _).
  rewrite En in E. clear En H.
  unfold Simple.fasterSimpleResolveAbsolutePath. rewrite E.
  assert (Habs : Path.isAbsolute (c :: rest) = false).
  { simpl. unfold chr_eq. destruct (Ascii.eqb_spec c "/"%char); congruence. }
  assert (Hd : startsWith (str ".") (c :: rest) = false).
  { change (startsWith (str ".") (c :: rest)) with (Ascii.eqb "."%char c && true).
    destruct (Ascii.eqb_spec "."%char c); [congruence|reflexivity]. }
  rewrite Habs, Hd.
  destruct (test URL_SCHEME_REGEX (c :: rest)); [reflexivity|].
  destruct (startsWith (str "@") (c :: rest) && _ && _); [reflexivity|].
  cbn [negb andb].
  destruct (truthy importer); reflexivity.
Qed.

(** X14: the simpler engine does not resolve a sibling import: for a
    specifier [./name], where [name] has no separator and does not begin
    with a dot, [path.normalize] drops the [./], what is left does not
    start with a dot, and the policy returns null with or without an
    importer; [resolveId] returns null for it whatever the registry
    holds. *)
Theorem simple_declines_sibling_specifier
        (cwd name : jsstring) (importer : option jsstring)
        (registry : JsObject.t hook) :
  RegistrySpec.plain_name name ->
  Path.normalize (str "./" ++ name) = name
  /\ Simple.fasterSimpleResolveAbsolutePath cwd (str "./" ++ name) importer = None
  /\ Simple.resolveId cwd registry (str "./" ++ name) importer = None.
Proof.
  intros H. destruct (normalize_plain name H) as [Hn Hd].
  destruct (plain_name_inv name H) as (c & rest & En & _ & _ & _ & Hb).
  pose proof (backslash_to_slash_id name Hb) as Hid.
  split; [assumption|]. split.
  - apply (simple_policy_plain cwd _ importer name H). now rewrite Hd.
  - unfold Simple.resolveId. rewrite Hd, Hid.
    rewrite (simple_policy_plain cwd name importer name H); [reflexivity|].
    now rewrite Hn.
Qed.

Lemma simple_declines_sibling_specifier_witness :
  Path.normalize (str "./" ++ str "sibling.scss") = str "sibling.scss"
  /\ Simple.fasterSimpleResolveAbsolutePath (str "/proj") (str "./" ++ str "sibling.scss")
                                            (Some (str "/proj/src/a.scss")) = None
  /\ Simple.resolveId (str "/proj") JsObject.empty (str "./" ++ str "sibling.scss")
                      (Some (str "/proj/src/a.scss")) = None.
Proof.
  apply (simple_declines_sibling_specifier
           (str "/proj") (str "sibling.scss") (Some (str "/proj/src/a.scss"))
           JsObject.empty).
  split; [discriminate|].
  repeat (constructor; [split; discriminate|]). constructor.
Defined.
End PolicyFacts.

(* ===================================================================== *)
(** * Where a search finds a match *)
(* ===================================================================== *)

Section SearchFacts.
Import RegExp MatcherSpec.

(** A search succeeds exactly when the pattern matches at the start of
    some suffix of the input. *)
Lemma search_Some_iff re : forall input sk p,
  (exists f, search re sk p input = Some f)
  <-> exists pre r s',
        input = pre ++ r
        /\ m (ignoreCase re) (pattern re) Some (st (p + length pre) r []) = Some s'.
Proof.
  induction input as [|c input IH]; intros sk p;
    unfold search; fold search.
  - split.
    + destruct (m _ _ Some (st p [] [])) as [s'|] eqn:E; [|intros [f H]; discriminate].
      intros _. exists [], [], s'. simpl. rewrite Nat.add_0_r. auto.
    + intros (pre & r & s' & E & Hm).
      destruct pre; [|discriminate]. simpl in E. subst r.
      simpl in Hm. rewrite Nat.add_0_r in Hm. rewrite Hm. eauto.
  - destruct (m _ _ Some (st p (c :: input) [])) as [s'|] eqn:E.
    + split; [|eauto]. intros _. exists [], (c :: input), s'.
      simpl. rewrite Nat.add_0_r. auto.
    + rewrite IH. split.
      * intros (pre & r & s' & -> & Hm). exists (c :: pre), r, s'.
        split; [reflexivity|]. simpl length.
        now replace (p + S (length pre)) with (S p + length pre) by lia.
      * intros (pre & r & s' & Hi & Hm). destruct pre as [|x pre].
        -- simpl in Hi. subst r. simpl in Hm. rewrite Nat.add_0_r in Hm.
           congruence.
        -- simpl in Hi. injection Hi as <- ->. exists pre, r, s'.
           split; [reflexivity|]. simpl length in Hm.
           now replace (S p + length pre) with (p + S (length pre)) by lia.
Qed.

Lemma test_true_iff re s :
  test re s = true
  <-> exists pre r s',
        s = pre ++ r
        /\ m (ignoreCase re) (pattern re) Some (st (length pre) r []) = Some s'.
Proof.
  unfold test, exec. rewrite <- (search_Some_iff re s [] 0).
  destruct (search re [] 0 s) as [f|]; split; eauto; try discriminate.
  intros [f H]. discriminate.
Qed.

Lemma test_false_iff re s :
  test re s = false
  <-> forall pre r, s = pre ++ r ->
        m (ignoreCase re) (pattern re) Some (st (length pre) r []) = None.
Proof.
  split.
  - intros Ht pre r E.
    destruct (m _ _ Some (st (length pre) r [])) as [s'|] eqn:Em; [|reflexivity].
    assert (Hx : test re s = true) by (apply test_true_iff; eauto).
    congruence.
  - intros H. destruct (test re s) eqn:Et; [|reflexivity].
    apply test_true_iff in Et. destruct Et as (pre & r & s' & E & Hm).
    rewrite (H pre r E) in Hm. discriminate.
Qed.
End SearchFacts.

(* ===================================================================== *)
(** * Foreign schemes *)
(* ===================================================================== *)

Section SchemeFacts.
Import RegExp MatcherSpec Hooks EngineSpec PolicySpec.

Lemma space_not_scheme x : is_space x = true -> scheme_char x = false.
Proof.
  intros H. unfold scheme_char. rewrite H.
  now rewrite orb_true_r.
Qed.

(** The part of the pattern after the leading white space. *)
Lemma scheme_tail ps r :
  m true (seqs [Chr scheme_char; chr ":"%char;
                opt (Group 1 (Seq (chr "/"%char) (chr "/"%char)))])
    Some (st ps r [])
  <> None
  <-> exists c post, r = c :: ":"%char :: post /\ scheme_char c = true.
Proof.
  change (seqs [Chr scheme_char; chr ":"%char;
                opt (Group 1 (Seq (chr "/"%char) (chr "/"%char)))])
    with (Seq (Chr scheme_char)
              (Seq (chr ":"%char)
                   (Seq (opt (Group 1 (Seq (chr "/"%char) (chr "/"%char)))) Empty))).
  rewrite m_seq.
  destruct r as [|c r].
  - split; [intros H; now elim H|intros (c & post & E & _); discriminate].
  - destruct (scheme_char c) eqn:Ec.
    + rewrite m_chr_hit by assumption. rewrite m_seq.
      destruct r as [|d post].
      * split; [intros H; now elim H|intros (c' & post & E & _); discriminate].
      * unfold chr. destruct (chr_eq ":"%char d) eqn:Ed.
        -- rewrite m_chr_hit by assumption.
           unfold chr_eq in Ed. apply Ascii.eqb_eq in Ed. subst d.
           split; [intros _; eauto|intros _].
           rewrite m_seq. unfold opt. rewrite m_alt, m_empty, m_empty.
           destruct (m true (Group 1 _) _ _); discriminate.
        -- rewrite m_chr_miss by assumption.
           split; [intros H; now elim H|].
           intros (c' & post' & E & _). injection E as _ E _. subst d.
           unfold chr_eq in Ed. rewrite Ascii.eqb_refl in Ed. discriminate.
    + rewrite m_chr_miss by assumption.
      split; [intros H; now elim H|].
      intros (c' & post & E & Hc). injection E as <- _. congruence.
Qed.

Lemma scheme_match_at ps r :
  m true (pattern URL_SCHEME_REGEX) Some (st ps r []) <> None
  <-> exists c post, skip_while is_space r = c :: ":"%char :: post
                     /\ scheme_char c = true.
Proof.
  change (pattern URL_SCHEME_REGEX)
    with (Seq (Star true (Chr is_space))
              (seqs [Chr scheme_char; chr ":"%char;
                     opt (Group 1 (Seq (chr "/"%char) (chr "/"%char)))])).
  rewrite m_seq, m_star_greedy, greedy_run_commit.
  - apply scheme_tail.
  - intros ps' x tl Hx.
    change (seqs [Chr scheme_char; chr ":"%char;
                  opt (Group 1 (Seq (chr "/"%char) (chr "/"%char)))])
      with (Seq (Chr scheme_char)
                (Seq (chr ":"%char)
                     (Seq (opt (Group 1 (Seq (chr "/"%char) (chr "/"%char)))) Empty))).
    rewrite m_seq. apply m_chr_miss. now apply space_not_scheme.
Qed.

(** The test for foreign schemes accepts exactly the texts in which a
    colon follows a character other than a colon, white space and [@]. *)
Lemma scheme_test_iff s : test URL_SCHEME_REGEX s = true <-> has_scheme s.
Proof.
  rewrite test_true_iff. unfold has_scheme. split.
  - intros (pre & r & s' & -> & Hm).
    assert (Hne : m true (pattern URL_SCHEME_REGEX) Some (st (length pre) r []) <> None)
      by (change (ignoreCase URL_SCHEME_REGEX) with true in Hm; congruence).
    apply scheme_match_at in Hne. destruct Hne as (c & post & E & Hc).
    destruct (skip_while_split is_space r) as (ws & Hr & _).
    exists (pre ++ ws), c, post. split; [|assumption].
    rewrite Hr at 1. rewrite E. now rewrite app_assoc.
  - intros (pre & c & post & -> & Hc).
    assert (Hne : m true (pattern URL_SCHEME_REGEX) Some
                    (st (length pre) (c :: ":"%char :: post) []) <> None).
    { apply scheme_match_at. exists c, post. split; [|assumption].
      simpl. replace (is_space c) with false; [reflexivity|].
      unfold scheme_char in Hc. destruct (is_space c); [|reflexivity].
      now rewrite orb_true_r in Hc. }
    change (ignoreCase URL_SCHEME_REGEX) with true.
    destruct (m true (pattern URL_SCHEME_REGEX) Some _) as [s'|] eqn:E;
      [|congruence].
    exists pre, (c :: ":"%char :: post), s'. auto.
Qed.

(** X15: the policy of the engine with import rewriting returns -1
    exactly for the specifiers whose normalized form is not absolute and
    has a colon directly after a character other than a colon, white
    space and [@] (anywhere in the text, not only as a leading scheme);
    for the same specifiers the simpler engine's policy returns null. *)
Theorem foreign_scheme_outcome
        (cwd source : jsstring) (importer : option jsstring) :
  let normalizedSource := backslash_to_slash (Path.normalize source) in
  (Canonical.fasterSimpleResolveAbsolutePath cwd source importer = Canonical.RCode (-1)
   <-> Path.isAbsolute normalizedSource = false /\ has_scheme normalizedSource)
  /\ (Path.isAbsolute normalizedSource = false /\ has_scheme normalizedSource ->
      Simple.fasterSimpleResolveAbsolutePath cwd source importer = None).
Proof.
  intros ns. split; [split|].
  - intros H. unfold Canonical.fasterSimpleResolveAbsolutePath in H. fold ns in H.
    destruct (Path.isAbsolute ns); [discriminate|].
    destruct (test URL_SCHEME_REGEX ns) eqn:Et.
    + split; [reflexivity|]. now apply scheme_test_iff.
    + split_ifs_in H.
  - intros [Ha Hs]. apply scheme_test_iff in Hs.
    unfold Canonical.fasterSimpleResolveAbsolutePath. fold ns.
    now rewrite Ha, Hs.
  - intros [Ha Hs]. apply scheme_test_iff in Hs.
    unfold Simple.fasterSimpleResolveAbsolutePath. fold ns.
    now rewrite Ha, Hs.
Qed.
End SchemeFacts.

(* ===================================================================== *)
(** * Files that [load] leaves as they are *)
(* ===================================================================== *)

Section PassThrough.
Import RegExp MatcherSpec Hooks EngineSpec.

Lemma upper_brace x : upper x = "{"%char -> x = "{"%char.
Proof. by_cases_on_char x. Qed.

(** A match of the marker pattern has an opening brace in it. *)
Lemma marker_needs_brace cmt_start s0 res :
  m true (pattern (INJECTION_BLOCK_REGEX cmt_start)) Some s0 = Some res ->
  In "{"%char (rest s0).
Proof.
  change (pattern (INJECTION_BLOCK_REGEX cmt_start))
    with (Seq (Group 1 (Alt (chr LF) Bol))
           (Seq (Star true space)
              (Seq (lit_i cmt_start)
                 (Seq (Star true space)
                    (Seq (lit_i (str "{generate-global-css-vars.ts"))
                       (seqs [plus (Chr (fun c => negb (chr_eq c LF)));
                              Group 2 (Alt (chr LF) Eol)])))))).
  intros H.
  rewrite m_seq in H. apply m_suffix in H. destruct H as (s1 & t1 & H & E1).
  rewrite m_seq in H. apply m_suffix in H. destruct H as (s2 & t2 & H & E2).
  rewrite m_seq in H. apply m_suffix in H. destruct H as (s3 & t3 & H & E3).
  rewrite m_seq in H. apply m_suffix in H. destruct H as (s4 & t4 & H & E4).
  rewrite m_seq in H. destruct s4 as [p4 r4 c4].
  rewrite m_lit_i in H by discriminate.
  destruct (eat true (str "{generate-global-css-vars.ts") r4) as [tl|] eqn:Ee;
    [|discriminate].
  apply eat_spec in Ee. destruct Ee as (u & Er & Hu).
  destruct u as [|x u]; [discriminate Hu|].
  unfold same_upto_case in Hu. simpl in Hu. injection Hu as Hx _.
  apply upper_brace in Hx. subst x.
  rewrite E1, E2, E3, E4. cbn [rest]. rewrite Er.
  rewrite !in_app_iff. do 4 right. left. now left.
Qed.

Lemma exec_marker_none cmt_start text :
  Forall (fun c => c <> "{"%char) text ->
  exec (INJECTION_BLOCK_REGEX cmt_start) text = None.
Proof.
  intros Hfree.
  assert (Ht : test (INJECTION_BLOCK_REGEX cmt_start) text = false).
  { apply test_false_iff. intros pre r E.
    destruct (m _ _ Some (st (length pre) r [])) as [s'|] eqn:Em; [|reflexivity].
    apply marker_needs_brace in Em. cbn [rest] in Em.
    rewrite Forall_forall in Hfree. exfalso.
    apply (Hfree "{"%char); [|reflexivity].
    rewrite E. apply in_or_app. now right. }
  unfold test in Ht. destruct (exec _ text); [discriminate|reflexivity].
Qed.

Lemma rewrite_imports_at_free cwd h text :
  Forall (fun c => c <> "@"%char) text ->
  Canonical.rewrite_imports cwd h text = text.
Proof.
  intros Hfree. unfold Canonical.rewrite_imports, replace_all.
  cbn [replace_all_from].
  pose proof (search_skip Canonical.RELATIVE_IMPORT_REGEX text [] [] 0
                          (at_free_no_match text [] Hfree)) as Hs.
  rewrite app_nil_r in Hs. rewrite Hs. reflexivity.
Qed.

(** X16: a file without an opening brace has no marker and a file
    without [@] has no import statement: [load] of either engine returns
    a file that has neither of the two characters as it is. *)
Theorem load_passes_plain_text_through
        (cwd id : jsstring) (fs : jsstring -> option jsstring)
        (registry : JsObject.t hook) (h : hook) (text : jsstring) :
  carries_prefix id ->
  JsObject.get id registry = Some h ->
  fs (filePath h) = Some text ->
  Forall (fun c => c <> "{"%char /\ c <> "@"%char) text ->
  Canonical.load cwd fs registry id = LoadString text
  /\ Simple.load fs registry id = LoadString text.
Proof.
  intros Hp Hg Hfs Hfree.
  assert (Hb : Forall (fun c => c <> "{"%char) text)
    by (eapply Forall_impl; [|exact Hfree]; simpl; tauto).
  assert (Ha : Forall (fun c => c <> "@"%char) text)
    by (eapply Forall_impl; [|exact Hfree]; simpl; tauto).
  apply test_prefix_iff in Hp.
  unfold Canonical.load, Simple.load, Canonical.inject, replace_first.
  rewrite Hp, Hg, Hfs. cbn [negb].
  rewrite exec_marker_none by assumption.
  now rewrite rewrite_imports_at_free.
Qed.

Lemma load_passes_plain_text_through_witness :
  let h := Hook (str "/proj/a.css") None (fun _ => str "x") in
  let registry := JsObject.set (str "@InjectionHooks_ts:/a") h JsObject.empty in
  let fs := fun _ : jsstring => Some (str "body; color: red") in
  Canonical.load (str "/proj") fs registry (str "@InjectionHooks_ts:/a")
    = LoadString (str "body; color: red")
  /\ Simple.load fs registry (str "@InjectionHooks_ts:/a")
     = LoadString (str "body; color: red").
Proof.
  intros h registry fs.
  apply (load_passes_plain_text_through
           (str "/proj") (str "@InjectionHooks_ts:/a") fs registry h
           (str "body; color: red")).
  - apply test_prefix_iff. reflexivity.
  - reflexivity.
  - reflexivity.
  - repeat (constructor; [split; discriminate|]). constructor.
Defined.

(** What a search finds, with the place of the match. *)
Lemma search_found re : forall input sk p f,
  search re sk p input = Some f ->
  exists pre r s',
    input = pre ++ r
    /\ m (ignoreCase re) (pattern re) Some (st (p + length pre) r []) = Some s'
    /\ f_skipped f = rev sk ++ pre
    /\ f_text f = firstn (length r - length (rest s')) r
    /\ f_after f = rest s'.
Proof.
  induction input as [|c input IH]; intros sk p f H;
    unfold search in H; fold search in H;
    destruct (m (ignoreCase re) (pattern re) Some _) as [s'|] eqn:E;
    try discriminate.
  - injection H as <-. exists [], [], s'. cbn [f_skipped f_text f_after length app].
    rewrite Nat.add_0_r, app_nil_r. auto.
  - injection H as <-. exists [], (c :: input), s'.
    cbn [f_skipped f_text f_after length app].
    rewrite Nat.add_0_r, app_nil_r. auto.
  - apply IH in H. destruct H as (pre & r & s1 & -> & Hm & Hs & Ht & Ha).
    exists (c :: pre), r, s1. split; [reflexivity|]. split.
    + simpl length. now replace (p + S (length pre)) with (S p + length pre) by lia.
    + split; [|auto]. rewrite Hs. simpl. now rewrite <- app_assoc.
Qed.

(** A match of the marker pattern begins at the start of the text or at
    a line feed, and it ends at the end of the text or with a line
    feed. *)
Lemma marker_boundaries cmt_start p r s' :
  m true (pattern (INJECTION_BLOCK_REGEX cmt_start)) Some (st p r []) = Some s' ->
  (p = 0 \/ exists r', r = LF :: r')
  /\ (rest s' = [] \/ exists t, r = t ++ LF :: rest s').
Proof.
  change (pattern (INJECTION_BLOCK_REGEX cmt_start))
    with (Seq (Group 1 (Alt (chr LF) Bol))
           (Seq (Star true space)
              (Seq (lit_i cmt_start)
                 (Seq (Star true space)
                    (Seq (lit_i (str "{generate-global-css-vars.ts"))
                       (Seq (plus (Chr (fun c => negb (chr_eq c LF))))
                            (Seq (Group 2 (Alt (chr LF) Eol)) Empty))))))).
  intros H. split.
  - rewrite m_seq, m_group, m_alt in H. apply orelse_Some in H.
    destruct H as [H|[_ H]].
    + destruct r as [|x r']; [discriminate H|]. unfold chr in H.
      destruct (chr_eq LF x) eqn:Ex.
      * unfold chr_eq in Ex. apply Ascii.eqb_eq in Ex. subst x. eauto.
      * now rewrite m_chr_miss in H by assumption.
    + destruct p as [|p]; [now left|discriminate H].
  - rewrite m_seq in H. apply m_suffix in H. destruct H as (s1 & t1 & H & E1).
    rewrite m_seq in H. apply m_suffix in H. destruct H as (s2 & t2 & H & E2).
    rewrite m_seq in H. apply m_suffix in H. destruct H as (s3 & t3 & H & E3).
    rewrite m_seq in H. apply m_suffix in H. destruct H as (s4 & t4 & H & E4).
    rewrite m_seq in H. apply m_suffix in H. destruct H as (s5 & t5 & H & E5).
    rewrite m_seq in H. apply m_suffix in H. destruct H as (s6 & t6 & H & E6).
    cbn [rest] in E1.
    assert (Er : r = (t1 ++ t2 ++ t3 ++ t4 ++ t5 ++ t6) ++ rest s6).
    { rewrite E1, E2, E3, E4, E5, E6. now rewrite <- !app_assoc. }
    destruct s6 as [p6 r6 c6]. cbn [rest] in Er.
    rewrite m_seq, m_group, m_alt in H. apply orelse_Some in H.
    destruct H as [H|[_ H]].
    + destruct r6 as [|x r6']; [discriminate H|]. unfold chr in H.
      destruct (chr_eq LF x) eqn:Ex.
      * rewrite m_chr_hit in H by assumption. rewrite m_empty in H.
        injection H as <-. cbn [rest].
        unfold chr_eq in Ex. apply Ascii.eqb_eq in Ex. subst x. eauto.
      * now rewrite m_chr_miss in H by assumption.
    + destruct r6 as [|x r6']; [|discriminate H].
      cbn in H. injection H as <-. now left.
Qed.

(** X17: when the content of the hook has no [$], the injection
    replaces exactly the first match of the marker pattern by the block
    (blank line, start marker, blank line, content, blank line, end
    marker, blank line) and keeps the text before and after the match;
    the match begins at the start of the text or at a line feed and ends
    at the end of the text or with a line feed, so whole lines are
    replaced; without a match the text is unchanged. *)
Theorem inject_replaces_first_marker (h : hook) (original : jsstring) :
  dollar_free (getContent h tt) ->
  let x := getCommentSyntax (filePath h) in
  match exec (INJECTION_BLOCK_REGEX (c_start x)) original with
  | Some f =>
      original = f_skipped f ++ f_text f ++ f_after f
      /\ Canonical.inject h original
         = f_skipped f ++ injection_block x (getContent h tt) ++ f_after f
      /\ (f_skipped f = [] \/ exists r', f_text f ++ f_after f = LF :: r')
      /\ (f_after f = [] \/ exists t, f_text f = t ++ [LF])
  | None => Canonical.inject h original = original
  end.
Proof.
  intros Hd x. pose proof (inject_dollar_free h original Hd) as H.
  cbv zeta in H. fold x in H.
  destruct (exec (INJECTION_BLOCK_REGEX (c_start x)) original) as [f|] eqn:E;
    [|exact H].
  destruct H as [H1 H2]. split; [assumption|]. split; [assumption|].
  unfold exec in E. apply search_found in E.
  destruct E as (pre & r & s' & Ho & Hm & Hs & Ht & Ha).
  change (ignoreCase (INJECTION_BLOCK_REGEX (c_start x))) with true in Hm.
  pose proof (match_factor _ _ _ _ _ _ Hm) as Hf.
  apply marker_boundaries in Hm. destruct Hm as [Hstart Hend].
  rewrite Hs, Ht, Ha. cbn [rev app]. split.
  - destruct Hstart as [Hp|(r' & Hr)].
    + left. destruct pre; [reflexivity|discriminate Hp].
    + right. exists r'. now rewrite <- Hf.
  - destruct Hend as [He|(t & Hr)]; [now left|].
    right. exists t. clear Hf Hstart Ho. subst r.
    change (t ++ LF :: rest s') with (t ++ [LF] ++ rest s').
    rewrite app_assoc, length_app.
    replace (length (t ++ [LF]) + length (rest s') - length (rest s'))
      with (length (t ++ [LF]) + 0) by lia.
    rewrite firstn_app_2. cbn [firstn]. apply app_nil_r.
Qed.

Lemma inject_replaces_first_marker_witness :
  let h := Hook (str "a.css") None (fun _ => str "x") in
  let original := str "a" ++ LF :: str "// {generate-global-css-vars.ts: v}"
                      ++ LF :: str "b" in
  let x := getCommentSyntax (filePath h) in
  match exec (INJECTION_BLOCK_REGEX (c_start x)) original with
  | Some f =>
      original = f_skipped f ++ f_text f ++ f_after f
      /\ Canonical.inject h original
         = f_skipped f ++ injection_block x (getContent h tt) ++ f_after f
      /\ (f_skipped f = [] \/ exists r', f_text f ++ f_after f = LF :: r')
      /\ (f_after f = [] \/ exists t, f_text f = t ++ [LF])
  | None => Canonical.inject h original = original
  end.
Proof.
  intros h original.
  apply (inject_replaces_first_marker h original).
  repeat constructor. discriminate.
Defined.
End PassThrough.

(* ===================================================================== *)
(** * [_EscapeRegExp] *)
(* ===================================================================== *)

Section EscapeFacts.
Import RegExp MatcherSpec HookFiles HookSpec.

Variable sp : ascii -> bool.

Local Abbreviation re := (class_regex sp).

(** A search for one character of a class. *)
Lemma search_class input sk p :
  search re sk p input
  = match input with
    | [] => None
    | c :: tl =>
        if sp c
        then Some {| f_skipped := rev sk; f_index := p; f_text := [c];
                     f_after := tl; f_caps := [] |}
        else search re (c :: sk) (S p) tl
    end.
Proof.
  destruct input as [|c tl]; [reflexivity|].
  unfold search; fold search. cbn [ignoreCase pattern class_regex].
  change {| pos := p; rest := c :: tl; caps := [] |} with (st p (c :: tl) []).
  destruct (sp c) eqn:E.
  - rewrite m_chr_hit by assumption. cbn [rest caps]. now rewrite firstn_one.
  - now rewrite m_chr_miss by assumption.
Qed.

Lemma search_class_spec : forall input sk p,
  match search re sk p input with
  | None => Forall (fun c => sp c = false) input
  | Some f =>
      exists skipped c after,
        input = skipped ++ c :: after
        /\ Forall (fun c => sp c = false) skipped
        /\ sp c = true
        /\ f = {| f_skipped := rev sk ++ skipped; f_index := p + length skipped;
                  f_text := [c]; f_after := after; f_caps := [] |}
  end.
Proof.
  induction input as [|c tl IH]; intros sk p; rewrite search_class.
  - constructor.
  - destruct (sp c) eqn:E.
    + exists [], c, tl. rewrite app_nil_r, Nat.add_0_r.
      split; [reflexivity|]. split; [constructor|]. split; [assumption|reflexivity].
    + specialize (IH (c :: sk) (S p)).
      destruct (search re (c :: sk) (S p) tl) as [f|].
      * destruct IH as (skipped & x & after & -> & Hs & Hx & ->).
        exists (c :: skipped), x, after. repeat split; try assumption.
        -- now constructor.
        -- simpl. rewrite <- app_assoc. simpl.
           now replace (p + S (length skipped)) with (S (p + length skipped)) by lia.
      * now constructor.
Qed.

Lemma flat_map_unchanged (f : ascii -> jsstring) l :
  Forall (fun c => f c = [c]) l -> flat_map f l = l.
Proof.
  induction 1 as [|c l Hc Hl IH]; [reflexivity|]. simpl. now rewrite Hc, IH.
Qed.

(** Replacing every character of a class by a backslash and the
    character. *)
Lemma replace_class callback :
  (forall f, callback f = "\"%char :: f_text f) ->
  forall fuel input p,
    length input < fuel ->
    replace_all_from fuel re callback p input
    = flat_map (fun c => if sp c then ["\"%char; c] else [c]) input.
Proof.
  intros Hcb. induction fuel as [|fuel IH]; intros input p Hlen; [lia|].
  cbn [replace_all_from].
  pose proof (search_class_spec input [] p) as Hs.
  destruct (search re [] p input) as [f|].
  - destruct Hs as (skipped & c & after & -> & Hsk & Hc & ->).
    cbn [f_skipped f_text f_after f_index rev app].
    rewrite Hcb. cbn [f_text].
    rewrite length_app in Hlen. simpl in Hlen.
    rewrite IH by lia.
    rewrite flat_map_app. cbn [flat_map]. rewrite Hc.
    rewrite (flat_map_unchanged _ skipped).
    + reflexivity.
    + eapply Forall_impl; [|exact Hsk]. intros a Ha. simpl in Ha. now rewrite Ha.
  - symmetry. apply flat_map_unchanged.
    eapply Forall_impl; [|exact Hs]. intros a Ha. simpl in Ha. now rewrite Ha.
Qed.
End EscapeFacts.

Section EscapeRegExp.
Import RegExp MatcherSpec HookFiles HookSpec.

Lemma EscapeRegExp_closed_form s : _EscapeRegExp s = flat_map escaped s.
Proof.
  unfold _EscapeRegExp, Js.replace_all_template, replace_all.
  apply replace_class; [|lia].
  intros f. cbn. now rewrite app_nil_r.
Qed.

Lemma special_is_syntax c :
  existsb (chr_eq c) REGEXP_SPECIAL = Js.is_syntax c.
Proof.
  unfold Js.is_syntax, REGEXP_SPECIAL, Js.SYNTAX_CHARACTERS.
  cbn [existsb str list_ascii_of_string].
  repeat match goal with
         | |- context [chr_eq c ?x] => destruct (chr_eq c x); cbn [orb]
         end; reflexivity.
Qed.

Lemma backslash_is_special c :
  chr_eq c "\"%char = true -> existsb (chr_eq c) REGEXP_SPECIAL = true.
Proof.
  unfold chr_eq. intros H. apply Ascii.eqb_eq in H. subst c. reflexivity.
Qed.

Lemma literal_source_escaped s : Js.literal_source (flat_map escaped s) = Some s.
Proof.
  induction s as [|c s IH]; [reflexivity|].
  cbn [flat_map]. unfold escaped at 1.
  destruct (existsb (chr_eq c) REGEXP_SPECIAL) eqn:E.
  - cbn [app Js.literal_source].
    change (chr_eq "\"%char "\"%char) with true. cbv iota.
    rewrite <- special_is_syntax, E, IH. reflexivity.
  - cbn [app Js.literal_source].
    destruct (chr_eq c "\"%char) eqn:Eb.
    + apply backslash_is_special in Eb. congruence.
    + rewrite <- special_is_syntax, E, IH. reflexivity.
Qed.

End EscapeRegExp.

(* ===================================================================== *)
(** * The matchers of the two hooks *)
(* ===================================================================== *)

Section HookMatchers.
Import RegExp MatcherSpec HookFiles HookSpec.

Lemma same_upto_case_app_inv u a b :
  same_upto_case u (a ++ b) ->
  exists ua ub, u = ua ++ ub /\ same_upto_case ua a /\ same_upto_case ub b.
Proof.
  unfold same_upto_case. rewrite map_app. intros H.
  apply map_eq_app in H. destruct H as (ua & ub & -> & Ha & Hb). eauto.
Qed.

Lemma same_upto_case_app ua ub a b :
  same_upto_case ua a -> same_upto_case ub b -> same_upto_case (ua ++ ub) (a ++ b).
Proof. unfold same_upto_case. intros Ha Hb. now rewrite !map_app, Ha, Hb. Qed.

(** A search for a text up to case finds it wherever it is. *)
Lemma test_lit_i t s :
  t <> [] ->
  (test {| pattern := lit_i t; ignoreCase := true |} s = true
   <-> contains_upto_case t s).
Proof.
  intros Hne. rewrite test_true_iff. cbn [pattern ignoreCase].
  unfold contains_upto_case. split.
  - intros (pre & r & s' & -> & Hm). rewrite m_lit_i in Hm by assumption.
    destruct (eat true t r) as [tl|] eqn:E; [|discriminate].
    apply eat_spec in E. destruct E as (u & -> & Hu). eauto.
  - intros (pre & u & post & -> & Hu).
    assert (E : eat true t (u ++ post) = Some post) by (apply eat_spec; eauto).
    exists pre, (u ++ post). eexists. split; [reflexivity|].
    rewrite m_lit_i by assumption. rewrite E. reflexivity.
Qed.

(** The end of the pattern of the config hook: the file name, then the
    end of the input. *)
Lemma config_tail ps r :
  m true (Seq (lit_i (str "config.scss")) (Seq Eol Empty)) Some (st ps r []) <> None
  <-> same_upto_case r (str "config.scss").
Proof.
  rewrite m_seq, m_lit_i by discriminate. split.
  - destruct (eat true (str "config.scss") r) as [tl|] eqn:E; [|intros H; now elim H].
    apply eat_spec in E. destruct E as (u & -> & Hu).
    destruct tl as [|x tl]; [now rewrite app_nil_r|].
    intros H. now elim H.
  - intros Hr.
    assert (E : eat true (str "config.scss") r = Some [])
      by (apply eat_spec; exists r; now rewrite app_nil_r).
    rewrite E. discriminate.
Qed.

Lemma underscore_class x :
  chr_eq (upper x) (upper "_"%char) = true <-> same_upto_case [x] (str "_").
Proof.
  unfold same_upto_case, chr_eq. simpl. rewrite Ascii.eqb_eq.
  split; [intros ->; reflexivity|intros H; now injection H].
Qed.

Lemma config_match_at ps r :
  m true (pattern CONFIG_MATCH_REGEX) Some (st ps r []) <> None
  <-> same_upto_case r (str "/src/scss/global/config.scss")
      \/ same_upto_case r (str "/src/scss/global/_config.scss").
Proof.
  change (pattern CONFIG_MATCH_REGEX)
    with (Seq (lit_i (str "/src/scss/global/"))
              (Seq (Alt (chr_i "_"%char) Empty)
                   (Seq (lit_i (str "config.scss")) (Seq Eol Empty)))).
  rewrite m_seq, m_lit_i by discriminate.
  set (K := m true (Seq (lit_i (str "config.scss")) (Seq Eol Empty)) Some).
  split.
  - destruct (eat true (str "/src/scss/global/") r) as [r1|] eqn:E;
      [|intros H; now elim H].
    apply eat_spec in E. destruct E as (ua & -> & Ha).
    rewrite m_seq, m_alt, m_empty. fold K.
    destruct (m true (chr_i "_"%char) K _) as [s1|] eqn:E1.
    + intros _. right.
      destruct r1 as [|x r1']; [discriminate E1|].
      unfold chr_i in E1.
      destruct (chr_eq (upper x) (upper "_"%char)) eqn:Ex.
      * rewrite m_chr_hit in E1 by assumption.
        assert (Hk : K (st (S (ps + length (str "/src/scss/global/"))) r1' []) <> None)
          by congruence.
        apply config_tail in Hk. apply underscore_class in Ex.
        change (str "/src/scss/global/_config.scss")
          with (str "/src/scss/global/" ++ str "_" ++ str "config.scss").
        change (x :: r1') with ([x] ++ r1').
        now repeat apply same_upto_case_app.
      * rewrite m_chr_miss in E1 by assumption. discriminate.
    + cbn [orelse]. intros Hk. apply config_tail in Hk. left.
      change (str "/src/scss/global/config.scss")
        with (str "/src/scss/global/" ++ str "config.scss").
      now apply same_upto_case_app.
  - intros [H|H].
    + change (str "/src/scss/global/config.scss")
        with (str "/src/scss/global/" ++ str "config.scss") in H.
      apply same_upto_case_app_inv in H. destruct H as (ua & ub & -> & Ha & Hb).
      assert (E : eat true (str "/src/scss/global/") (ua ++ ub) = Some ub)
        by (apply eat_spec; eauto).
      rewrite E, m_seq, m_alt, m_empty. fold K.
      assert (Hk : K (st (ps + length (str "/src/scss/global/")) ub []) <> None)
        by now apply config_tail.
      destruct (m true (chr_i "_"%char) K _); [discriminate|exact Hk].
    + change (str "/src/scss/global/_config.scss")
        with (str "/src/scss/global/" ++ str "_" ++ str "config.scss") in H.
      apply same_upto_case_app_inv in H. destruct H as (ua & u' & -> & Ha & H).
      apply same_upto_case_app_inv in H. destruct H as (ux & ub & -> & Hx & Hb).
      destruct ux as [|x [|? ?]]; try discriminate Hx.
      apply underscore_class in Hx.
      assert (E : eat true (str "/src/scss/global/") (ua ++ [x] ++ ub)
                  = Some ([x] ++ ub))
        by (apply eat_spec; eauto).
      rewrite E, m_seq, m_alt. fold K. unfold chr_i. cbn [app].
      rewrite m_chr_hit by assumption.
      assert (Hk : K (st (S (ps + length (str "/src/scss/global/"))) ub []) <> None)
        by now apply config_tail.
      destruct (K (st (S (ps + length (str "/src/scss/global/"))) ub []));
        [discriminate|now elim Hk].
Qed.

(** X19: the matcher of the variables hook accepts a path exactly when
    the path has [src/scss/global/_variables.scss] somewhere in it, up
    to the case of letters; the matcher of the config hook accepts a
    path exactly when the path ends with [/src/scss/global/config.scss]
    or [/src/scss/global/_config.scss], up to case. *)
Theorem hook_matchers (p : jsstring) :
  (test TARGET_REGEX p = true <-> contains_upto_case MAIN_VARS_FILE_PATH p)
  /\ (test CONFIG_MATCH_REGEX p = true
      <-> ends_upto_case (str "/src/scss/global/config.scss") p
          \/ ends_upto_case (str "/src/scss/global/_config.scss") p).
Proof.
  split; [apply test_lit_i; discriminate|].
  rewrite test_true_iff. change (ignoreCase CONFIG_MATCH_REGEX) with true.
  unfold ends_upto_case. split.
  - intros (pre & r & s' & -> & Hm).
    assert (Hne : m true (pattern CONFIG_MATCH_REGEX) Some (st (length pre) r [])
                  <> None) by congruence.
    apply config_match_at in Hne. destruct Hne; [left|right]; eauto.
  - intros [(pre & u & -> & Hu)|(pre & u & -> & Hu)];
      (assert (Hne : m true (pattern CONFIG_MATCH_REGEX) Some (st (length pre) u [])
                     <> None) by (apply config_match_at; tauto));
      (destruct (m true (pattern CONFIG_MATCH_REGEX) Some (st (length pre) u []))
         as [s'|] eqn:E; [|congruence]);
      exists pre, u, s'; auto.
Qed.
End HookMatchers.

(* ===================================================================== *)
(** * Captures *)
(* ===================================================================== *)

Section CaptureFacts.
Import RegExp MatcherSpec ConfigSpec.

(** A match adds captures of the groups of the pattern and keeps the
    captures it started with. *)
Lemma m_caps_grow ic r : forall k s res,
  m ic r k s = Some res ->
  exists s1 new,
    k s1 = Some res
    /\ caps s1 = new ++ caps s
    /\ Forall (fun e => In (fst e) (group_ids r)) new.
Proof.
  induction r as [|p|a IHa b IHb|a IHa b IHb|g a IHa|n a IHa|n| |];
    intros k s res H.
  - exists s, []. auto.
  - simpl in H. destruct (rest s) as [|c tl] eqn:E; [discriminate|].
    destruct (p c); [|discriminate].
    eexists; exists []. split; [exact H|]. auto.
  - simpl in H. destruct (IHa _ _ _ H) as (s1 & n1 & H1 & E1 & F1).
    destruct (IHb _ _ _ H1) as (s2 & n2 & H2 & E2 & F2).
    exists s2, (n2 ++ n1). split; [assumption|]. split.
    + now rewrite E2, E1, app_assoc.
    + apply Forall_app. split; (eapply Forall_impl; [|eassumption]);
        intros e He; simpl; apply in_or_app; auto.
  - simpl in H. apply orelse_Some in H. destruct H as [H|[_ H]].
    + destruct (IHa _ _ _ H) as (s1 & n1 & H1 & E1 & F1).
      exists s1, n1. repeat split; try assumption.
      eapply Forall_impl; [|eassumption]. intros e He. simpl. apply in_or_app. auto.
    + destruct (IHb _ _ _ H) as (s1 & n1 & H1 & E1 & F1).
      exists s1, n1. repeat split; try assumption.
      eapply Forall_impl; [|eassumption]. intros e He. simpl. apply in_or_app. auto.
  - rewrite m_star in H.
    remember (S (length (rest s))) as n eqn:En. clear En. revert s res H.
    induction n as [|n IHn]; intros s res H.
    + exists s, []. auto.
    + simpl in H.
      assert (Hk : k s = Some res ->
                   exists s1 new, k s1 = Some res /\ caps s1 = new ++ caps s
                                  /\ Forall (fun e => In (fst e) (group_ids (Star g a))) new)
        by (intros; exists s, []; auto).
      assert (Hagain :
        m ic a (fun s' => if length (rest s') <? length (rest s)
                          then star_loop (m ic a) g k n s' else None) s = Some res ->
        exists s1 new, k s1 = Some res /\ caps s1 = new ++ caps s
                       /\ Forall (fun e => In (fst e) (group_ids (Star g a))) new).
      { intros Ha. destruct (IHa _ _ _ Ha) as (s1 & n1 & H1 & E1 & F1).
        destruct (length (rest s1) <? length (rest s)); [|discriminate].
        destruct (IHn _ _ H1) as (s2 & n2 & H2 & E2 & F2).
        exists s2, (n2 ++ n1). split; [assumption|]. split.
        - now rewrite E2, E1, app_assoc.
        - apply Forall_app. split; assumption. }
      destruct g; apply orelse_Some in H; destruct H as [H|[_ H]]; auto.
  - simpl in H. destruct (IHa _ _ _ H) as (s1 & n1 & H1 & E1 & F1).
    eexists. exists ((n, firstn (length (rest s) - length (rest s1)) (rest s)) :: n1).
    split; [exact H1|]. split.
    + simpl. now rewrite E1.
    + constructor; [now left|].
      eapply Forall_impl; [|eassumption]. intros e He. now right.
  - simpl in H. destruct (cap_get n (caps s)) as [t|].
    + destruct (eat ic t (rest s)) as [tl|]; [|discriminate].
      eexists; exists []. split; [exact H|]. auto.
    + exists s, []. auto.
  - simpl in H. destruct (pos s =? 0); [|discriminate]. exists s, []. auto.
  - simpl in H. destruct (rest s); [|discriminate]. exists s, []. auto.
Qed.

Lemma cap_get_skip n new cs :
  Forall (fun e : nat * jsstring => fst e <> n) new ->
  cap_get n (new ++ cs) = cap_get n cs.
Proof.
  induction 1 as [|[k v] new Hk Hnew IH]; [reflexivity|].
  simpl in *. destruct (Nat.eqb_spec k n); [contradiction|assumption].
Qed.

(** What a search finds is a match at some position. *)
Lemma search_caps re : forall input sk p f,
  search re sk p input = Some f ->
  exists p' r s',
    m (ignoreCase re) (pattern re) Some (st p' r []) = Some s'
    /\ f_caps f = caps s'.
Proof.
  induction input as [|c input IH]; intros sk p f H;
    unfold search in H; fold search in H;
    destruct (m (ignoreCase re) (pattern re) Some _) as [s'|] eqn:E;
    try discriminate.
  - injection H as <-. eauto.
  - injection H as <-. eauto.
  - eapply IH; eassumption.
Qed.

Lemma matchAll_from_found re fuel : forall p input f,
  In f (Js.matchAll_from fuel re p input) ->
  exists sk p' r, search re sk p' r = Some f.
Proof.
  induction fuel as [|fuel IH]; intros p input f Hin; [destruct Hin|].
  cbn [Js.matchAll_from] in Hin.
  destruct (search re [] p input) as [f0|] eqn:E; [|destruct Hin].
  destruct Hin as [<-|Hin]; [eauto|].
  destruct (f_text f0), (f_after f0); try (eapply IH; eassumption).
  destruct Hin.
Qed.
End CaptureFacts.

(* ===================================================================== *)
(** * [generateConfigContent] *)
(* ===================================================================== *)

Section ConfigContent.
Import RegExp MatcherSpec Base BaseSpec Presets ThemeIds ThemeIdsSpec ConfigSpec.

Lemma is_quote_inv q : is_quote q = true -> q = "'"%char \/ q = DQUOTE.
Proof.
  unfold is_quote, chr_eq. intros H. apply orb_true_iff in H.
  destruct H as [H|H]; apply Ascii.eqb_eq in H; auto.
Qed.

(** Capture 1 of a match of the pattern for variable names is the
    opening quote. *)
Lemma variable_match_capture p r s' :
  m false (pattern VARIABLE_NAME_REGEX) Some (st p r []) = Some s' ->
  exists q, is_quote q = true /\ cap_get 1 (caps s') = Some [q].
Proof.
  change (pattern VARIABLE_NAME_REGEX)
    with (Seq (Group 1 (Chr is_quote))
              (seqs [Group 2 (Star false any); Backref 1; Star true space;
                     chr ":"%char])).
  rewrite m_seq, m_group. intros H.
  destruct r as [|c tl]; [discriminate H|].
  destruct (is_quote c) eqn:Ec.
  - rewrite m_chr_hit in H by assumption. cbn [pos rest caps] in H.
    rewrite firstn_one in H.
    apply m_caps_grow in H. destruct H as (s1 & new & H1 & E1 & F1).
    injection H1 as <-. exists c. split; [assumption|].
    rewrite E1. cbn [caps]. rewrite cap_get_skip; [reflexivity|].
    eapply Forall_impl; [|exact F1]. intros e He. simpl in He.
    destruct He as [<-|[]]. discriminate.
  - now rewrite m_chr_miss in H by assumption.
Qed.

Lemma matchAll_capture content f :
  In f (Js.matchAll VARIABLE_NAME_REGEX content) -> quote_name (capture 1 f).
Proof.
  intros Hin. apply matchAll_from_found in Hin. destruct Hin as (sk & p & r & Hs).
  apply search_caps in Hs. destruct Hs as (p' & r' & s' & Hm & Hc).
  apply variable_match_capture in Hm. destruct Hm as (q & Hq & Hg).
  unfold capture. rewrite Hc, Hg. unfold quote_name.
  destruct (is_quote_inv q Hq) as [-> | ->]; auto.
Qed.

(** ** The set of names *)

Lemma set_add_quotes x names :
  NoDup names -> Forall quote_name names -> quote_name x ->
  NoDup (Js.set_add x names) /\ Forall quote_name (Js.set_add x names).
Proof.
  intros Hnd Hq Hx. unfold Js.set_add.
  destruct (existsb (jseqb x) names) eqn:E; [auto|]. split.
  - apply NoDup_app; [assumption|repeat constructor; simpl; tauto|].
    intros y Hy [<-|[]].
    assert (Ht : existsb (jseqb x) names = true)
      by (apply existsb_exists; exists x; split; [assumption|apply jseqb_refl]).
    congruence.
  - apply Forall_app. split; [assumption|]. now constructor.
Qed.

Lemma fold_set_add_quotes (ms : list found) : forall names,
  (forall f, In f ms -> quote_name (capture 1 f)) ->
  NoDup names -> Forall quote_name names ->
  NoDup (fold_left (fun names f => Js.set_add (capture 1 f) names) ms names)
  /\ Forall quote_name
             (fold_left (fun names f => Js.set_add (capture 1 f) names) ms names).
Proof.
  induction ms as [|f ms IH]; intros names Hms Hnd Hq; [auto|].
  simpl.
  destruct (set_add_quotes (capture 1 f) names Hnd Hq (Hms f (or_introl eq_refl)))
    as [Hnd' Hq'].
  apply IH; try assumption. intros f' Hf'. apply Hms. now right.
Qed.

Lemma extractVarsFromFile_quotes fs path names names' :
  extractVarsFromFile fs path names = Ok names' ->
  NoDup names -> Forall quote_name names ->
  NoDup names' /\ Forall quote_name names'.
Proof.
  unfold extractVarsFromFile. intros H Hnd Hq.
  destruct (Js.existsSync fs path).
  - destruct (Js.readFileSync fs path) as [content|]; [|discriminate].
    injection H as <-. apply fold_set_add_quotes; try assumption.
    intros f. apply matchAll_capture.
  - injection H as <-. auto.
Qed.

Lemma extract_skins_quotes fs dir files : forall names names',
  extract_skins fs dir files names = Ok names' ->
  NoDup names -> Forall quote_name names ->
  NoDup names' /\ Forall quote_name names'.
Proof.
  induction files as [|file files IH]; intros names names' H Hnd Hq; simpl in H.
  - injection H as <-. auto.
  - destruct (extractVarsFromFile fs _ names) as [names1|] eqn:E; [|discriminate].
    destruct (extractVarsFromFile_quotes _ _ _ _ E Hnd Hq) as [Hnd1 Hq1].
    eapply IH; eassumption.
Qed.

Lemma quote_names_cases names :
  NoDup names -> Forall quote_name names ->
  names = [] \/ names = [str "'"] \/ names = [[DQUOTE]]
  \/ names = [str "'"; [DQUOTE]] \/ names = [[DQUOTE]; str "'"].
Proof.
  intros Hnd Hq.
  destruct names as [|a [|b [|c rest]]].
  - auto.
  - inversion Hq as [|? ? Ha _]; subst. destruct Ha as [-> | ->]; auto.
  - inversion Hq as [|? ? Ha Hq']; subst. inversion Hq' as [|? ? Hb _]; subst.
    inversion Hnd as [|? ? Hnin _]; subst.
    destruct Ha as [-> | ->], Hb as [-> | ->]; auto 6;
      exfalso; apply Hnin; now left.
  - exfalso.
    inversion Hq as [|? ? Ha Hq']; subst. inversion Hq' as [|? ? Hb Hq'']; subst.
    inversion Hq'' as [|? ? Hc _]; subst.
    inversion Hnd as [|? ? Hnin Hnd']; subst.
    inversion Hnd' as [|? ? Hnin' _]; subst.
    destruct Ha as [-> | ->], Hb as [-> | ->], Hc as [-> | ->];
      try (apply Hnin; now left); try (apply Hnin; right; now left);
      try (apply Hnin'; now left).
Qed.

(** From a state that calls have produced, the loop over the names
    never throws. *)
Lemma append_entries_returns names : forall acc s,
  well_formed s ->
  exists text s', append_entries names acc s = (Ok text, s').
Proof.
  induction names as [|name names IH]; intros acc s Hs; [simpl; eauto|].
  cbn [append_entries].
  destruct (step_well_formed name s Hs) as (Hs1 & Hget & _).
  destruct (generateUniqueThemeId name s) as [r s1]. cbn [fst snd] in *.
  destruct (well_formed_stored _ _ _ Hs1 Hget) as (i & _ & ->).
  destruct (id_of_returns i) as (w & -> & _).
  apply IH. assumption.
Qed.

(** X20: [generateConfigContent], called with the empty memo and the
    counter at zero, ends in that state again, whether it returns or
    throws, so the next call starts as the first one did; and it throws
    only when reading the directory or a file throws, never in the
    generation of ids. *)
Theorem generateConfigContent_restores_state (cwd : jsstring) (fs : Js.filesystem) :
  snd (generateConfigContent cwd fs initial) = initial
  /\ (fst (generateConfigContent cwd fs initial) = Threw ->
      Js.readdirSync fs (Path.resolve cwd [cwd; SKINS_DIR_ROOT]) = None
      \/ exists path, Js.existsSync fs path = true /\ Js.readFileSync fs path = None).
Proof.
  assert (Hx : forall path names,
             extractVarsFromFile fs path names = Threw ->
             Js.existsSync fs path = true /\ Js.readFileSync fs path = None).
  { intros path names H. unfold extractVarsFromFile in H.
    destruct (Js.existsSync fs path); [|discriminate].
    destruct (Js.readFileSync fs path); [discriminate|auto]. }
  assert (Hsk : forall dir files names,
             extract_skins fs dir files names = Threw ->
             exists path, Js.existsSync fs path = true /\ Js.readFileSync fs path = None).
  { intros dir files. induction files as [|file files IH]; intros names H;
      simpl in H; [discriminate|].
    destruct (extractVarsFromFile fs _ names) as [names1|] eqn:E; [eauto|].
    apply Hx in E. eauto. }
  unfold generateConfigContent.
  destruct (negb (Js.existsSync fs _)); [split; [reflexivity|discriminate]|].
  destruct (Js.readdirSync fs _) as [files|]; [|split; [reflexivity|auto]].
  destruct (extractVarsFromFile fs _ []) as [names0|] eqn:E0;
    [|split; [reflexivity|intros _; right; apply Hx in E0; eauto]].
  destruct (extract_skins fs _ _ names0) as [names|] eqn:E1;
    [|split; [reflexivity|intros _; right; eapply Hsk; eassumption]].
  destruct (append_entries_returns names (str "$__AUTO_VAR_MAP__: (") initial
                                   initial_well_formed) as (text & s' & ->).
  split; [reflexivity|discriminate].
Qed.

(** X21: whatever the files hold, the map that [generateConfigContent]
    of src/unnamed/part_003 returns has at most two entries and their
    keys are quote characters: of every match the function adds capture
    1, the opening quote, to the set of names, not capture 2, the text
    between the quotes.  The text returned is one of five. *)
Theorem generateConfigContent_keys_are_quotes
        (cwd : jsstring) (fs : Js.filesystem) (text : jsstring) :
  fst (generateConfigContent cwd fs initial) = Ok text ->
  text = auto_var_map []
  \/ text = auto_var_map (entry_line (str "'") (str "A"))
  \/ text = auto_var_map (entry_line [DQUOTE] (str "A"))
  \/ text = auto_var_map (entry_line (str "'") (str "A")
                              ++ entry_line [DQUOTE] (str "B"))
  \/ text = auto_var_map (entry_line [DQUOTE] (str "A")
                              ++ entry_line (str "'") (str "B")).
Proof.
  unfold generateConfigContent.
  destruct (negb (Js.existsSync fs _)).
  { intros H. injection H as <-. left. reflexivity. }
  destruct (Js.readdirSync fs _) as [files|]; [|discriminate].
  destruct (extractVarsFromFile fs _ []) as [names0|] eqn:E0; [|discriminate].
  destruct (extract_skins fs _ _ names0) as [names|] eqn:E1; [|discriminate].
  destruct (extractVarsFromFile_quotes _ _ _ _ E0 (NoDup_nil _) (Forall_nil _))
    as [Hnd0 Hq0].
  destruct (extract_skins_quotes _ _ _ _ _ E1 Hnd0 Hq0) as [Hnd Hq].
  destruct (quote_names_cases names Hnd Hq) as [->|[->|[->|[->| ->]]]];
    intros H; vm_compute in H; injection H as <-;
    [left|right; left|do 2 right; left|do 3 right; left|do 4 right];
    reflexivity.
Qed.

Lemma generateConfigContent_keys_are_quotes_witness :
  let fs := {| Js.existsSync := fun _ => true;
               Js.readdirSync := fun _ => Some [str "_dark.scss"];
               Js.readFileSync := fun _ => Some (str "'bg': red, 'fg': blue") |} in
  let text := auto_var_map (entry_line (str "'") (str "A")) in
  text = auto_var_map []
  \/ text = auto_var_map (entry_line (str "'") (str "A"))
  \/ text = auto_var_map (entry_line [DQUOTE] (str "A"))
  \/ text = auto_var_map (entry_line (str "'") (str "A")
                              ++ entry_line [DQUOTE] (str "B"))
  \/ text = auto_var_map (entry_line [DQUOTE] (str "A")
                              ++ entry_line (str "'") (str "B")).
Proof.
  intros fs text.
  apply (generateConfigContent_keys_are_quotes (str "/proj") fs text).
  vm_compute. reflexivity.
Defined.
End ConfigContent.

(* ===================================================================== *)
(** * Sibling imports in the engine with import rewriting *)
(* ===================================================================== *)

Section SiblingImports.
Import RegExp MatcherSpec Hooks EngineSpec PolicySpec RegistrySpec.

Lemma relative_test_dot_slash name :
  test Canonical.REGEX_START_RELATIVE_PATH (str "./" ++ name) = true.
Proof.
  apply test_true_iff. exists [], (str "./" ++ name). eexists.
  split; [reflexivity|]. cbn. reflexivity.
Qed.

Lemma m_bol_start ic k r cs : m ic Bol k (st 0 r cs) = k (st 0 r cs).
Proof. reflexivity. Qed.

Lemma relative_test_name c tl :
  is_space c = false -> c <> "."%char -> c <> "/"%char -> c <> "\"%char ->
  test Canonical.REGEX_START_RELATIVE_PATH (c :: tl) = true.
Proof.
  intros Hs Hd Hsl Hb.
  apply test_true_iff. exists [], (c :: tl).
  cbn [length ignoreCase Canonical.REGEX_START_RELATIVE_PATH].
  destruct (m false _ Some (st 0 (c :: tl) [])) as [s'|] eqn:E; [eauto|exfalso].
  revert E.
  change (pattern Canonical.REGEX_START_RELATIVE_PATH)
    with (Seq (Group 1 (Alt Bol (chr LF)))
              (Seq (Star true (Chr is_space))
                   (Seq (Group 2
                           (Alt (seqs [chr "."%char; opt (chr "."%char);
                                       Group 3 (Alt (chr "/"%char) (chr "\"%char))])
                                (Chr (fun c => negb (is_space c || chr_eq c "."%char
                                                     || chr_eq c "/"%char
                                                     || chr_eq c "\"%char)))))
                        Empty))).
  rewrite m_seq, m_group, m_alt, m_bol_start. cbn [pos rest caps].
  rewrite m_seq, m_star_greedy. cbn [greedy_run]. rewrite Hs.
  rewrite m_seq, m_group, m_alt.
  assert (Hcls : (fun c0 => negb (is_space c0 || chr_eq c0 "."%char
                                  || chr_eq c0 "/"%char || chr_eq c0 "\"%char)) c
                 = true).
  { cbv beta. rewrite Hs. unfold chr_eq.
    destruct (Ascii.eqb_spec c "."%char); [contradiction|].
    destruct (Ascii.eqb_spec c "/"%char); [contradiction|].
    destruct (Ascii.eqb_spec c "\"%char); [contradiction|]. reflexivity. }
  rewrite (m_chr_hit false _ _ 0 c tl _ Hcls), m_empty.
  destruct (m false (seqs _) _ _); cbn [orelse]; discriminate.
Qed.

Lemma ordinary_name_inv name :
  ordinary_name name ->
  exists c tl,
    name = c :: tl /\ plain_name name
    /\ is_space c = false /\ c <> "."%char /\ c <> "/"%char /\ c <> "\"%char
    /\ c <> "@"%char /\ Forall (fun x => x <> ":"%char) name.
Proof.
  intros (Hp & Hc & Hh). destruct (plain_name_inv name Hp)
    as (c & tl & -> & Hdot & Hslash & _ & Hb).
  destruct Hh as [Hat Hs]. inversion Hb; subst.
  exists c, tl. split; [reflexivity|]. split; [exact Hp|].
  repeat split; assumption.
Qed.

Lemma no_colon_no_scheme name :
  Forall (fun x => x <> ":"%char) name -> test URL_SCHEME_REGEX name = false.
Proof.
  intros H. destruct (test URL_SCHEME_REGEX name) eqn:E; [|reflexivity].
  apply scheme_test_iff in E. destruct E as (pre & c & post & -> & _).
  rewrite Forall_forall in H. exfalso. apply (H ":"%char); [|reflexivity].
  apply in_or_app. right. right. now left.
Qed.

Lemma canonical_policy_name cwd source importer name :
  ordinary_name name ->
  backslash_to_slash (Path.normalize source) = name ->
  test Canonical.REGEX_START_RELATIVE_PATH source = true ->
  importer <> [] ->
  Canonical.fasterSimpleResolveAbsolutePath cwd source (Some importer)
  = Canonical.RPath
      (backslash_to_slash
         (Path.normalize (Path.resolve cwd [Path.dirname importer; name]))).
Proof.
  intros Hn E Ht Hi.
  destruct (ordinary_name_inv name Hn)
    as (c & tl & En & _ & _ & _ & Hsl & _ & Hat & Hcolon).
  rewrite En in *. clear En Hn.
  unfold Canonical.fasterSimpleResolveAbsolutePath. rewrite E, Ht.
  rewrite (no_colon_no_scheme _ Hcolon).
  assert (Habs : Path.isAbsolute (c :: tl) = false).
  { simpl. unfold chr_eq. destruct (Ascii.eqb_spec c "/"%char); congruence. }
  assert (Ha : startsWith (str "@") (c :: tl) = false).
  { change (startsWith (str "@") (c :: tl)) with (Ascii.eqb "@"%char c && true).
    destruct (Ascii.eqb_spec "@"%char c); [congruence|reflexivity]. }
  rewrite Habs, Ha.
  destruct importer as [|i0 importer]; [congruence|].
  cbn [truthy negb andb orb or_empty]. reflexivity.
Qed.

(** X22: the engine with import rewriting does resolve a sibling import:
    for a specifier [./name] or [name], where [name] has no separator
    and no colon and does not begin with a dot, white space or [@], and
    a non-empty importer, the policy returns [name] resolved against the
    directory of the importer, normalized, with forward slashes. *)
Theorem canonical_resolves_sibling_specifier
        (cwd name importer : jsstring) :
  ordinary_name name -> importer <> [] ->
  let resolved :=
    Canonical.RPath
      (backslash_to_slash
         (Path.normalize (Path.resolve cwd [Path.dirname importer; name]))) in
  Canonical.fasterSimpleResolveAbsolutePath cwd (str "./" ++ name) (Some importer)
  = resolved
  /\ Canonical.fasterSimpleResolveAbsolutePath cwd name (Some importer) = resolved.
Proof.
  intros Hn Hi resolved.
  destruct (ordinary_name_inv name Hn)
    as (c & tl & En & Hp & Hs & Hd & Hsl & Hbs & _ & _).
  destruct (normalize_plain name Hp) as [Hnn Hnd].
  destruct (plain_name_inv name Hp) as (_ & _ & _ & _ & _ & _ & Hb).
  pose proof (backslash_to_slash_id name Hb) as Hid.
  split.
  - apply canonical_policy_name; try assumption.
    + now rewrite Hnd.
    + apply relative_test_dot_slash.
  - apply canonical_policy_name; try assumption.
    + now rewrite Hnn.
    + rewrite En. now apply relative_test_name.
Qed.

Lemma canonical_resolves_sibling_specifier_witness :
  Canonical.fasterSimpleResolveAbsolutePath
    (str "/proj") (str "./" ++ str "sibling.scss") (Some (str "/proj/src/a.scss"))
  = Canonical.RPath
      (backslash_to_slash
         (Path.normalize
            (Path.resolve (str "/proj")
                          [Path.dirname (str "/proj/src/a.scss"); str "sibling.scss"])))
  /\ Canonical.fasterSimpleResolveAbsolutePath
       (str "/proj") (str "sibling.scss") (Some (str "/proj/src/a.scss"))
     = Canonical.RPath
         (backslash_to_slash
            (Path.normalize
               (Path.resolve (str "/proj")
                             [Path.dirname (str "/proj/src/a.scss");
                              str "sibling.scss"]))).
Proof.
  apply (canonical_resolves_sibling_specifier
           (str "/proj") (str "sibling.scss") (str "/proj/src/a.scss")).
  - split; [|split].
    + split; [discriminate|].
      repeat (constructor; [split; discriminate|]). constructor.
    + repeat (constructor; [discriminate|]). constructor.
    + split; [discriminate|reflexivity].
  - discriminate.
Defined.
End SiblingImports.

(* ===================================================================== *)
(** * The comment syntax of a file *)
(* ===================================================================== *)

Section CommentSyntax.
Import Hooks.

Variable f : ascii -> ascii.
Hypothesis f_slash : forall c, chr_eq (f c) "/"%char = chr_eq c "/"%char.
Hypothesis f_dot : forall c, chr_eq (f c) "."%char = chr_eq c "."%char.

(** The scan of [extname] looks at separators and dots only. *)
Lemma extname_scan_map : forall rp i st,
  Path.extname_scan (map f rp) i st = Path.extname_scan rp i st.
Proof.
  induction rp as [|c rp IH]; intros i st; [reflexivity|].
  destruct i as [|j]; [reflexivity|].
  cbn [map Path.extname_scan]. rewrite f_slash, f_dot.
  destruct (chr_eq c "/"%char).
  - destruct (negb (Path.matchedSlash st)); [reflexivity|apply IH].
  - apply IH.
Qed.

Lemma extname_map p : Path.extname (map f p) = map f (Path.extname p).
Proof.
  unfold Path.extname. rewrite <- map_rev, length_map, extname_scan_map.
  destruct (Path.startDot _) as [sd|]; [|reflexivity].
  destruct (Path.ext_end _) as [e|]; [|reflexivity].
  destruct (_ || _); [reflexivity|].
  unfold Path.slice. now rewrite skipn_map, firstn_map.
Qed.
End CommentSyntax.

Section CommentSyntaxCase.
Import Hooks.

Lemma upper_slash c : chr_eq (upper c) "/"%char = chr_eq c "/"%char.
Proof. destruct c as [[] [] [] [] [] [] [] []]; reflexivity. Qed.

Lemma upper_dot c : chr_eq (upper c) "."%char = chr_eq c "."%char.
Proof. destruct c as [[] [] [] [] [] [] [] []]; reflexivity. Qed.

Lemma lower_slash c : chr_eq (lower c) "/"%char = chr_eq c "/"%char.
Proof. destruct c as [[] [] [] [] [] [] [] []]; reflexivity. Qed.

Lemma lower_dot c : chr_eq (lower c) "."%char = chr_eq c "."%char.
Proof. destruct c as [[] [] [] [] [] [] [] []]; reflexivity. Qed.

Lemma lower_upper c : lower (upper c) = lower c.
Proof. destruct c as [[] [] [] [] [] [] [] []]; reflexivity. Qed.

Lemma lower_lower c : lower (lower c) = lower c.
Proof. destruct c as [[] [] [] [] [] [] [] []]; reflexivity. Qed.

End CommentSyntaxCase.
